(** * Strawberry collection filter: query parsing and row visibility

    A shallow embedding of [src/collection/collectionfilter.cpp]
    ([CollectionFilter::filterAcceptsRow] and its helpers) together with the
    declarations of [collectionfilter.h] and [collectionmodel.h] it relies on.

    Conventions of the embedding:
    - a [QString] is a [string]; its characters are read as Latin-1 code
      points, so case folding and [QChar::isSpace] are the Unicode ones
      restricted to U+0000..U+00FF;
    - C++ [int], [uint] and [qint64] values are integers in [Z], the range
      being checked where the code converts ([toInt], [toUInt]);
    - a C++ [float] is an IEEE value of [SpecFloat.spec_float];
    - a [QVariant] is a closed tagged union, [QMap<QString, FilterData>] an
      association list with replace-on-insert;
    - the Qt 6 branches of the [QT_VERSION] conditionals are the ones taken. *)

From Stdlib Require Import String Ascii List ZArith Bool Arith Lia.
From Stdlib Require Import Floats.SpecFloat.
From Stdlib Require Import Sorting.Permutation.
Import ListNotations.

Local Open Scope list_scope.
Local Open Scope string_scope.

(* ================================================================= *)
(** ** Qt string primitives used by the filter *)

Module Qt.

Definition QString := string.

(** The quotation mark, U+0022. *)
Definition dquote : ascii := "034"%char.

(** The backslash, U+005C. *)
Definition backslash : ascii := "092"%char.

Definition isEmpty (s : QString) : bool :=
  match s with
  | EmptyString => true
  | String _ _ => false
  end.

(** [QChar::isSpace] on Latin-1: U+0009..U+000D, U+0020, U+0085, U+00A0. *)
Definition isSpace (c : ascii) : bool :=
  let n := nat_of_ascii c in
  (((9 <=? n) && (n <=? 13)) || (n =? 32) || (n =? 133) || (n =? 160))%nat.

(** The class [\s] of QRegularExpression (no Unicode properties option). *)
Definition regex_space (c : ascii) : bool :=
  let n := nat_of_ascii c in
  (((9 <=? n) && (n <=? 13)) || (n =? 32))%nat.

(** Simple case folding on Latin-1: A-Z and U+00C0..U+00DE (U+00D7 apart)
    fold to the letter 32 code points above. *)
Definition foldCase (c : ascii) : ascii :=
  let n := nat_of_ascii c in
  if (((65 <=? n) && (n <=? 90)) || ((192 <=? n) && (n <=? 222) && negb (n =? 215)))%nat
  then ascii_of_nat (n + 32)
  else c.

Fixpoint toCaseFolded (s : QString) : QString :=
  match s with
  | EmptyString => EmptyString
  | String c s' => String (foldCase c) (toCaseFolded s')
  end.

(** [QString::contains(const QString &, Qt::CaseSensitive)]: some suffix of
    the haystack starts with the needle. *)
Fixpoint contains (needle hay : QString) : bool :=
  prefix needle hay ||
  match hay with
  | EmptyString => false
  | String _ hay' => contains needle hay'
  end.

(** [hay.contains(needle, Qt::CaseInsensitive)]. *)
Definition contains_ci (needle hay : QString) : bool :=
  contains (toCaseFolded needle) (toCaseFolded hay).

(** [QString::compare(other, Qt::CaseInsensitive) == 0]. *)
Definition equals_ci (a b : QString) : bool :=
  String.eqb (toCaseFolded a) (toCaseFolded b).

(** [QString::contains(QChar)]. *)
Fixpoint contains_char (c : ascii) (s : QString) : bool :=
  match s with
  | EmptyString => false
  | String d s' => Ascii.eqb c d || contains_char c s'
  end.

(** [QString::count(QChar)]. *)
Fixpoint count_char (c : ascii) (s : QString) : nat :=
  match s with
  | EmptyString => 0
  | String d s' => (if Ascii.eqb c d then 1 else 0) + count_char c s'
  end.

(** [QString::remove(QChar)]. *)
Fixpoint remove_char (c : ascii) (s : QString) : QString :=
  match s with
  | EmptyString => EmptyString
  | String d s' => if Ascii.eqb c d then remove_char c s' else String d (remove_char c s')
  end.

Fixpoint trim_left (s : QString) : QString :=
  match s with
  | EmptyString => EmptyString
  | String c s' => if isSpace c then trim_left s' else s
  end.

Fixpoint trim_right (s : QString) : QString :=
  match s with
  | EmptyString => EmptyString
  | String c s' =>
      let t := trim_right s' in
      if isSpace c && isEmpty t then EmptyString else String c t
  end.

(** [QString::trimmed()]. *)
Definition trimmed (s : QString) : QString := trim_right (trim_left s).

(** [QString::left(1)]. *)
Definition left1 (s : QString) : QString :=
  match s with
  | EmptyString => EmptyString
  | String c _ => String c EmptyString
  end.

(** [QString::remove(0, 1)]. *)
Definition remove_first (s : QString) : QString :=
  match s with
  | EmptyString => EmptyString
  | String _ s' => s'
  end.

(** [QString::split(sep, Qt::KeepEmptyParts)] for a non-empty separator:
    the occurrences of [sep] are found left to right without overlap;
    [skip] counts the characters of an occurrence still to be passed. *)
Fixpoint split_aux (sep s : QString) (skip : nat) (cur : QString) : list QString :=
  match s with
  | EmptyString => [cur]
  | String c s' =>
      match skip with
      | S k => split_aux sep s' k cur
      | O =>
          if prefix sep s
          then cur :: split_aux sep s' (String.length sep - 1) EmptyString
          else split_aux sep s' 0 (cur ++ String c EmptyString)
      end
  end.

Definition split (sep s : QString) : list QString :=
  if isEmpty sep then [s] else split_aux sep s 0 EmptyString.

(** [QStringList::join(sep)]. *)
Fixpoint join (sep : QString) (l : list QString) : QString :=
  match l with
  | [] => EmptyString
  | [x] => x
  | x :: l' => x ++ sep ++ join sep l'
  end.

(** [QString::section(sep, start, end)] with the default flags: the fields
    [start..end] of the split, joined by [sep]; a negative index counts from
    the last field. *)
Definition section (sep : QString) (start end_ : Z) (s : QString) : QString :=
  let sections := split sep s in
  let n := Z.of_nat (List.length sections) in
  let start := if (start <? 0)%Z then (start + n)%Z else start in
  let end_ := if (end_ <? 0)%Z then (end_ + n)%Z else end_ in
  if (start >=? n)%Z || (end_ <? 0)%Z || (start >? end_)%Z then EmptyString
  else
    let first := Z.to_nat (Z.max 0 start) in
    let count := (Z.to_nat end_ + 1 - first)%nat in
    join sep (firstn count (skipn first sections)).

(** [QString::remove(const QString &)]: every occurrence, left to right. *)
Definition remove (sep s : QString) : QString :=
  String.concat EmptyString (split sep s).

(** [QString::split(QRegularExpression("\\s+"), Qt::SkipEmptyParts)]. *)
Fixpoint split_ws_aux (s cur : QString) : list QString :=
  match s with
  | EmptyString => if isEmpty cur then [] else [cur]
  | String c s' =>
      if regex_space c
      then (if isEmpty cur then split_ws_aux s' EmptyString
            else cur :: split_ws_aux s' EmptyString)
      else split_ws_aux s' (cur ++ String c EmptyString)
  end.

Definition split_ws (s : QString) : list QString := split_ws_aux s EmptyString.

Fixpoint skip_spaces (s : QString) : QString :=
  match s with
  | EmptyString => EmptyString
  | String c s' => if regex_space c then skip_spaces s' else s
  end.

Fixpoint drop (n : nat) (s : QString) : QString :=
  match n, s with
  | O, _ => s
  | S _, EmptyString => EmptyString
  | S k, String _ s' => drop k s'
  end.

(** Length of the match of the regular expression [\s*OP\s*] anchored at
    the start of [s], when there is one ([op] holds no white space, so the
    greedy [\s*] never has to give characters back). *)
Definition match_op_at (op s : QString) : option nat :=
  let s1 := skip_spaces s in
  if prefix op s1
  then Some (String.length s - String.length (skip_spaces (drop (String.length op) s1)))
  else None.

(** [s.replace(QRegularExpression("\\s*OP\\s*"), "OP")]: every match, left
    to right, is replaced by the bare operator. *)
Fixpoint replace_around (op s : QString) (skip : nat) : QString :=
  match s with
  | EmptyString => EmptyString
  | String c s' =>
      match skip with
      | S k => replace_around op s' k
      | O =>
          match match_op_at op s with
          | Some n => op ++ replace_around op s' (n - 1)
          | None => String c (replace_around op s' 0)
          end
      end
  end.

Definition digit_of (c : ascii) : option Z :=
  let n := nat_of_ascii c in
  if ((48 <=? n) && (n <=? 57))%nat then Some (Z.of_nat (n - 48)) else None.

Fixpoint parse_digits (s : QString) (acc : Z) : option Z :=
  match s with
  | EmptyString => Some acc
  | String c s' =>
      match digit_of c with
      | Some d => parse_digits s' (acc * 10 + d)%Z
      | None => None
      end
  end.

Definition parse_unsigned (s : QString) : option Z :=
  if isEmpty s then None else parse_digits s 0%Z.

(** Base-10 integer in the C locale: optional sign, then digits only. *)
Definition parse_integer (s : QString) : option Z :=
  match trimmed s with
  | String "-"%char ds => option_map Z.opp (parse_unsigned ds)
  | String "+"%char ds => parse_unsigned ds
  | ds => parse_unsigned ds
  end.

Definition INT_MIN : Z := (- 2147483648)%Z.
Definition INT_MAX : Z := 2147483647%Z.
Definition UINT_MAX : Z := 4294967295%Z.

(** [QString::toInt(&ok)]: [None] stands for [ok == false]. *)
Definition toInt (s : QString) : option Z :=
  match parse_integer s with
  | Some z => if (INT_MIN <=? z)%Z && (z <=? INT_MAX)%Z then Some z else None
  | None => None
  end.

(** [QString::toUInt(&ok)]: a leading minus sign is refused. *)
Definition toUInt (s : QString) : option Z :=
  match trimmed s with
  | String "-"%char _ => None
  | _ =>
      match parse_integer s with
      | Some z => if (z <=? UINT_MAX)%Z then Some z else None
      | None => None
      end
  end.

(** [QStringList::contains(str, Qt::CaseInsensitive)]. *)
Definition list_contains_ci (l : list QString) (s : QString) : bool :=
  existsb (fun e => equals_ci e s) l.

(** [QStringList::contains(str)]. *)
Definition list_contains (l : list QString) (s : QString) : bool :=
  existsb (fun e => String.eqb e s) l.

End Qt.

Import Qt.

(* ================================================================= *)
(** ** Data model *)

(** Modelled from the spec: the [Song] class (core/song.h) is not part of
    the sources at hand.  The record holds the value of each accessor that
    [DataFromField] calls, with the accessor's C++ type: text fields are
    strings, track, year, sample rate, bit depth and bitrate are [int],
    the length in nanoseconds is [qint64], the rating is [float], the play
    and skip counts are [uint]; [is_valid] is the validity flag. *)
Record Song := mkSong {
  is_valid : bool;
  effective_albumartist : QString;
  artist : QString;
  album : QString;
  title : QString;
  composer : QString;
  performer : QString;
  grouping : QString;
  genre : QString;
  comment : QString;
  track : Z;
  year : Z;
  length_nanosec : Z;
  samplerate : Z;
  bitdepth : Z;
  bitrate : Z;
  rating : spec_float;
  playcount : Z;
  skipcount : Z
}.

(** Modelled from the spec: [Song::kTextSearchColumns] and the numerical
    column lists (core/song.cpp) are not part of the sources at hand.  The
    free-text fields are the string-valued fields of [DataFromField]; the
    numeric fields are the ten the spec lists (track, year, bitrate, length,
    rating, samplerate, bitdepth, disc, playcount, skipcount), split by
    native type. *)
Definition kTextSearchColumns : list QString :=
  ["title"; "album"; "artist"; "albumartist"; "composer"; "performer";
   "grouping"; "genre"; "comment"].

Definition kIntSearchColumns : list QString :=
  ["track"; "disc"; "year"; "samplerate"; "bitdepth"; "bitrate"].

Definition kUIntSearchColumns : list QString := ["playcount"; "skipcount"].

Definition kInt64SearchColumns : list QString := ["length"].

Definition kFloatSearchColumns : list QString := ["rating"].

Definition kNumericalSearchColumns : list QString :=
  (kIntSearchColumns ++ kUIntSearchColumns ++ kInt64SearchColumns ++ kFloatSearchColumns)%list.

(** Modelled from the spec: [kNsecPerSec] (utilities/timeconstants.h) is
    not part of the sources at hand; it is the number of nanoseconds in a
    second. *)
Definition kNsecPerSec : Z := 1000000000%Z.

(** [QMetaType] identifiers of the values a [QVariant] holds here. *)
Inductive QMetaType :=
| UnknownType
| QMetaType_QString
| QMetaType_Int
| QMetaType_UInt
| QMetaType_LongLong
| QMetaType_Float.

Definition QMetaType_eqb (a b : QMetaType) : bool :=
  match a, b with
  | UnknownType, UnknownType
  | QMetaType_QString, QMetaType_QString
  | QMetaType_Int, QMetaType_Int
  | QMetaType_UInt, QMetaType_UInt
  | QMetaType_LongLong, QMetaType_LongLong
  | QMetaType_Float, QMetaType_Float => true
  | _, _ => false
  end.

(** A [QVariant]: invalid, or a value tagged with its type. *)
Inductive QVariant :=
| QVariant_Invalid
| QVariant_QString (s : QString)
| QVariant_Int (i : Z)
| QVariant_UInt (u : Z)
| QVariant_LongLong (l : Z)
| QVariant_Float (f : spec_float).

Definition metaType (v : QVariant) : QMetaType :=
  match v with
  | QVariant_Invalid => UnknownType
  | QVariant_QString _ => QMetaType_QString
  | QVariant_Int _ => QMetaType_Int
  | QVariant_UInt _ => QMetaType_UInt
  | QVariant_LongLong _ => QMetaType_LongLong
  | QVariant_Float _ => QMetaType_Float
  end.

Definition isValid (v : QVariant) : bool :=
  match v with
  | QVariant_Invalid => false
  | _ => true
  end.

(** [struct FilterData] of collectionfilter.h. *)
Record FilterData := mkFilterData {
  field : QString;
  value : QVariant;
  foperator : QString
}.

(** [FilterDataList = QMap<QString, FilterData>]: the bindings in key
    order, one per key. *)
Definition FilterDataList := list (QString * FilterData).

(** [QMap::insert]: the value of an existing key is replaced. *)
Fixpoint insert (key : QString) (data : FilterData) (m : FilterDataList) : FilterDataList :=
  match m with
  | [] => [(key, data)]
  | (k, d) :: m' =>
      if String.eqb key k then (key, data) :: m'
      else if String.ltb key k then (key, data) :: m
      else (k, d) :: insert key data m'
  end.

(** [CollectionModel::GroupBy]. *)
Inductive GroupBy :=
| GroupBy_None
| GroupBy_AlbumArtist
| GroupBy_Artist
| GroupBy_Album
| GroupBy_AlbumDisc
| GroupBy_YearAlbum
| GroupBy_YearAlbumDisc
| GroupBy_OriginalYearAlbum
| GroupBy_OriginalYearAlbumDisc
| GroupBy_Disc
| GroupBy_Year
| GroupBy_OriginalYear
| GroupBy_Genre
| GroupBy_Composer
| GroupBy_Performer
| GroupBy_Grouping
| GroupBy_FileType
| GroupBy_Format
| GroupBy_Samplerate
| GroupBy_Bitdepth
| GroupBy_Bitrate
| GroupBy_GroupByCount.

(** [CollectionModel::Grouping]. *)
Record Grouping := mkGrouping {
  first : GroupBy;
  second : GroupBy;
  third : GroupBy
}.

(** Modelled from the spec: [Grouping::operator[]] is declared in
    collectionmodel.h and defined in a file that is not at hand; a Grouping
    is the ordered triple of its three levels, so index 0, 1, 2 selects
    [first], [second], [third].  [ItemMatchesFilter] calls it with a level
    in 0..2 only. *)
Definition Grouping_at (g : Grouping) (i : Z) : GroupBy :=
  if (i =? 0)%Z then first g
  else if (i =? 1)%Z then second g
  else if (i =? 2)%Z then third g
  else first g.

(** [CollectionModel::IsArtistGroupBy] (collectionmodel.h). *)
Definition IsArtistGroupBy (group_by : GroupBy) : bool :=
  match group_by with
  | GroupBy_Artist | GroupBy_AlbumArtist => true
  | _ => false
  end.

(** [CollectionModel::IsAlbumGroupBy] (collectionmodel.h). *)
Definition IsAlbumGroupBy (group_by : GroupBy) : bool :=
  match group_by with
  | GroupBy_Album | GroupBy_YearAlbum | GroupBy_AlbumDisc | GroupBy_YearAlbumDisc
  | GroupBy_OriginalYearAlbum | GroupBy_OriginalYearAlbumDisc => true
  | _ => false
  end.

(** Modelled from the spec: [CollectionItem::Type] (collectionitem.h) is
    not part of the sources at hand; a node is a Root, Container, Divider,
    Song or LoadingIndicator. *)
Inductive ItemType :=
| Type_Root
| Type_Divider
| Type_Container
| Type_Song
| Type_LoadingIndicator.

Definition ItemType_eqb (a b : ItemType) : bool :=
  match a, b with
  | Type_Root, Type_Root
  | Type_Divider, Type_Divider
  | Type_Container, Type_Container
  | Type_Song, Type_Song
  | Type_LoadingIndicator, Type_LoadingIndicator => true
  | _, _ => false
  end.

(** Modelled from the spec: [CollectionItem] (collectionitem.h) is not part
    of the sources at hand.  A node has a type, a container level (-1 when
    it is not a container), a display text (what [DisplayText()] returns),
    an embedded record and its children; the [parent] back-pointer is the
    position of the node in the tree, see [IndexToChain]. *)
#[local] Unset Elimination Schemes.
Inductive CollectionItem := mkItem {
  type : ItemType;
  container_level : Z;
  display_text : QString;
  metadata : Song;
  children : list CollectionItem
}.
#[local] Set Elimination Schemes.

Definition DisplayText (item : CollectionItem) : QString := display_text item.

(** What the filter reads of a [CollectionModel]: the root of the tree and
    the active grouping. *)
Record CollectionModel := mkModel {
  root : CollectionItem;
  GetGroupBy : Grouping
}.

(** Code the filter calls whose definition is not at hand: the two parsers
    of utilities/searchparserutils and the conversions [QVariant::toX] of a
    variant that holds another type than [X]. *)
Record Externals := mkExternals {
  ParseSearchTime : QString -> Z;
  ParseSearchRating : QString -> spec_float;
  convert_toString : QVariant -> QString;
  convert_toInt : QVariant -> Z;
  convert_toUInt : QVariant -> Z;
  convert_toLongLong : QVariant -> Z;
  convert_toFloat : QVariant -> spec_float
}.

(* ================================================================= *)
(** ** The filter *)

(** [CollectionFilter::Operators]. *)
Definition Operators : list QString :=
  [":"; "="; "=="; "<>"; "<"; "<="; ">"; ">="].

(** [CollectionFilter::ContainsOperators]. *)
Definition ContainsOperators (token : QString) : bool :=
  existsb (fun foperator => contains_ci foperator token) Operators.

(** [CollectionFilter::FieldsFromGroupBy]. *)
Definition FieldsFromGroupBy (group_by : GroupBy) : list QString :=
  match group_by with
  | GroupBy_AlbumArtist => ["albumartist"]
  | GroupBy_Artist => ["artist"]
  | GroupBy_Album => ["album"]
  | GroupBy_AlbumDisc => ["album"; "disc"]
  | GroupBy_YearAlbum => ["year"; "album"]
  | GroupBy_YearAlbumDisc => ["year"; "album"; "disc"]
  | GroupBy_OriginalYearAlbum => ["originalyear"; "album"]
  | GroupBy_OriginalYearAlbumDisc => ["originalyear"; "album"; "disc"]
  | GroupBy_Disc => ["disc"]
  | GroupBy_Year => ["year"]
  | GroupBy_OriginalYear => ["originalyear"]
  | GroupBy_Genre => ["genre"]
  | GroupBy_Composer => ["composer"]
  | GroupBy_Performer => ["performer"]
  | GroupBy_Grouping => ["grouping"]
  | GroupBy_FileType => ["filetype"]
  | GroupBy_Format => ["format"]
  | GroupBy_Bitdepth => ["bitdepth"]
  | GroupBy_Samplerate => ["samplerate"]
  | GroupBy_Bitrate => ["bitrate"]
  | GroupBy_None | GroupBy_GroupByCount => []
  end.

(** [CollectionFilter::DataFromField]: the field name is compared with
    [operator==], that is case-sensitively. *)
Definition DataFromField (field : QString) (metadata : Song) : QVariant :=
  if String.eqb field "albumartist" then QVariant_QString (effective_albumartist metadata)
  else if String.eqb field "artist" then QVariant_QString (artist metadata)
  else if String.eqb field "album" then QVariant_QString (album metadata)
  else if String.eqb field "title" then QVariant_QString (title metadata)
  else if String.eqb field "composer" then QVariant_QString (composer metadata)
  else if String.eqb field "performer" then QVariant_QString (performer metadata)
  else if String.eqb field "grouping" then QVariant_QString (grouping metadata)
  else if String.eqb field "genre" then QVariant_QString (genre metadata)
  else if String.eqb field "comment" then QVariant_QString (comment metadata)
  else if String.eqb field "track" then QVariant_Int (track metadata)
  else if String.eqb field "year" then QVariant_Int (year metadata)
  else if String.eqb field "length" then QVariant_LongLong (length_nanosec metadata)
  else if String.eqb field "samplerate" then QVariant_Int (samplerate metadata)
  else if String.eqb field "bitdepth" then QVariant_Int (bitdepth metadata)
  else if String.eqb field "bitrate" then QVariant_Int (bitrate metadata)
  else if String.eqb field "rating" then QVariant_Float (rating metadata)
  else if String.eqb field "playcount" then QVariant_UInt (playcount metadata)
  else if String.eqb field "skipcount" then QVariant_UInt (skipcount metadata)
  else QVariant_Invalid.

(** The comparisons the template [FieldNumericalValueMatchesData<T>] needs
    of its type [T]: [==], [<] and [<=] ([!=], [>] and [>=] are their
    negation and converses, also on IEEE floats). *)
Class Comparable (T : Type) := {
  cmp_eq : T -> T -> bool;
  cmp_lt : T -> T -> bool;
  cmp_le : T -> T -> bool
}.

#[export] Instance Comparable_Z : Comparable Z :=
  {| cmp_eq := Z.eqb; cmp_lt := Z.ltb; cmp_le := Z.leb |}.

#[export] Instance Comparable_float : Comparable spec_float :=
  {| cmp_eq := SFeqb; cmp_lt := SFltb; cmp_le := SFleb |}.

(** [CollectionFilter::FieldNumericalValueMatchesData]. *)
Definition FieldNumericalValueMatchesData {T : Type} `{Comparable T}
    (value : T) (foperator : QString) (data : T) : bool :=
  if String.eqb foperator "=" || String.eqb foperator "==" then cmp_eq data value
  else if String.eqb foperator "!=" || String.eqb foperator "<>" then negb (cmp_eq data value)
  else if String.eqb foperator "<" then cmp_lt data value
  else if String.eqb foperator ">" then cmp_lt value data
  else if String.eqb foperator ">=" then cmp_le value data
  else if String.eqb foperator "<=" then cmp_le data value
  else false.

Definition FieldIntValueMatchesData (value : Z) (foperator : QString) (data : Z) : bool :=
  FieldNumericalValueMatchesData value foperator data.

Definition FieldUIntValueMatchesData (value : Z) (foperator : QString) (data : Z) : bool :=
  FieldNumericalValueMatchesData value foperator data.

Definition FieldLongLongValueMatchesData (value : Z) (foperator : QString) (data : Z) : bool :=
  FieldNumericalValueMatchesData value foperator data.

Definition FieldFloatValueMatchesData (value : spec_float) (foperator : QString)
    (data : spec_float) : bool :=
  FieldNumericalValueMatchesData value foperator data.

Section Filter.

Variable ext : Externals.

(** [QVariant::toString()] and the like: the held value when the variant
    has the asked type, Qt's conversion otherwise. *)
Definition QVariant_toString (v : QVariant) : QString :=
  match v with
  | QVariant_QString s => s
  | _ => convert_toString ext v
  end.

Definition QVariant_toInt (v : QVariant) : Z :=
  match v with
  | QVariant_Int i => i
  | _ => convert_toInt ext v
  end.

Definition QVariant_toUInt (v : QVariant) : Z :=
  match v with
  | QVariant_UInt u => u
  | _ => convert_toUInt ext v
  end.

Definition QVariant_toLongLong (v : QVariant) : Z :=
  match v with
  | QVariant_LongLong l => l
  | _ => convert_toLongLong ext v
  end.

Definition QVariant_toFloat (v : QVariant) : spec_float :=
  match v with
  | QVariant_Float f => f
  | _ => convert_toFloat ext v
  end.

(** [CollectionFilter::FieldValueMatchesData]: the switch is on the type of
    the predicate's value. *)
Definition FieldValueMatchesData (value data : QVariant) (foperator : QString) : bool :=
  match metaType value with
  | QMetaType_QString =>
      let str_value := QVariant_toString value in
      let str_data := QVariant_toString data in
      contains_ci str_value str_data
  | QMetaType_Int => FieldIntValueMatchesData (QVariant_toInt value) foperator (QVariant_toInt data)
  | QMetaType_UInt => FieldUIntValueMatchesData (QVariant_toUInt value) foperator (QVariant_toUInt data)
  | QMetaType_LongLong =>
      FieldLongLongValueMatchesData (QVariant_toLongLong value) foperator (QVariant_toLongLong data)
  | QMetaType_Float => FieldFloatValueMatchesData (QVariant_toFloat value) foperator (QVariant_toFloat data)
  | UnknownType => false
  end.

(** [CollectionFilter::ItemMetadataMatches]; [fields] is empty when the
    caller leaves the default argument. *)
Fixpoint ItemMetadataMatches (metadata : Song) (filterdata_list : FilterDataList)
    (fields : list QString) : bool :=
  match filterdata_list with
  | [] => true
  | (field, filter_data) :: it =>
      let value := value filter_data in
      let foperator := foperator filter_data in
      if isEmpty field || negb (isValid value) then
        ItemMetadataMatches metadata it fields
      else if negb (match fields with [] => true | _ => false end)
              && negb (list_contains fields field) then false
      else
        let data := DataFromField field metadata in
        if negb (QMetaType_eqb (metaType value) (metaType data))
           || negb (FieldValueMatchesData value data foperator)
        then false
        else ItemMetadataMatches metadata it fields
  end.

(** [CollectionFilter::ItemMatchesFilter]. *)
Definition ItemMatchesFilter (model : CollectionModel) (item : CollectionItem)
    (filterdata_list : FilterDataList) (filter : QString) : bool :=
  (isEmpty filter || contains_ci filter (DisplayText item))
  &&
  ((match filterdata_list with [] => true | _ => false end)
   ||
   (ItemType_eqb (type item) Type_Song
    && is_valid (metadata item)
    && ItemMetadataMatches (metadata item) filterdata_list [])
   ||
   (ItemType_eqb (type item) Type_Container
    && (0 <=? container_level item)%Z && (container_level item <=? 2)%Z
    && ItemMetadataMatches (metadata item) filterdata_list
         (FieldsFromGroupBy (Grouping_at (GetGroupBy model) (container_level item))))).

(** [CollectionFilter::ChildrenMatches]: depth-first over the children. *)
Fixpoint ChildrenMatches (model : CollectionModel) (item : CollectionItem)
    (filterdata_list : FilterDataList) (filter : QString) {struct item} : bool :=
  match item with
  | mkItem _ _ _ _ item_children =>
      (fix each_child (cs : list CollectionItem) : bool :=
         match cs with
         | [] => false
         | child :: cs' =>
             if ItemMatchesFilter model child filterdata_list filter then true
             else if ChildrenMatches model child filterdata_list filter then true
             else each_child cs'
         end) item_children
  end.

(** The loop of lines 159-161 over [item], [item->parent], ...: [chain] is
    the node followed by its ancestors, nearest first; the end of the list
    is the null parent of the root. *)
Fixpoint ParentsMatch (model : CollectionModel) (chain : list CollectionItem)
    (filterdata_list : FilterDataList) (filter : QString) : bool :=
  match chain with
  | [] => false
  | parent :: up =>
      if ItemType_eqb (type parent) Type_Root then false
      else if ItemMatchesFilter model parent filterdata_list filter then true
      else ParentsMatch model up filterdata_list filter
  end.

(** The regular expression [(=|<[>=]?|>=?|!=)]: [captured(0)] of its first
    match, the alternatives being tried in order at the leftmost position
    where one of them matches. *)
Fixpoint operator_regex_match (token : QString) : option QString :=
  match token with
  | EmptyString => None
  | String c token' =>
      if Ascii.eqb c "="%char then Some "="
      else if Ascii.eqb c "<"%char then
        match token' with
        | String d _ =>
            if Ascii.eqb d ">"%char || Ascii.eqb d "="%char
            then Some (String c (String d EmptyString))
            else Some "<"
        | EmptyString => Some "<"
        end
      else if Ascii.eqb c ">"%char then
        match token' with
        | String d _ => if Ascii.eqb d "="%char then Some ">=" else Some ">"
        | EmptyString => Some ">"
        end
      else if Ascii.eqb c "!"%char then
        match token' with
        | String d _ => if Ascii.eqb d "="%char then Some "!=" else operator_regex_match token'
        | EmptyString => None
        end
      else operator_regex_match token'
  end.

(** Lines 65-72: optional white space around the operators is removed, one
    operator after the other. *)
Definition normalize_operators (filter : QString) : QString :=
  fold_left (fun f op => replace_around op f 0)
            [":"; "="; "=="; "<>"; "<"; ">"; "<="; ">="] filter.

(** Lines 91-100: an opening quotation mark is removed from the value, and
    the value is cut at the closing one when it holds one.  The result is
    the value with [quotation_mark_start] and [quotation_mark_end]. *)
Definition opening_quotation_mark (value : QString) : QString * bool * bool :=
  if String.eqb (left1 value) (String dquote EmptyString) then
    let value := remove_first value in
    if (1 <=? String.length value)%nat && (count_char dquote value =? 1)%nat
    then (trimmed (remove_char dquote (section (String dquote EmptyString) 0 0 value)),
          true, true)
    else (value, true, false)
  else (value, false, false).

(** The loop of lines 101-112 over the tokens after the current one: the
    accumulated value and the number of tokens taken (the outer index [i]
    ends on the last of them). *)
Fixpoint accumulate_value (next_tokens : list QString)
    (quotation_mark_start quotation_mark_end : bool) (value : QString) : QString * nat :=
  match next_tokens with
  | [] => (value, 0)
  | next_value :: next_tokens' =>
      if quotation_mark_end then (value, 0)
      else if negb quotation_mark_start && ContainsOperators next_value then (value, 0)
      else
        let '(next_value, quotation_mark_end) :=
          if quotation_mark_start && contains_char dquote next_value
          then (trimmed (remove_char dquote
                           (section (String dquote EmptyString) 0 0 next_value)), true)
          else (next_value, quotation_mark_end) in
        let '(value, taken) :=
          accumulate_value next_tokens' quotation_mark_start quotation_mark_end
                           (value ++ String " "%char next_value) in
        (value, S taken)
  end.

(** How one pass of the loop body of lines 85-152 ends: with [continue]
    (the index having moved over [taken] further tokens), or by reaching
    lines 153-154, which append the token to the free text. *)
Inductive BodyExit :=
| exit_continue (filterdata_list : FilterDataList) (taken : nat)
| exit_append (filterdata_list : FilterDataList).

(** The predicate set a pass of the body leaves. *)
Definition exit_filterdata_list (e : BodyExit) : FilterDataList :=
  match e with
  | exit_continue filterdata_list _ => filterdata_list
  | exit_append filterdata_list => filterdata_list
  end.

(** Lines 85-152, for the token at index [i] and the tokens after it. *)
Definition token_body (token : QString) (next_tokens : list QString)
    (filterdata_list : FilterDataList) : BodyExit :=
  if contains_char ":"%char token then
    let field := trimmed (remove_char ":"%char (section ":" 0 0 token)) in
    let value := trimmed (remove_char ":"%char (section ":" 1 (-1) token)) in
    if isEmpty field || isEmpty value then exit_continue filterdata_list 0
    else if list_contains_ci kTextSearchColumns field
            && (count_char dquote value <=? 2)%nat then
      let '(value, quotation_mark_start, quotation_mark_end) :=
        opening_quotation_mark value in
      let '(value, taken) :=
        accumulate_value next_tokens quotation_mark_start quotation_mark_end value in
      if negb (isEmpty field) && negb (isEmpty value)
      then exit_continue
             (insert field (mkFilterData field (QVariant_QString value) EmptyString)
                     filterdata_list) taken
      else exit_continue filterdata_list taken
    else exit_append filterdata_list
  else
    match operator_regex_match token with
    | Some foperator =>
        let field := trimmed (remove foperator (section foperator 0 0 token)) in
        let value := trimmed (remove foperator (section foperator 1 (-1) token)) in
        if isEmpty value then exit_continue filterdata_list 0
        else if list_contains_ci kNumericalSearchColumns field then
          if list_contains_ci kIntSearchColumns field then
            match Qt.toInt value with
            | Some value_int =>
                exit_continue
                  (insert field (mkFilterData field (QVariant_Int value_int) foperator)
                          filterdata_list) 0
            | None => exit_append filterdata_list
            end
          else if list_contains_ci kUIntSearchColumns field then
            match Qt.toUInt value with
            | Some value_uint =>
                exit_continue
                  (insert field (mkFilterData field (QVariant_UInt value_uint) foperator)
                          filterdata_list) 0
            | None => exit_append filterdata_list
            end
          else if equals_ci field "length" then
            exit_continue
              (insert field
                 (mkFilterData field
                    (QVariant_LongLong (ParseSearchTime ext value * kNsecPerSec)%Z)
                    foperator)
                 filterdata_list) 0
          else if equals_ci field "rating" then
            exit_append
              (insert field
                 (mkFilterData field (QVariant_Float (ParseSearchRating ext value)) foperator)
                 filterdata_list)
          else exit_append filterdata_list
        else exit_append filterdata_list
    | None => exit_append filterdata_list
    end.

(** Lines 153-154. *)
Definition append_token (filter token : QString) : QString :=
  (if negb (isEmpty filter) then filter ++ String " "%char EmptyString else filter) ++ token.

(** The loop of lines 84-155 over the tokens from index [i] on; [skip]
    counts the tokens an earlier pass has taken into a text value, which
    the index has already passed. *)
Fixpoint parse_tokens (tokens : list QString) (skip : nat)
    (filterdata_list : FilterDataList) (filter : QString) : FilterDataList * QString :=
  match tokens with
  | [] => (filterdata_list, filter)
  | token :: next_tokens =>
      match skip with
      | S skip' => parse_tokens next_tokens skip' filterdata_list filter
      | O =>
          match token_body token next_tokens filterdata_list with
          | exit_continue filterdata_list taken =>
              parse_tokens next_tokens taken filterdata_list filter
          | exit_append filterdata_list =>
              parse_tokens next_tokens 0 filterdata_list (append_token filter token)
          end
      end
  end.

(** Lines 65-155: the predicate set and the residual free text of a filter
    string. *)
Definition ParseFilter (filter : QString) : FilterDataList * QString :=
  let filter := normalize_operators filter in
  let tokens := split_ws filter in
  parse_tokens tokens 0 [] EmptyString.

(** [model->index(source_row, 0, source_parent)] and [IndexToItem], with the
    parent links: [path] leads from [item] down to the wanted node; the
    result is that node followed by its ancestors up to the root. *)
Fixpoint IndexToChain (item : CollectionItem) (up : list CollectionItem)
    (path : list nat) : option (list CollectionItem) :=
  match path with
  | [] => Some (item :: up)
  | row :: path' =>
      match nth_error (children item) row with
      | Some child => IndexToChain child (item :: up) path'
      | None => None
      end
  end.

(** [CollectionFilter::filterAcceptsRow].  [source_model] is the result of
    the [qobject_cast], [filter_pattern] the pattern of the proxy's filter
    expression; a [QModelIndex] is the list of rows leading to it from the
    root, the invalid index being the empty list. *)
Definition filterAcceptsRow (source_model : option CollectionModel)
    (filter_pattern : QString) (source_row : Z) (source_parent : list nat) : bool :=
  match source_model with
  | None => false
  | Some model =>
      if (source_row <? 0)%Z then false
      else
        match IndexToChain (root model) [] (source_parent ++ [Z.to_nat source_row])%list with
        | None | Some [] => false
        | Some (item :: parents) =>
            if ItemType_eqb (type item) Type_LoadingIndicator then true
            else
              let filter := remove_char backslash filter_pattern in
              if isEmpty filter then true
              else
                let '(filterdata_list, filter) := ParseFilter filter in
                if ItemMatchesFilter model item filterdata_list filter then true
                else if ParentsMatch model (item :: parents) filterdata_list filter then true
                else ChildrenMatches model item filterdata_list filter
        end
  end.

End Filter.

(* ================================================================= *)
(** ** Notions the statements use *)

(** [d] is a descendant of [item], at any depth. *)
Inductive Descendant : CollectionItem -> CollectionItem -> Prop :=
| Descendant_child : forall item child,
    In child (children item) -> Descendant child item
| Descendant_deeper : forall item child d,
    In child (children item) -> Descendant d child -> Descendant d item.

(** A predicate set as the parser builds them: no empty field name, no
    invalid value. *)
Definition FilterDataList_wf (filterdata_list : FilterDataList) : Prop :=
  Forall (fun kd => fst kd <> EmptyString /\ isValid (value (snd kd)) = true)
         filterdata_list.

(** [needle] occurs in [hay] as a contiguous substring, letter case apart. *)
Definition substring_ci (needle hay : QString) : Prop :=
  exists before after,
    toCaseFolded hay = before ++ toCaseFolded needle ++ after.

Section Rules.

Variable ext : Externals.

(** The record satisfies one predicate: the value stored for the field has
    the type of the predicate's value and compares as the operator asks. *)
Definition satisfies (metadata : Song) (kd : QString * FilterData) : Prop :=
  metaType (value (snd kd)) = metaType (DataFromField (fst kd) metadata)
  /\ FieldValueMatchesData ext (value (snd kd)) (DataFromField (fst kd) metadata)
       (foperator (snd kd)) = true.

(** The visibility rule of the spec: the node matches, or an ancestor
    strictly below the root does, or a descendant does. *)
Definition visible_by_rule (model : CollectionModel) (filterdata_list : FilterDataList)
    (filter : QString) (item : CollectionItem) (ancestors : list CollectionItem) : Prop :=
  ItemMatchesFilter ext model item filterdata_list filter = true
  \/ (exists a, In a ancestors
                /\ ItemMatchesFilter ext model a filterdata_list filter = true)
  \/ (exists d, Descendant d item
                /\ ItemMatchesFilter ext model d filterdata_list filter = true).

(** The free-text half of the matching rule. *)
Definition free_text_rule (filter : QString) (item : CollectionItem) : Prop :=
  filter = EmptyString \/ contains_ci filter (DisplayText item) = true.

(** The predicate half of the matching rule as the spec words it. *)
Definition predicate_rule_of_spec (model : CollectionModel) (item : CollectionItem)
    (filterdata_list : FilterDataList) : Prop :=
  filterdata_list = []
  \/ (type item = Type_Song
      /\ forall kd, In kd filterdata_list -> satisfies (metadata item) kd)
  \/ (type item = Type_Container
      /\ (0 <= container_level item <= 2)%Z
      /\ forall kd, In kd filterdata_list ->
           In (fst kd) (FieldsFromGroupBy
                          (Grouping_at (GetGroupBy model) (container_level item)))
           /\ satisfies (metadata item) kd).

(** The predicate half of the matching rule as the code has it: a Song
    node needs a valid record, and a grouping dimension with no field of
    its own restricts nothing. *)
Definition predicate_rule (model : CollectionModel) (item : CollectionItem)
    (filterdata_list : FilterDataList) : Prop :=
  filterdata_list = []
  \/ (type item = Type_Song
      /\ is_valid (metadata item) = true
      /\ forall kd, In kd filterdata_list -> satisfies (metadata item) kd)
  \/ (type item = Type_Container
      /\ (0 <= container_level item <= 2)%Z
      /\ forall kd, In kd filterdata_list ->
           (FieldsFromGroupBy (Grouping_at (GetGroupBy model) (container_level item)) = []
            \/ In (fst kd) (FieldsFromGroupBy
                              (Grouping_at (GetGroupBy model) (container_level item))))
           /\ satisfies (metadata item) kd).

End Rules.

(** A Song row of a tree that keeps the invariants of the data model: the
    index is valid, the root alone has type Root, the Song node carries a
    valid record and has no children, and each of its ancestors below the
    root is a Divider, or a Container whose grouping dimension supplies
    fields. *)
Definition song_row (model : CollectionModel) (source_row : Z) (source_parent : list nat)
    (item : CollectionItem) (ancestors : list CollectionItem) : Prop :=
  (0 <= source_row)%Z
  /\ IndexToChain (root model) [] (source_parent ++ [Z.to_nat source_row])%list
     = Some (item :: ancestors ++ [root model])%list
  /\ type (root model) = Type_Root
  /\ type item = Type_Song
  /\ is_valid (metadata item) = true
  /\ children item = []
  /\ forall a, In a ancestors ->
       type a = Type_Divider
       \/ (type a = Type_Container
           /\ FieldsFromGroupBy (Grouping_at (GetGroupBy model) (container_level a)) <> []).

(** No ancestor is grouped by a dimension that supplies [key]. *)
Definition ancestors_lack_field (model : CollectionModel) (key : QString)
    (ancestors : list CollectionItem) : Prop :=
  forall a, In a ancestors ->
    ~ In key (FieldsFromGroupBy (Grouping_at (GetGroupBy model) (container_level a))).

(** A token that the loop body handles in its comparison branch and splits
    at the operator into [field] and a non-empty [value]. *)
Definition comparison_token (token field foperator value : QString) : Prop :=
  contains_char ":"%char token = false
  /\ operator_regex_match token = Some foperator
  /\ field = trimmed (remove foperator (section foperator 0 0 token))
  /\ value = trimmed (remove foperator (section foperator 1 (-1) token))
  /\ value <> EmptyString.

(** A token that the loop body handles in its text branch: it splits at
    the first colon into [field], a known text field, and a non-empty
    [value]. *)
Definition text_token (token field value : QString) : Prop :=
  contains_char ":"%char token = true
  /\ field = trimmed (remove_char ":"%char (section ":" 0 0 token))
  /\ value = trimmed (remove_char ":"%char (section ":" 1 (-1) token))
  /\ field <> EmptyString
  /\ value <> EmptyString
  /\ list_contains_ci kTextSearchColumns field = true.

(** The tokens before the first one that holds an operator, and the tokens
    from that one on. *)
Fixpoint tokens_before_operator (tokens : list QString) : list QString :=
  match tokens with
  | [] => []
  | token :: tokens' =>
      if ContainsOperators token then [] else token :: tokens_before_operator tokens'
  end.

Fixpoint tokens_from_operator (tokens : list QString) : list QString :=
  match tokens with
  | [] => []
  | token :: tokens' =>
      if ContainsOperators token then tokens else tokens_from_operator tokens'
  end.

(** [value] followed by each token after a space. *)
Fixpoint space_joined (value : QString) (tokens : list QString) : QString :=
  match tokens with
  | [] => value
  | token :: tokens' => space_joined (value ++ String " "%char token) tokens'
  end.

(** The comparison operators a token may be written with. *)
Definition comparison_operators : list QString :=
  ["="; "=="; "<>"; "<"; "<="; ">"; ">="; "!="].

(** The operator the regular expression captures in a token written with
    [op]: the alternative [=] comes first, so [==] is captured as [=]. *)
Definition captured_operator (op : QString) : QString :=
  if String.eqb op "==" then "=" else op.

(** The characters the tokenizer gives a meaning to. *)
Definition operator_char (c : ascii) : bool :=
  existsb (Ascii.eqb c) [":"; "="; "<"; ">"; "!"]%char.

(** A plain text: no white space and no operator character. *)
Definition plain_char (c : ascii) : bool := negb (isSpace c) && negb (operator_char c).

Fixpoint plain (s : QString) : bool :=
  match s with
  | EmptyString => true
  | String c s' => plain_char c && plain s'
  end.

(** Lower-case ASCII letters only. *)
Definition is_lower (c : ascii) : bool :=
  ((97 <=? nat_of_ascii c) && (nat_of_ascii c <=? 122))%nat.

Fixpoint letters (s : QString) : bool :=
  match s with
  | EmptyString => true
  | String c s' => is_lower c && letters s'
  end.

(** Every character is white space for the tokenizer, or a backslash. *)
Fixpoint blank (s : QString) : bool :=
  match s with
  | EmptyString => true
  | String c s' => (regex_space c || Ascii.eqb c backslash) && blank s'
  end.

(** The node and the nodes above it, the last one apart, are no Root. *)
Definition below_root (chain : list CollectionItem) : Prop :=
  forall a, In a chain -> type a <> Type_Root.

(** The text without the characters that are white space for the
    tokenizer. *)
Fixpoint without_spaces (s : QString) : QString :=
  match s with
  | EmptyString => EmptyString
  | String c s' => if regex_space c then without_spaces s' else String c (without_spaces s')
  end.

(** [kept] is made of elements of [l], in the order of [l]. *)
Inductive subsequence {A : Type} : list A -> list A -> Prop :=
| subsequence_nil : subsequence [] []
| subsequence_skip : forall x kept l, subsequence kept l -> subsequence kept (x :: l)
| subsequence_take : forall x kept l, subsequence kept l -> subsequence (x :: kept) (x :: l).

(** The operators the regular expression of the comparison branch can
    capture. *)
Definition captured_operators : list QString :=
  ["="; "<>"; "<="; "<"; ">="; ">"; "!="].

(** The shape of an entry the loop body stores: the key is the [field]
    member; a text value is not empty, carries no operator and belongs to
    a text column; a numerical value carries a captured operator and
    belongs to a column of its type. *)
Definition parsed_predicate (kd : QString * FilterData) : Prop :=
  field (snd kd) = fst kd
  /\ match value (snd kd) with
     | QVariant_QString text =>
         text <> EmptyString /\ foperator (snd kd) = EmptyString
         /\ list_contains_ci kTextSearchColumns (fst kd) = true
     | QVariant_Int _ =>
         In (foperator (snd kd)) captured_operators
         /\ list_contains_ci kIntSearchColumns (fst kd) = true
     | QVariant_UInt _ =>
         In (foperator (snd kd)) captured_operators
         /\ list_contains_ci kUIntSearchColumns (fst kd) = true
     | QVariant_LongLong _ =>
         In (foperator (snd kd)) captured_operators /\ equals_ci (fst kd) "length" = true
     | QVariant_Float _ =>
         In (foperator (snd kd)) captured_operators /\ equals_ci (fst kd) "rating" = true
     | QVariant_Invalid => False
     end.

(** The text starts with the character [d]; with white space. *)
Definition starts_with (d : ascii) (s : QString) : bool :=
  match s with
  | EmptyString => false
  | String y _ => Ascii.eqb y d
  end.

Definition starts_with_space (s : QString) : bool :=
  match s with
  | EmptyString => false
  | String y _ => regex_space y
  end.

(** No white space stands right before or right after an occurrence of
    [d] in the text. *)
Fixpoint no_space_beside (d : ascii) (s : QString) : bool :=
  match s with
  | EmptyString => true
  | String x s' =>
      negb (Ascii.eqb x d && starts_with_space s')
      && negb (regex_space x && starts_with d s')
      && no_space_beside d s'
  end.

(** [t] is [s] with some of its white space deleted. *)
Inductive despaced : QString -> QString -> Prop :=
| despaced_nil : despaced EmptyString EmptyString
| despaced_keep : forall c s t, despaced s t -> despaced (String c s) (String c t)
| despaced_drop : forall c s t,
    regex_space c = true -> despaced s t -> despaced (String c s) t.

(* ================================================================= *)
(** ** Sample data *)

(** Modelled from the spec: [Utilities::ParseSearchTime]
    (utilities/searchparserutils) is not part of the sources at hand; it
    converts a human time expression such as [3:30] to seconds: the groups
    between colons are decimal numbers, each worth sixty of the next, and
    anything else gives 0. *)
Definition ParseSearchTime_of_spec (time_str : QString) : Z :=
  match fold_left
          (fun acc part =>
             match acc, parse_unsigned part with
             | Some seconds, Some n => Some (seconds * 60 + n)%Z
             | _, _ => None
             end)
          (split ":" time_str) (Some 0%Z) with
  | Some seconds => seconds
  | None => 0%Z
  end.

(** An instance of the absent code, to run the filter on concrete inputs.
    Only the time parser is meaningful; no statement here depends on what
    the rating parser or the cross-type conversions return. *)
Definition sample_externals : Externals :=
  mkExternals ParseSearchTime_of_spec
              (fun _ => S754_zero false)
              (fun _ => EmptyString)
              (fun _ => 0%Z) (fun _ => 0%Z) (fun _ => 0%Z)
              (fun _ => S754_zero false).

(** A default-constructed, invalid record. *)
Definition Song_default : Song :=
  mkSong false "" "" "" "" "" "" "" "" "" (-1) (-1) (-1) (-1) (-1) (-1)
         (S754_zero false) 0 0.

Definition sample_song (song_title : QString) (song_year length_sec : Z) : Song :=
  mkSong true "The Beatles" "The Beatles" "Abbey Road" song_title "" "" "" "Rock" ""
         1 song_year (length_sec * kNsecPerSec) 44100 16 320 (S754_zero false) 0 0.

Definition song_item (song : Song) : CollectionItem :=
  mkItem Type_Song (-1) (title song) song [].

Definition artist_item (songs : list CollectionItem) : CollectionItem :=
  mkItem Type_Container 0 "The Beatles" (sample_song "" 1969 0) songs.

Definition root_item (nodes : list CollectionItem) : CollectionItem :=
  mkItem Type_Root (-1) "" Song_default nodes.

Definition loading_item : CollectionItem :=
  mkItem Type_LoadingIndicator (-1) "Loading..." Song_default [].

(** Songs grouped by artist. *)
Definition sample_model (nodes : list CollectionItem) : CollectionModel :=
  mkModel (root_item nodes) (mkGrouping GroupBy_Artist GroupBy_None GroupBy_None).

(** [some] followed by [song] between quotation marks. *)
Definition quoted_some_song : QString :=
  String dquote ("some song" ++ String dquote EmptyString).

(** A Song node whose record is not valid, from 1975. *)
Definition invalid_song_item : CollectionItem :=
  mkItem Type_Song (-1) "Untitled"
         (mkSong false "" "" "" "" "" "" "" "" "" (-1) 1975 (-1) (-1) (-1) (-1)
                 (S754_zero false) 0 0) [].

(** The year 1970 as an unsigned predicate value. *)
Definition year_as_uint : FilterDataList :=
  [("year", mkFilterData "year" (QVariant_UInt 1970) "=")].

(** One artist with one song. *)
Definition beatles_model (song : Song) : CollectionModel :=
  sample_model [artist_item [song_item song]].

Definition c1_model : CollectionModel :=
  beatles_model (sample_song "Come Together" 1969 259).

(** A text value with three quotation marks, none of them first; the
    token with that value; and a filter with a plain token after it. *)
Definition many_quotes_value : QString :=
  "a" ++ String dquote ("b" ++ String dquote ("c" ++ String dquote "d")).

Definition many_quotes_token : QString := "title:" ++ many_quotes_value.

Definition many_quotes_filter : QString := many_quotes_token ++ " xyz".

(* ================================================================= *)
(** ** The tree *)

(** Induction over a node with the property known of its children. *)
Lemma CollectionItem_children_ind (P : CollectionItem -> Prop) :
  (forall t l d m cs, Forall P cs -> P (mkItem t l d m cs)) ->
  forall item, P item.
Proof.
  intros step.
  fix IH 1.
  intros [t l d m cs].
  apply step.
  induction cs as [|c cs IHcs]; constructor.
  - apply IH.
  - exact IHcs.
Qed.

Section Tree.

Variable ext : Externals.
Variable model : CollectionModel.
Variable filterdata_list : FilterDataList.
Variable filter : QString.

Lemma ChildrenMatches_children item :
  ChildrenMatches ext model item filterdata_list filter
  = existsb (fun child => ItemMatchesFilter ext model child filterdata_list filter
                          || ChildrenMatches ext model child filterdata_list filter)
            (children item).
Proof.
  destruct item as [t l d m cs]; simpl.
  induction cs as [|c cs IHcs]; simpl; [reflexivity|].
  destruct (ItemMatchesFilter ext model c filterdata_list filter); simpl; [reflexivity|].
  destruct (ChildrenMatches ext model c filterdata_list filter); simpl; [reflexivity|].
  exact IHcs.
Qed.

(** [ChildrenMatches] finds a match exactly when some descendant matches. *)
Lemma ChildrenMatches_Descendant item :
  ChildrenMatches ext model item filterdata_list filter = true
  <-> exists d, Descendant d item
                /\ ItemMatchesFilter ext model d filterdata_list filter = true.
Proof.
  induction item as [t l d m cs IHcs] using CollectionItem_children_ind.
  rewrite ChildrenMatches_children; simpl.
  rewrite existsb_exists.
  split.
  - intros [c [Hin Hc]].
    apply orb_true_iff in Hc as [Hc|Hc].
    + exists c; split; [now apply Descendant_child|exact Hc].
    + rewrite Forall_forall in IHcs.
      apply (IHcs c Hin) in Hc as [e [He Hm]].
      exists e; split; [|exact Hm].
      now apply Descendant_deeper with (child := c).
  - intros [e [He Hm]].
    inversion He as [i c Hin|i c e' Hin Hdeep]; subst; simpl in Hin.
    + exists e; split; [exact Hin|]. now rewrite Hm.
    + exists c; split; [exact Hin|].
      rewrite Forall_forall in IHcs.
      apply orb_true_iff; right.
      apply (IHcs c Hin). now exists e.
Qed.

(** The loop over the parents stops at the root: it finds a match exactly
    when a node of the chain below the root matches. *)
Lemma ParentsMatch_below_root below top :
  type top = Type_Root ->
  (forall a, In a below -> type a <> Type_Root) ->
  ParentsMatch ext model (below ++ [top])%list filterdata_list filter
  = existsb (fun a => ItemMatchesFilter ext model a filterdata_list filter) below.
Proof.
  intros Htop.
  induction below as [|a below IH]; intros Hbelow; simpl.
  - now rewrite Htop.
  - assert (Ha : ItemType_eqb (type a) Type_Root = false).
    { specialize (Hbelow a (or_introl eq_refl)).
      destruct (type a); try reflexivity. now elim Hbelow. }
    rewrite Ha.
    destruct (ItemMatchesFilter ext model a filterdata_list filter); simpl; [reflexivity|].
    apply IH. intros b Hb. apply Hbelow. now right.
Qed.

End Tree.

(* ================================================================= *)
(** ** Row visibility *)

Section Visibility.

Variable ext : Externals.

Lemma ItemMatchesFilter_nothing_asked model item :
  ItemMatchesFilter ext model item [] EmptyString = true.
Proof. reflexivity. Qed.

(** [filterAcceptsRow] on a valid source index, as a disjunction. *)
Lemma filterAcceptsRow_cases
    (model : CollectionModel) (filter_pattern : QString)
    (source_row : Z) (source_parent : list nat)
    (item : CollectionItem) (ancestors : list CollectionItem) :
  (0 <= source_row)%Z ->
  IndexToChain (root model) [] (source_parent ++ [Z.to_nat source_row])%list
  = Some (item :: ancestors ++ [root model])%list ->
  type (root model) = Type_Root ->
  (forall a, In a (item :: ancestors) -> type a <> Type_Root) ->
  (filterAcceptsRow ext (Some model) filter_pattern source_row source_parent = true
   <-> type item = Type_LoadingIndicator
       \/ visible_by_rule ext model
            (fst (ParseFilter ext (remove_char backslash filter_pattern)))
            (snd (ParseFilter ext (remove_char backslash filter_pattern)))
            item ancestors).
Proof.
  intros Hrow Hchain Hroot Hbelow.
  assert (Hneg : (source_row <? 0)%Z = false) by (apply Z.ltb_ge; exact Hrow).
  unfold filterAcceptsRow.
  rewrite Hneg, Hchain.
  destruct (ItemType_eqb (type item) Type_LoadingIndicator) eqn:Hload.
  - split; [intros _; left|reflexivity].
    destruct (type item); try discriminate; reflexivity.
  - assert (Hnot : type item <> Type_LoadingIndicator).
    { intros E. rewrite E in Hload. discriminate. }
    set (filter0 := remove_char backslash filter_pattern).
    destruct (isEmpty filter0) eqn:Hempty.
    + destruct filter0; [|discriminate].
      split; [intros _|reflexivity].
      right. left. reflexivity.
    + destruct (ParseFilter ext filter0) as [fdl filter] eqn:Hparse.
      cbv beta iota.
      change (item :: ancestors ++ [root model])%list
        with ((item :: ancestors) ++ [root model])%list.
      rewrite (ParentsMatch_below_root ext model fdl filter _ _ Hroot Hbelow).
      unfold visible_by_rule, fst, snd.
      cbn [existsb].
      destruct (ItemMatchesFilter ext model item fdl filter) eqn:Hitem; simpl.
      * split; [intros _; right; left; reflexivity|reflexivity].
      * destruct (existsb (fun i => ItemMatchesFilter ext model i fdl filter) ancestors)
          eqn:Hanc.
        -- split; [intros _|reflexivity].
           apply existsb_exists in Hanc as [a [Ha Hm]].
           right; right; left. now exists a.
        -- rewrite ChildrenMatches_Descendant.
           split.
           ++ intros H. right; right; right. exact H.
           ++ intros [H|[H|[[a [Ha Hm]]|H]]].
              ** now elim Hnot.
              ** discriminate.
              ** assert (existsb (fun i => ItemMatchesFilter ext model i fdl filter)
                                 ancestors = true)
                   by (apply existsb_exists; now exists a).
                 congruence.
              ** exact H.
Qed.

Lemma IndexToChain_nonempty path : forall item up,
  IndexToChain item up path <> Some [].
Proof.
  induction path as [|r path IH]; intros i up; simpl.
  - discriminate.
  - destruct (nth_error (children i) r); [apply IH|discriminate].
Qed.

(** The chain of a valid index starts at the node and ends at the root. *)
Lemma IndexToChain_shape path : forall item up chain,
  IndexToChain item up path = Some chain ->
  exists below, chain = (below ++ item :: up)%list
                /\ List.length below = List.length path.
Proof.
  induction path as [|r path IH]; intros i up chain; simpl.
  - intros H. injection H as <-. now exists [].
  - destruct (nth_error (children i) r) as [c|]; [|discriminate].
    intros H. destruct (IH c (i :: up) chain H) as [below [-> Hlen]].
    exists (below ++ [c])%list. split.
    + now rewrite <- app_assoc.
    + rewrite length_app. simpl. lia.
Qed.

Lemma filterAcceptsRow_empty_filter model source_row source_parent :
  (0 <= source_row)%Z ->
  IndexToChain (root model) [] (source_parent ++ [Z.to_nat source_row])%list <> None ->
  filterAcceptsRow ext (Some model) EmptyString source_row source_parent = true.
Proof.
  intros Hrow Hchain.
  assert (Hneg : (source_row <? 0)%Z = false) by (apply Z.ltb_ge; exact Hrow).
  unfold filterAcceptsRow. rewrite Hneg.
  destruct (IndexToChain (root model) [] (source_parent ++ [Z.to_nat source_row])%list)
    as [[|item parents]|] eqn:E.
  - now apply IndexToChain_nonempty in E.
  - simpl. now destruct (ItemType_eqb (type item) Type_LoadingIndicator).
  - now elim Hchain.
Qed.

(** C1 (amended).  For a valid source index, [filterAcceptsRow] accepts the
    row exactly when the node is a LoadingIndicator, or the node matches
    the parsed filter, or an ancestor strictly below the Root matches, or
    a descendant at any depth matches; an empty filter string accepts
    every row. *)
Theorem filterAcceptsRow_visibility
    (model : CollectionModel) (filter_pattern : QString)
    (source_row : Z) (source_parent : list nat)
    (item : CollectionItem) (ancestors : list CollectionItem) :
  (0 <= source_row)%Z ->
  IndexToChain (root model) [] (source_parent ++ [Z.to_nat source_row])%list
  = Some (item :: ancestors ++ [root model])%list ->
  type (root model) = Type_Root ->
  (forall a, In a (item :: ancestors) -> type a <> Type_Root) ->
  (filterAcceptsRow ext (Some model) filter_pattern source_row source_parent = true
   <-> type item = Type_LoadingIndicator
       \/ visible_by_rule ext model
            (fst (ParseFilter ext (remove_char backslash filter_pattern)))
            (snd (ParseFilter ext (remove_char backslash filter_pattern)))
            item ancestors)
  /\ filterAcceptsRow ext (Some model) EmptyString source_row source_parent = true.
Proof.
  intros Hrow Hchain Hroot Hbelow.
  split.
  - now apply filterAcceptsRow_cases.
  - apply filterAcceptsRow_empty_filter; [exact Hrow|].
    rewrite Hchain. discriminate.
Qed.

End Visibility.

Lemma filterAcceptsRow_visibility_witness :
  (filterAcceptsRow sample_externals (Some c1_model) "beatles" 0 [0] = true
   <-> type (song_item (sample_song "Come Together" 1969 259)) = Type_LoadingIndicator
       \/ visible_by_rule sample_externals c1_model
            (fst (ParseFilter sample_externals (remove_char backslash "beatles")))
            (snd (ParseFilter sample_externals (remove_char backslash "beatles")))
            (song_item (sample_song "Come Together" 1969 259))
            [artist_item [song_item (sample_song "Come Together" 1969 259)]])
  /\ filterAcceptsRow sample_externals (Some c1_model) EmptyString 0 [0] = true.
Proof.
  apply (filterAcceptsRow_visibility sample_externals c1_model "beatles" 0 [0]
           (song_item (sample_song "Come Together" 1969 259))
           [artist_item [song_item (sample_song "Come Together" 1969 259)]]).
  - lia.
  - reflexivity.
  - reflexivity.
  - intros a [<-|[<-|[]]]; discriminate.
Defined.

(** C1 as stated fails on a LoadingIndicator row: it is accepted although
    neither the node nor an ancestor below the root nor a descendant
    matches the filter. *)
Lemma filterAcceptsRow_LoadingIndicator_counterexample :
  filterAcceptsRow sample_externals (Some (sample_model [loading_item])) "xyz" 0 [] = true
  /\ ~ visible_by_rule sample_externals (sample_model [loading_item])
         (fst (ParseFilter sample_externals "xyz"))
         (snd (ParseFilter sample_externals "xyz"))
         loading_item [].
Proof.
  split; [reflexivity|].
  intros [H|[[a [[] _]]|[d [Hd _]]]].
  - vm_compute in H. discriminate.
  - inversion Hd as [i c Hin|i c e Hin _]; subst; exact Hin.
Qed.

(* ================================================================= *)
(** ** Matching one node *)

Lemma list_contains_In (l : list QString) (s : QString) :
  list_contains l s = true <-> In s l.
Proof.
  unfold list_contains. rewrite existsb_exists. split.
  - intros [e [Hin He]]. apply String.eqb_eq in He. now subst.
  - intros Hin. exists s. split; [exact Hin|apply String.eqb_refl].
Qed.

Lemma QMetaType_eqb_eq (a b : QMetaType) : QMetaType_eqb a b = true <-> a = b.
Proof. destruct a, b; simpl; split; intros H; try reflexivity; discriminate. Qed.

Lemma isEmpty_true (s : QString) : isEmpty s = true <-> s = EmptyString.
Proof. destruct s; simpl; split; intros H; try reflexivity; discriminate. Qed.

Lemma isEmpty_false (s : QString) : isEmpty s = false <-> s <> EmptyString.
Proof.
  destruct s; simpl; split; intros H; try reflexivity; try discriminate.
  now elim H.
Qed.

Section Matching.

Variable ext : Externals.

(** On a predicate set of the parser, the loop of [ItemMetadataMatches]
    returns true exactly when every predicate passes the field gate, the
    type gate and the comparison. *)
Lemma ItemMetadataMatches_all metadata filterdata_list fields :
  FilterDataList_wf filterdata_list ->
  (ItemMetadataMatches ext metadata filterdata_list fields = true
   <-> forall kd, In kd filterdata_list ->
         (fields = [] \/ In (fst kd) fields) /\ satisfies ext metadata kd).
Proof.
  induction filterdata_list as [|[k fd] it IH]; intros Hwf.
  - simpl. split; [intros _ kd []|reflexivity].
  - inversion Hwf as [|x xs [Hk Hv] Hit]; subst; simpl in Hk, Hv.
    specialize (IH Hit).
    cbn [ItemMetadataMatches].
    apply isEmpty_false in Hk. rewrite Hk, Hv. cbn [orb negb].
    assert (Hgate :
      (negb match fields with [] => true | _ :: _ => false end
       && negb (list_contains fields k)) = false
      <-> (fields = [] \/ In k fields)).
    { destruct fields as [|f fs]; cbn [negb andb].
      - split; [now left|reflexivity].
      - rewrite negb_false_iff, list_contains_In.
        split; [now right|intros [H|H]; [discriminate|exact H]]. }
    destruct (negb match fields with [] => true | _ :: _ => false end
              && negb (list_contains fields k)) eqn:Hg.
    + split; [discriminate|].
      intros H. destruct (H (k, fd) (or_introl eq_refl)) as [Hf _].
      apply Hgate in Hf. discriminate.
    + assert (Hf : fields = [] \/ In k fields) by (now apply Hgate).
      destruct (QMetaType_eqb (metaType (value fd)) (metaType (DataFromField k metadata)))
        eqn:Hty; cbn [negb orb].
      * apply QMetaType_eqb_eq in Hty.
        destruct (FieldValueMatchesData ext (value fd) (DataFromField k metadata)
                                        (foperator fd)) eqn:Hcmp; cbn [negb].
        -- rewrite IH. split.
           ++ intros H kd [<-|Hin]; [|now apply H].
              split; [exact Hf|]. split; [exact Hty|exact Hcmp].
           ++ intros H kd Hin. apply H. now right.
        -- split; [discriminate|].
           intros H. destruct (H (k, fd) (or_introl eq_refl)) as [_ [_ Hs]].
           simpl in Hs. congruence.
      * split; [discriminate|].
        intros H. destruct (H (k, fd) (or_introl eq_refl)) as [_ [Hs _]].
        simpl in Hs. apply QMetaType_eqb_eq in Hs. congruence.
Qed.

Lemma ItemType_eqb_eq (a b : ItemType) : ItemType_eqb a b = true <-> a = b.
Proof. destruct a, b; simpl; split; intros H; try reflexivity; discriminate. Qed.

(** [ItemMatchesFilter] as a proposition. *)
Lemma ItemMatchesFilter_iff model item filterdata_list filter :
  FilterDataList_wf filterdata_list ->
  (ItemMatchesFilter ext model item filterdata_list filter = true
   <-> free_text_rule filter item /\ predicate_rule ext model item filterdata_list).
Proof.
  intros Hwf.
  unfold ItemMatchesFilter, free_text_rule, predicate_rule.
  rewrite andb_true_iff, !orb_true_iff, !andb_true_iff.
  rewrite !ItemType_eqb_eq, isEmpty_true, Z.leb_le, Z.leb_le.
  rewrite !(ItemMetadataMatches_all _ _ _ Hwf).
  assert (Hnil : match filterdata_list with [] => true | _ :: _ => false end = true
                 <-> filterdata_list = []).
  { destruct filterdata_list; split; intros H; try reflexivity; discriminate. }
  rewrite Hnil.
  split.
  - intros [Hfree [[Hp|[[Hsong Hvalid] Hall]]|[[[Hcont Hlo] Hhi] Hall]]];
      (split; [exact Hfree|]).
    + now left.
    + right; left. split; [exact Hsong|]. split; [exact Hvalid|].
      intros kd Hin. now apply (Hall kd).
    + right; right. split; [exact Hcont|]. split; [split; assumption|].
      intros kd Hin. now apply (Hall kd).
  - intros [Hfree [Hp|[[Hsong [Hvalid Hall]]|[Hcont [[Hlo Hhi] Hall]]]]];
      (split; [exact Hfree|]).
    + left; now left.
    + left; right. split; [split; assumption|].
      intros kd Hin. split; [now left|now apply Hall].
    + right. split; [split; [split|]; assumption|].
      intros kd Hin. now apply Hall.
Qed.

(** C2 (amended).  On a predicate set of the parser, a node matches exactly
    when (the free text is empty or the display text contains it, letter
    case apart) and (the predicate set is empty, or the node is a Song node
    with a valid record that satisfies every predicate, or the node is a
    Container node at level 0-2 whose record satisfies every predicate,
    each predicate's field lying in the field set of the level's grouping
    dimension when that set is not empty); a node that is neither Song nor
    Container matches no non-empty predicate set. *)
Theorem ItemMatchesFilter_rule model item filterdata_list filter :
  FilterDataList_wf filterdata_list ->
  (ItemMatchesFilter ext model item filterdata_list filter = true
   <-> free_text_rule filter item /\ predicate_rule ext model item filterdata_list).
Proof. exact (ItemMatchesFilter_iff model item filterdata_list filter). Qed.

(** On a Song node with a valid record and on a Container node whose
    grouping dimension supplies fields, the rule of the code is the rule as
    the spec words it. *)
Lemma predicate_rule_of_spec_agrees model item filterdata_list :
  (type item = Type_Song -> is_valid (metadata item) = true) ->
  (type item = Type_Container ->
   FieldsFromGroupBy (Grouping_at (GetGroupBy model) (container_level item)) <> []) ->
  (predicate_rule ext model item filterdata_list
   <-> predicate_rule_of_spec ext model item filterdata_list).
Proof.
  intros Hsong Hcont. unfold predicate_rule, predicate_rule_of_spec. split.
  - intros [H|[[Hty [_ Hall]]|[Hty [Hlevel Hall]]]].
    + now left.
    + right; left. now split.
    + right; right. split; [exact Hty|]. split; [exact Hlevel|].
      intros kd Hin. destruct (Hall kd Hin) as [[Hnil|Hfield] Hs].
      * now elim (Hcont Hty).
      * now split.
  - intros [H|[[Hty Hall]|[Hty [Hlevel Hall]]]].
    + now left.
    + right; left. split; [exact Hty|]. split; [now apply Hsong|exact Hall].
    + right; right. split; [exact Hty|]. split; [exact Hlevel|].
      intros kd Hin. destruct (Hall kd Hin) as [Hfield Hs].
      split; [now right|exact Hs].
Qed.

(** A predicate on a field that the container's grouping dimension does
    not supply is refused. *)
Lemma ItemMetadataMatches_field_gate metadata filterdata_list fields key filter_data :
  FilterDataList_wf filterdata_list ->
  In (key, filter_data) filterdata_list ->
  fields <> [] -> ~ In key fields ->
  ItemMetadataMatches ext metadata filterdata_list fields = false.
Proof.
  intros Hwf Hin Hne Hnot.
  destruct (ItemMetadataMatches ext metadata filterdata_list fields) eqn:E;
    [|reflexivity].
  pose proof (proj1 (ItemMetadataMatches_all metadata filterdata_list fields Hwf) E) as H.
  destruct (H _ Hin) as [[Hf|Hf] _]; [now elim Hne|now elim Hnot].
Qed.

(** C3.  On a predicate set of the parser, a predicate whose value has
    another runtime type than the value the record stores for its field is
    refused, whatever the operator and the values: [ItemMetadataMatches]
    returns false as soon as the set holds such a predicate. *)
Theorem ItemMetadataMatches_type_gate metadata filterdata_list fields key filter_data :
  FilterDataList_wf filterdata_list ->
  In (key, filter_data) filterdata_list ->
  metaType (value filter_data) <> metaType (DataFromField key metadata) ->
  ItemMetadataMatches ext metadata filterdata_list fields = false.
Proof.
  intros Hwf Hin Hty.
  destruct (ItemMetadataMatches ext metadata filterdata_list fields) eqn:E;
    [|reflexivity].
  pose proof (proj1 (ItemMetadataMatches_all metadata filterdata_list fields Hwf) E) as H.
  destruct (H _ Hin) as [_ [Hs _]].
  now elim Hty.
Qed.

End Matching.

(* ================================================================= *)
(** ** What the parser builds *)

Lemma insert_wf key data filterdata_list :
  key <> EmptyString -> isValid (value data) = true ->
  FilterDataList_wf filterdata_list ->
  FilterDataList_wf (insert key data filterdata_list).
Proof.
  intros Hk Hv Hwf.
  induction filterdata_list as [|[k d] m IH]; simpl.
  - repeat constructor; assumption.
  - inversion Hwf as [|x xs Hx Hm]; subst.
    destruct (String.eqb key k).
    + constructor; [split; assumption|exact Hm].
    + destruct (String.ltb key k).
      * constructor; [split; assumption|exact Hwf].
      * constructor; [exact Hx|now apply IH].
Qed.

Lemma list_contains_ci_nonempty columns field :
  list_contains_ci columns EmptyString = false ->
  list_contains_ci columns field = true -> field <> EmptyString.
Proof. intros Hno Hyes E. subst. congruence. Qed.

Section Parser.

Variable ext : Externals.

Lemma token_body_wf token next_tokens filterdata_list :
  FilterDataList_wf filterdata_list ->
  FilterDataList_wf (exit_filterdata_list (token_body ext token next_tokens filterdata_list)).
Proof.
  intros Hwf. unfold token_body.
  destruct (contains_char ":" token).
  - set (field := trimmed (remove_char ":" (section ":" 0 0 token))).
    set (value := trimmed (remove_char ":" (section ":" 1 (-1) token))).
    destruct (isEmpty field || isEmpty value) eqn:Hempty; [exact Hwf|].
    destruct (list_contains_ci kTextSearchColumns field
              && (count_char dquote value <=? 2)%nat); [|exact Hwf].
    destruct (opening_quotation_mark value) as [[v qs] qe].
    destruct (accumulate_value next_tokens qs qe v) as [v' taken].
    destruct (negb (isEmpty field) && negb (isEmpty v')) eqn:Hne; [|exact Hwf].
    simpl. apply insert_wf; [|reflexivity|exact Hwf].
    apply andb_true_iff in Hne as [Hf _].
    apply negb_true_iff in Hf. now apply isEmpty_false.
  - destruct (operator_regex_match token) as [op|]; [|exact Hwf].
    set (field := trimmed (remove op (section op 0 0 token))).
    set (value := trimmed (remove op (section op 1 (-1) token))).
    destruct (isEmpty value); [exact Hwf|].
    destruct (list_contains_ci kNumericalSearchColumns field) eqn:Hnum; [|exact Hwf].
    assert (Hfield : field <> EmptyString)
      by (apply (list_contains_ci_nonempty kNumericalSearchColumns); [reflexivity|exact Hnum]).
    destruct (list_contains_ci kIntSearchColumns field).
    { destruct (Qt.toInt value); [|exact Hwf].
      simpl. apply insert_wf; [exact Hfield|reflexivity|exact Hwf]. }
    destruct (list_contains_ci kUIntSearchColumns field).
    { destruct (Qt.toUInt value); [|exact Hwf].
      simpl. apply insert_wf; [exact Hfield|reflexivity|exact Hwf]. }
    destruct (equals_ci field "length").
    { simpl. apply insert_wf; [exact Hfield|reflexivity|exact Hwf]. }
    destruct (equals_ci field "rating"); [|exact Hwf].
    simpl. apply insert_wf; [exact Hfield|reflexivity|exact Hwf].
Qed.

Lemma parse_tokens_wf tokens : forall skip filterdata_list filter,
  FilterDataList_wf filterdata_list ->
  FilterDataList_wf (fst (parse_tokens ext tokens skip filterdata_list filter)).
Proof.
  induction tokens as [|token next IH]; intros skip fdl filter Hwf; simpl.
  - exact Hwf.
  - destruct skip as [|skip']; [|now apply IH].
    pose proof (token_body_wf token next fdl Hwf) as Hbody.
    destruct (token_body ext token next fdl); simpl in Hbody; now apply IH.
Qed.

(** The predicate set of a filter string holds no empty field name and no
    invalid value. *)
Lemma ParseFilter_wf filter : FilterDataList_wf (fst (ParseFilter ext filter)).
Proof. unfold ParseFilter. apply parse_tokens_wf. constructor. Qed.

End Parser.

(* ================================================================= *)
(** ** Instances for C2 and C3 *)

Lemma ItemMatchesFilter_rule_witness :
  ItemMatchesFilter sample_externals c1_model
    (artist_item [song_item (sample_song "Come Together" 1969 259)])
    (fst (ParseFilter sample_externals "artist:beatles"))
    (snd (ParseFilter sample_externals "artist:beatles")) = true
  <-> free_text_rule (snd (ParseFilter sample_externals "artist:beatles"))
        (artist_item [song_item (sample_song "Come Together" 1969 259)])
      /\ predicate_rule sample_externals c1_model
           (artist_item [song_item (sample_song "Come Together" 1969 259)])
           (fst (ParseFilter sample_externals "artist:beatles")).
Proof.
  apply (ItemMatchesFilter_rule sample_externals c1_model
           (artist_item [song_item (sample_song "Come Together" 1969 259)])
           (fst (ParseFilter sample_externals "artist:beatles"))
           (snd (ParseFilter sample_externals "artist:beatles"))).
  apply ParseFilter_wf.
Defined.

(** C2 as stated fails on a Song node whose record is not valid: the
    record satisfies the only predicate of [year<1980], yet the node does
    not match. *)
Lemma ItemMatchesFilter_invalid_song_counterexample :
  ItemMatchesFilter sample_externals (sample_model [invalid_song_item]) invalid_song_item
    (fst (ParseFilter sample_externals "year<1980"))
    (snd (ParseFilter sample_externals "year<1980")) = false
  /\ free_text_rule (snd (ParseFilter sample_externals "year<1980")) invalid_song_item
  /\ predicate_rule_of_spec sample_externals (sample_model [invalid_song_item])
       invalid_song_item (fst (ParseFilter sample_externals "year<1980")).
Proof.
  split; [reflexivity|].
  split; [left; reflexivity|].
  right; left. split; [reflexivity|].
  intros kd Hin. vm_compute in Hin. destruct Hin as [<-|[]].
  split; reflexivity.
Qed.

Lemma ItemMetadataMatches_type_gate_witness :
  ItemMetadataMatches sample_externals (sample_song "Let It Be" 1970 243) year_as_uint []
  = false.
Proof.
  apply (ItemMetadataMatches_type_gate sample_externals (sample_song "Let It Be" 1970 243)
           year_as_uint [] "year" (mkFilterData "year" (QVariant_UInt 1970) "=")).
  - repeat constructor. discriminate.
  - left; reflexivity.
  - vm_compute. discriminate.
Defined.

(* ================================================================= *)
(** ** Substrings *)

Lemma append_assoc (a b c : QString) : (a ++ b) ++ c = a ++ b ++ c.
Proof. induction a as [|x a IH]; simpl; [reflexivity|now rewrite IH]. Qed.

Lemma append_empty_r (a : QString) : a ++ EmptyString = a.
Proof. induction a as [|x a IH]; simpl; [reflexivity|now rewrite IH]. Qed.

Lemma prefix_append (needle hay : QString) :
  prefix needle hay = true <-> exists after, hay = needle ++ after.
Proof.
  revert hay. induction needle as [|a needle IH]; intros hay.
  - destruct hay; simpl; split; intros; try reflexivity; eauto.
  - destruct hay as [|b hay]; simpl.
    + split; [discriminate|]. intros [after H]; discriminate.
    + destruct (ascii_dec a b) as [->|Hne].
      * rewrite IH. split; intros [after H]; exists after.
        -- now rewrite H.
        -- now injection H.
      * split; [discriminate|].
        intros [after H]. injection H as Hb _. now elim Hne.
Qed.

Lemma contains_append (needle hay : QString) :
  contains needle hay = true <-> exists before after, hay = before ++ needle ++ after.
Proof.
  induction hay as [|c hay IH].
  - cbn [contains]. rewrite orb_false_r, prefix_append. split.
    + intros [after H]. now exists EmptyString, after.
    + intros [before [after H]].
      destruct before; simpl in H; [now exists after|discriminate].
  - cbn [contains]. rewrite orb_true_iff, prefix_append, IH. split.
    + intros [[after H]|[before [after H]]].
      * now exists EmptyString, after.
      * exists (String c before), after. simpl. now rewrite H.
    + intros [before [after H]].
      destruct before as [|b before]; simpl in H.
      * left. now exists after.
      * right. injection H as _ H. now exists before, after.
Qed.

Lemma toCaseFolded_append (a b : QString) :
  toCaseFolded (a ++ b) = toCaseFolded a ++ toCaseFolded b.
Proof. induction a as [|x a IH]; simpl; [reflexivity|now rewrite IH]. Qed.

(** [contains(needle, Qt::CaseInsensitive)] is substring containment, letter
    case apart. *)
Lemma contains_ci_substring_ci (needle hay : QString) :
  contains_ci needle hay = true <-> substring_ci needle hay.
Proof. unfold contains_ci, substring_ci. apply contains_append. Qed.

(** A text that holds [needle] carries it into every text that holds it. *)
Lemma contains_ci_part (before needle after hay : QString) :
  contains_ci (before ++ needle ++ after) hay = true ->
  contains_ci needle hay = true.
Proof.
  rewrite !contains_ci_substring_ci. intros [b [a H]].
  rewrite !toCaseFolded_append in H.
  exists (b ++ toCaseFolded before), (toCaseFolded after ++ a).
  rewrite H. now rewrite !append_assoc.
Qed.

(* ================================================================= *)
(** ** Song rows *)

Lemma FieldsFromGroupBy_no_title group_by : ~ In "title" (FieldsFromGroupBy group_by).
Proof. destruct group_by; simpl; intuition discriminate. Qed.

Lemma FieldsFromGroupBy_no_length group_by : ~ In "length" (FieldsFromGroupBy group_by).
Proof. destruct group_by; simpl; intuition discriminate. Qed.

Section SongRows.

Variable ext : Externals.

(** With a predicate on [key] in the set, an ancestor of a Song row does
    not match: a Divider carries no predicate, and the Container's
    dimension does not supply [key]. *)
Lemma song_row_ancestor_refused model filterdata_list filter key filter_data a :
  FilterDataList_wf filterdata_list ->
  In (key, filter_data) filterdata_list ->
  type a = Type_Divider
  \/ (type a = Type_Container
      /\ FieldsFromGroupBy (Grouping_at (GetGroupBy model) (container_level a)) <> []) ->
  ~ In key (FieldsFromGroupBy (Grouping_at (GetGroupBy model) (container_level a))) ->
  ItemMatchesFilter ext model a filterdata_list filter = false.
Proof.
  intros Hwf Hin Hkind Hlack.
  unfold ItemMatchesFilter.
  apply andb_false_iff; right.
  destruct filterdata_list as [|kd rest] eqn:Hfdl; [now elim Hin|].
  rewrite <- Hfdl in *. subst filterdata_list.
  cbn [orb].
  destruct Hkind as [Hdiv|[Hcont Hfields]].
  - rewrite Hdiv. reflexivity.
  - rewrite Hcont. cbn [ItemType_eqb andb orb].
    rewrite (ItemMetadataMatches_field_gate ext _ _ _ key filter_data Hwf Hin Hfields Hlack).
    now rewrite andb_false_r.
Qed.

(** A Song row is accepted exactly when the Song node itself matches, as
    soon as the filter holds a predicate on a field that no ancestor's
    dimension supplies. *)
Lemma song_row_accepted model filter_pattern source_row source_parent item ancestors
    key filter_data :
  song_row model source_row source_parent item ancestors ->
  In (key, filter_data) (fst (ParseFilter ext (remove_char backslash filter_pattern))) ->
  ancestors_lack_field model key ancestors ->
  (filterAcceptsRow ext (Some model) filter_pattern source_row source_parent = true
   <-> ItemMatchesFilter ext model item
         (fst (ParseFilter ext (remove_char backslash filter_pattern)))
         (snd (ParseFilter ext (remove_char backslash filter_pattern))) = true).
Proof.
  intros [Hrow [Hchain [Hroot [Hsong [Hvalid [Hleaf Hanc]]]]]] Hin Hlack.
  pose proof (ParseFilter_wf ext (remove_char backslash filter_pattern)) as Hwf.
  rewrite (filterAcceptsRow_cases ext model filter_pattern source_row source_parent
             item ancestors Hrow Hchain Hroot).
  2:{ intros a [<-|Ha].
      - rewrite Hsong. discriminate.
      - destruct (Hanc a Ha) as [H|[H _]]; rewrite H; discriminate. }
  unfold visible_by_rule.
  split.
  - intros [H|[H|[[a [Ha Hm]]|[d [Hd _]]]]].
    + rewrite Hsong in H. discriminate.
    + exact H.
    + rewrite (song_row_ancestor_refused model _ _ key filter_data a Hwf Hin
                 (Hanc a Ha) (Hlack a Ha)) in Hm.
      discriminate.
    + inversion Hd as [i c Hc|i c e Hc _]; subst; rewrite Hleaf in Hc; now elim Hc.
  - intros H. right; left. exact H.
Qed.

(** A Song node with a valid record matches one predicate and no free text
    exactly when its record passes the loop of [ItemMetadataMatches]. *)
Lemma song_matches_predicates model item key filter_data :
  type item = Type_Song -> is_valid (metadata item) = true ->
  ItemMatchesFilter ext model item [(key, filter_data)] EmptyString
  = ItemMetadataMatches ext (metadata item) [(key, filter_data)] [].
Proof.
  intros Hsong Hvalid. unfold ItemMatchesFilter.
  rewrite Hsong, Hvalid. cbn [isEmpty ItemType_eqb orb andb].
  now rewrite orb_false_r.
Qed.

Lemma ParseFilter_year_range :
  ParseFilter ext "year>=1970 year<1980"
  = ([("year", mkFilterData "year" (QVariant_Int 1980) "<")], EmptyString).
Proof. reflexivity. Qed.

(** C4 (amended).  For the filter string [year>=1970 year<1980] the parser
    keeps one predicate per field, the later one: [year<1980].  A Song row
    none of whose ancestors is grouped by year is accepted exactly when
    the year of its record is below 1980; in particular a song whose year
    is 0 is accepted. *)
Theorem year_range_keeps_later_bound model source_row source_parent item ancestors :
  song_row model source_row source_parent item ancestors ->
  ancestors_lack_field model "year" ancestors ->
  fst (ParseFilter ext "year>=1970 year<1980")
  = [("year", mkFilterData "year" (QVariant_Int 1980) "<")]
  /\ (filterAcceptsRow ext (Some model) "year>=1970 year<1980" source_row source_parent
      = true
      <-> (year (metadata item) < 1980)%Z)
  /\ (year (metadata item) = 0%Z ->
      filterAcceptsRow ext (Some model) "year>=1970 year<1980" source_row source_parent
      = true).
Proof.
  intros Hsong Hlack.
  assert (Hiff :
    filterAcceptsRow ext (Some model) "year>=1970 year<1980" source_row source_parent
    = true <-> (year (metadata item) < 1980)%Z).
  { rewrite (song_row_accepted model _ _ _ item ancestors "year"
               (mkFilterData "year" (QVariant_Int 1980) "<") Hsong);
      [|left; reflexivity|exact Hlack].
    change (remove_char backslash "year>=1970 year<1980") with "year>=1970 year<1980".
    rewrite ParseFilter_year_range. cbn [fst snd].
    destruct Hsong as [_ [_ [_ [Hty [Hvalid _]]]]].
    rewrite (song_matches_predicates model item _ _ Hty Hvalid).
    cbn. rewrite <- Z.ltb_lt.
    now destruct (year (metadata item) <? 1980)%Z. }
  split; [reflexivity|].
  split; [exact Hiff|].
  intros Hzero. apply Hiff. rewrite Hzero. reflexivity.
Qed.

Lemma ParseFilter_length_colon :
  ParseFilter ext "length:3:30" = ([], "length:3:30").
Proof. reflexivity. Qed.

Lemma ParseFilter_length_equal :
  ParseFilter ext "length=210"
  = ([("length",
       mkFilterData "length"
         (QVariant_LongLong (ParseSearchTime ext "210" * kNsecPerSec)%Z) "=")],
     EmptyString).
Proof. reflexivity. Qed.

Lemma ParseFilter_length_greater :
  ParseFilter ext "length>210"
  = ([("length",
       mkFilterData "length"
         (QVariant_LongLong (ParseSearchTime ext "210" * kNsecPerSec)%Z) ">")],
     EmptyString).
Proof. reflexivity. Qed.

(** With free text only, a node matches exactly when its display text
    holds the free text. *)
Lemma ItemMatchesFilter_free_text model item filter :
  filter <> EmptyString ->
  ItemMatchesFilter ext model item [] filter = contains_ci filter (DisplayText item).
Proof.
  intros Hne. unfold ItemMatchesFilter.
  apply isEmpty_false in Hne. rewrite Hne. cbn [orb]. apply andb_true_r.
Qed.

(** C5 (amended).  The token [length:3:30] gives no predicate: the colon
    introduces the values of text fields only, and the token is residual
    free text, so that a Song row is accepted exactly when the display
    text of the node or of an ancestor holds the token.  With a comparison
    operator and a value in seconds, [length=210] accepts a Song row
    exactly when the length of its record is 210 seconds in nanoseconds,
    and [length>210] exactly when it is strictly more. *)
Theorem length_filter_in_seconds model source_row source_parent item ancestors :
  song_row model source_row source_parent item ancestors ->
  ParseSearchTime ext "210" = 210%Z ->
  ParseFilter ext "length:3:30" = ([], "length:3:30")
  /\ (filterAcceptsRow ext (Some model) "length:3:30" source_row source_parent = true
      <-> exists n, In n (item :: ancestors)
                    /\ substring_ci "length:3:30" (DisplayText n))
  /\ (filterAcceptsRow ext (Some model) "length=210" source_row source_parent = true
      <-> length_nanosec (metadata item) = (210 * kNsecPerSec)%Z)
  /\ (filterAcceptsRow ext (Some model) "length>210" source_row source_parent = true
      <-> (length_nanosec (metadata item) > 210 * kNsecPerSec)%Z).
Proof.
  intros Hsong Htime.
  assert (Hlack : ancestors_lack_field model "length" ancestors)
    by (intros a _; apply FieldsFromGroupBy_no_length).
  split; [reflexivity|].
  split; [|split].
  - destruct Hsong as [Hrow [Hchain [Hroot [Hty [Hvalid [Hleaf Hanc]]]]]].
    rewrite (filterAcceptsRow_cases ext model "length:3:30" source_row source_parent
               item ancestors Hrow Hchain Hroot).
    2:{ intros a [<-|Ha].
        - rewrite Hty. discriminate.
        - destruct (Hanc a Ha) as [H|[H _]]; rewrite H; discriminate. }
    change (remove_char backslash "length:3:30") with "length:3:30".
    rewrite ParseFilter_length_colon. cbn [fst snd].
    unfold visible_by_rule.
    assert (Hne : "length:3:30" <> EmptyString) by discriminate.
    split.
    + intros [H|[H|[[a [Ha H]]|[d [Hd _]]]]].
      * rewrite Hty in H. discriminate.
      * exists item. split; [now left|].
        apply contains_ci_substring_ci.
        now rewrite <- (ItemMatchesFilter_free_text model item _ Hne).
      * exists a. split; [now right|].
        apply contains_ci_substring_ci.
        now rewrite <- (ItemMatchesFilter_free_text model a _ Hne).
      * inversion Hd as [i c Hc|i c e Hc _]; subst; rewrite Hleaf in Hc; now elim Hc.
    + intros [n [[<-|Hn] H]]; apply contains_ci_substring_ci in H;
        rewrite <- (ItemMatchesFilter_free_text model _ _ Hne) in H.
      * right; left. exact H.
      * right; right; left. now exists n.
  - rewrite (song_row_accepted model _ _ _ item ancestors "length"
               (mkFilterData "length" (QVariant_LongLong (210 * kNsecPerSec)%Z) "=")
               Hsong);
      [| |exact Hlack].
    2:{ change (remove_char backslash "length=210") with "length=210".
        rewrite ParseFilter_length_equal, Htime. left; reflexivity. }
    change (remove_char backslash "length=210") with "length=210".
    rewrite ParseFilter_length_equal, Htime. cbn [fst snd].
    destruct Hsong as [_ [_ [_ [Hty [Hvalid _]]]]].
    rewrite (song_matches_predicates model item _ _ Hty Hvalid).
    cbn. rewrite <- Z.eqb_eq.
    now destruct (length_nanosec (metadata item) =? 210000000000)%Z.
  - rewrite (song_row_accepted model _ _ _ item ancestors "length"
               (mkFilterData "length" (QVariant_LongLong (210 * kNsecPerSec)%Z) ">")
               Hsong);
      [| |exact Hlack].
    2:{ change (remove_char backslash "length>210") with "length>210".
        rewrite ParseFilter_length_greater, Htime. left; reflexivity. }
    change (remove_char backslash "length>210") with "length>210".
    rewrite ParseFilter_length_greater, Htime. cbn [fst snd].
    destruct Hsong as [_ [_ [_ [Hty [Hvalid _]]]]].
    rewrite (song_matches_predicates model item _ _ Hty Hvalid).
    cbn. rewrite Z.gt_lt_iff, <- Z.ltb_lt.
    now destruct (210000000000 <? length_nanosec (metadata item))%Z.
Qed.

Lemma ParseFilter_quoted_phrase :
  ParseFilter ext ("title:" ++ quoted_some_song)
  = ([("title", mkFilterData "title" (QVariant_QString "some song") EmptyString)],
     EmptyString).
Proof. reflexivity. Qed.

(** C6.  For the filter string [title:] followed by [some song] between
    quotation marks, a Song row is accepted exactly when the title of its
    record holds [some song] as a contiguous substring, letter case apart;
    a title that holds the two words apart is therefore not accepted. *)
Theorem quoted_phrase_matches_contiguous model source_row source_parent item ancestors :
  song_row model source_row source_parent item ancestors ->
  (filterAcceptsRow ext (Some model) ("title:" ++ quoted_some_song)
     source_row source_parent = true
   <-> substring_ci "some song" (title (metadata item))).
Proof.
  intros Hsong.
  assert (Hlack : ancestors_lack_field model "title" ancestors)
    by (intros a _; apply FieldsFromGroupBy_no_title).
  rewrite (song_row_accepted model _ _ _ item ancestors "title"
             (mkFilterData "title" (QVariant_QString "some song") EmptyString) Hsong);
    [|left; reflexivity|exact Hlack].
  change (remove_char backslash ("title:" ++ quoted_some_song))
    with ("title:" ++ quoted_some_song).
  rewrite ParseFilter_quoted_phrase. cbn [fst snd].
  destruct Hsong as [_ [_ [_ [Hty [Hvalid _]]]]].
  rewrite (song_matches_predicates model item _ _ Hty Hvalid).
  rewrite <- contains_ci_substring_ci.
  cbn -[contains_ci].
  now destruct (contains_ci "some song" (title (metadata item))).
Qed.

End SongRows.

(* ================================================================= *)
(** ** Instances for C4, C5, C6 and C7 *)

Ltac sample_song_row :=
  unfold song_row; repeat split; try reflexivity; try lia;
  intros a [<-|[]]; right; split; [reflexivity|discriminate].

Lemma year_range_keeps_later_bound_witness :
  fst (ParseFilter sample_externals "year>=1970 year<1980")
  = [("year", mkFilterData "year" (QVariant_Int 1980) "<")]
  /\ (filterAcceptsRow sample_externals
        (Some (beatles_model (sample_song "Come Together" 1969 259)))
        "year>=1970 year<1980" 0 [0] = true
      <-> (year (metadata (song_item (sample_song "Come Together" 1969 259))) < 1980)%Z)
  /\ (year (metadata (song_item (sample_song "Come Together" 1969 259))) = 0%Z ->
      filterAcceptsRow sample_externals
        (Some (beatles_model (sample_song "Come Together" 1969 259)))
        "year>=1970 year<1980" 0 [0] = true).
Proof.
  apply (year_range_keeps_later_bound sample_externals
           (beatles_model (sample_song "Come Together" 1969 259)) 0 [0]
           (song_item (sample_song "Come Together" 1969 259))
           [artist_item [song_item (sample_song "Come Together" 1969 259)]]).
  - sample_song_row.
  - intros a [<-|[]]. vm_compute. intuition discriminate.
Defined.

(** C4 as stated fails on a song whose year is 0: the row is accepted,
    the bound [>=1970] having been replaced by the later [<1980]. *)
Lemma year_range_zero_year_counterexample :
  filterAcceptsRow sample_externals (Some (beatles_model (sample_song "Untitled" 0 100)))
    "year>=1970 year<1980" 0 [0] = true
  /\ year (metadata (song_item (sample_song "Untitled" 0 100))) = 0%Z.
Proof. split; reflexivity. Qed.

Lemma length_filter_in_seconds_witness :
  ParseFilter sample_externals "length:3:30" = ([], "length:3:30")
  /\ (filterAcceptsRow sample_externals (Some (beatles_model (sample_song "Let It Be" 1970 210)))
        "length:3:30" 0 [0] = true
      <-> exists n, In n [song_item (sample_song "Let It Be" 1970 210);
                          artist_item [song_item (sample_song "Let It Be" 1970 210)]]
                    /\ substring_ci "length:3:30" (DisplayText n))
  /\ (filterAcceptsRow sample_externals (Some (beatles_model (sample_song "Let It Be" 1970 210)))
        "length=210" 0 [0] = true
      <-> length_nanosec (metadata (song_item (sample_song "Let It Be" 1970 210)))
          = (210 * kNsecPerSec)%Z)
  /\ (filterAcceptsRow sample_externals (Some (beatles_model (sample_song "Let It Be" 1970 210)))
        "length>210" 0 [0] = true
      <-> (length_nanosec (metadata (song_item (sample_song "Let It Be" 1970 210)))
           > 210 * kNsecPerSec)%Z).
Proof.
  apply (length_filter_in_seconds sample_externals
           (beatles_model (sample_song "Let It Be" 1970 210)) 0 [0]
           (song_item (sample_song "Let It Be" 1970 210))
           [artist_item [song_item (sample_song "Let It Be" 1970 210)]]).
  - sample_song_row.
  - reflexivity.
Defined.

(** C5 as stated fails on a song of exactly 210 seconds: under
    [length:3:30] the row is not accepted, the token being free text that
    no display text holds. *)
Lemma length_colon_counterexample :
  filterAcceptsRow sample_externals (Some (beatles_model (sample_song "Let It Be" 1970 210)))
    "length:3:30" 0 [0] = false
  /\ length_nanosec (metadata (song_item (sample_song "Let It Be" 1970 210)))
     = (210 * kNsecPerSec)%Z.
Proof. split; reflexivity. Qed.

Lemma quoted_phrase_matches_contiguous_witness :
  filterAcceptsRow sample_externals (Some (beatles_model (sample_song "Awesome Songs" 1970 180)))
    ("title:" ++ quoted_some_song) 0 [0] = true
  <-> substring_ci "some song"
        (title (metadata (song_item (sample_song "Awesome Songs" 1970 180)))).
Proof.
  apply (quoted_phrase_matches_contiguous sample_externals
           (beatles_model (sample_song "Awesome Songs" 1970 180)) 0 [0]
           (song_item (sample_song "Awesome Songs" 1970 180))
           [artist_item [song_item (sample_song "Awesome Songs" 1970 180)]]).
  sample_song_row.
Defined.

(** The two words apart: the row is refused; in one piece, whatever the
    letter case: it is accepted. *)
Example quoted_phrase_words_apart :
  filterAcceptsRow sample_externals (Some (beatles_model (sample_song "Some Other Song" 1970 180)))
    ("title:" ++ quoted_some_song) 0 [0] = false
  /\ filterAcceptsRow sample_externals (Some (beatles_model (sample_song "Awesome Songs" 1970 180)))
       ("title:" ++ quoted_some_song) 0 [0] = true.
Proof. split; reflexivity. Qed.

(** A field name with a capital letter is none of the names
    [DataFromField] knows: the value it returns is invalid. *)
Lemma DataFromField_case_sensitive field metadata :
  toCaseFolded field <> field -> DataFromField field metadata = QVariant_Invalid.
Proof.
  intros Hcase. unfold DataFromField.
  repeat match goal with
         | |- context [String.eqb field ?name] =>
             destruct (String.eqb field name) eqn:E;
             [apply String.eqb_eq in E; subst field; now elim Hcase|clear E]
         end.
  reflexivity.
Qed.

(** Hence a predicate kept under such a name refuses every record. *)
Lemma capital_field_never_matches ext metadata filterdata_list fields key filter_data :
  FilterDataList_wf filterdata_list ->
  In (key, filter_data) filterdata_list ->
  toCaseFolded key <> key ->
  ItemMetadataMatches ext metadata filterdata_list fields = false.
Proof.
  intros Hwf Hin Hcase.
  destruct (ItemMetadataMatches ext metadata filterdata_list fields) eqn:E;
    [|reflexivity].
  pose proof (proj1 (ItemMetadataMatches_all ext metadata filterdata_list fields Hwf) E) as H.
  destruct (H _ Hin) as [_ [Hty _]]. cbn [fst snd] in Hty.
  rewrite (DataFromField_case_sensitive key metadata Hcase) in Hty.
  unfold FilterDataList_wf in Hwf. rewrite Forall_forall in Hwf.
  destruct (Hwf _ Hin) as [_ Hvalid]. cbn [snd] in Hvalid.
  destruct (value filter_data); discriminate.
Qed.

(** C7, at the failing input.  The field name is kept as typed as the key
    of the predicate, and [DataFromField] compares it case-sensitively:
    [Year>=1970] and [Title:come] are recognised as predicates, but refuse
    the song that [year>=1970] and [title:come] accept. *)
Theorem field_name_case_changes_result :
  fst (ParseFilter sample_externals "Year>=1970")
  = [("Year", mkFilterData "Year" (QVariant_Int 1970) ">=")]
  /\ filterAcceptsRow sample_externals
       (Some (beatles_model (sample_song "Come Together" 1975 259))) "year>=1970" 0 [0] = true
  /\ filterAcceptsRow sample_externals
       (Some (beatles_model (sample_song "Come Together" 1975 259))) "Year>=1970" 0 [0] = false
  /\ filterAcceptsRow sample_externals
       (Some (beatles_model (sample_song "Come Together" 1975 259))) "title:come" 0 [0] = true
  /\ filterAcceptsRow sample_externals
       (Some (beatles_model (sample_song "Come Together" 1975 259))) "Title:come" 0 [0] = false.
Proof. repeat split; reflexivity. Qed.

(* ================================================================= *)
(** ** Tokens by their parts *)

Lemma list_contains_ci_folded columns field :
  list_contains_ci columns field = list_contains (map toCaseFolded columns) (toCaseFolded field).
Proof.
  unfold list_contains_ci, list_contains, equals_ci.
  induction columns as [|c columns IH]; simpl; [reflexivity|now rewrite IH].
Qed.

Lemma list_contains_ci_In columns field :
  list_contains_ci columns field = true
  <-> In (toCaseFolded field) (map toCaseFolded columns).
Proof. rewrite list_contains_ci_folded. apply list_contains_In. Qed.

Lemma contains_char_append c (a b : QString) :
  contains_char c (a ++ b) = contains_char c a || contains_char c b.
Proof.
  induction a as [|x a IH]; simpl; [reflexivity|].
  now rewrite IH, orb_assoc.
Qed.

Lemma plain_lacks_operator_char c s :
  plain s = true -> operator_char c = true -> contains_char c s = false.
Proof.
  intros Hs Hc. induction s as [|d s IH]; [reflexivity|].
  cbn [plain contains_char] in *.
  apply andb_true_iff in Hs as [Hd Hs].
  rewrite (IH Hs), orb_false_r.
  destruct (Ascii.eqb c d) eqn:E; [|reflexivity].
  apply Ascii.eqb_eq in E. subst d.
  unfold plain_char in Hd. rewrite Hc in Hd. now rewrite andb_false_r in Hd.
Qed.

Lemma plain_first_char d s c :
  plain (String d s) = true -> operator_char c = true -> Ascii.eqb d c = false.
Proof.
  intros Hs Hc.
  pose proof (plain_lacks_operator_char c _ Hs Hc) as H.
  cbn [contains_char] in H. apply orb_false_iff in H as [H _].
  now rewrite Ascii.eqb_sym.
Qed.

Lemma plain_char_of_letter c : is_lower (foldCase c) = true -> plain_char c = true.
Proof.
  destruct c as [[] [] [] [] [] [] [] []]; intros H; vm_compute in H |- *; congruence.
Qed.

Lemma plain_of_letters s : letters (toCaseFolded s) = true -> plain s = true.
Proof.
  induction s as [|c s IH]; [reflexivity|].
  cbn [toCaseFolded letters plain]. intros H.
  apply andb_true_iff in H as [Hc Hs].
  now rewrite (plain_char_of_letter c Hc), (IH Hs).
Qed.

(** A field name that is a known column, letter case apart, is plain. *)
Lemma known_column_plain columns field :
  forallb letters (map toCaseFolded columns) = true ->
  list_contains_ci columns field = true -> plain field = true.
Proof.
  intros Hcols Hin.
  apply plain_of_letters.
  rewrite list_contains_ci_folded in Hin. apply list_contains_In in Hin.
  rewrite forallb_forall in Hcols. now apply Hcols.
Qed.

Lemma operator_regex_match_plain field rest :
  plain field = true ->
  operator_regex_match (field ++ rest) = operator_regex_match rest.
Proof.
  intros Hf. induction field as [|c field IH]; [reflexivity|].
  cbn [plain] in Hf. apply andb_true_iff in Hf as [Hc Hf].
  cbn [append operator_regex_match].
  unfold plain_char, operator_char in Hc. cbn [existsb] in Hc.
  apply andb_true_iff in Hc as [_ Hc]. apply negb_true_iff in Hc.
  rewrite !orb_false_iff in Hc. destruct Hc as [_ [He [Hl [Hg [Hb _]]]]].
  rewrite He, Hl, Hg, Hb. now apply IH.
Qed.

Lemma prefix_same_char c s t : prefix (String c s) (String c t) = prefix s t.
Proof. cbn [prefix]. destruct (ascii_dec c c) as [_|Hne]; [reflexivity|now elim Hne]. Qed.

Lemma prefix_empty t : prefix EmptyString t = true.
Proof. now destruct t. Qed.

(** Splitting passes over a text that lacks the separator's first
    character. *)
Lemma split_aux_lacking c0 sep' s : forall t cur,
  contains_char c0 s = false ->
  split_aux (String c0 sep') (s ++ t) 0 cur = split_aux (String c0 sep') t 0 (cur ++ s).
Proof.
  induction s as [|c s IH]; intros t cur Hs.
  - now rewrite append_empty_r.
  - cbn [contains_char] in Hs. apply orb_false_iff in Hs as [Hc Hs].
    cbn [append split_aux prefix].
    destruct (ascii_dec c0 c) as [->|Hne].
    + now rewrite Ascii.eqb_refl in Hc.
    + rewrite (IH t _ Hs). now rewrite append_assoc.
Qed.

Lemma split_aux_lacking_end c0 sep' s cur :
  contains_char c0 s = false ->
  split_aux (String c0 sep') s 0 cur = [cur ++ s].
Proof.
  intros Hs. rewrite <- (append_empty_r s) at 1.
  now rewrite (split_aux_lacking c0 sep' s EmptyString cur Hs).
Qed.

Lemma split_lacking c0 sep' s :
  contains_char c0 s = false -> split (String c0 sep') s = [s].
Proof.
  intros Hs. unfold split. cbn [isEmpty].
  now rewrite (split_aux_lacking_end c0 sep' s EmptyString Hs).
Qed.

Lemma split_field_first c0 sep' field rest :
  contains_char c0 field = false ->
  split (String c0 sep') (field ++ rest) = split_aux (String c0 sep') rest 0 field.
Proof.
  intros Hf. unfold split. cbn [isEmpty].
  now rewrite (split_aux_lacking c0 sep' field rest EmptyString Hf).
Qed.

Lemma split_aux_at_char c0 rest cur :
  split_aux (String c0 EmptyString) (String c0 rest) 0 cur
  = cur :: split_aux (String c0 EmptyString) rest 0 EmptyString.
Proof. cbn [split_aux]. now rewrite prefix_same_char, prefix_empty. Qed.

Lemma split_aux_at_pair c0 c1 rest cur :
  split_aux (String c0 (String c1 EmptyString)) (String c0 (String c1 rest)) 0 cur
  = cur :: split_aux (String c0 (String c1 EmptyString)) rest 0 EmptyString.
Proof. cbn [split_aux]. now rewrite !prefix_same_char, prefix_empty. Qed.

Lemma section_of_two sep s a b :
  split sep s = [a; b] ->
  section sep 0 0 s = a /\ section sep 1 (-1) s = b.
Proof. intros H. unfold section. rewrite H. split; reflexivity. Qed.

Lemma section_of_three sep s a b c :
  split sep s = [a; b; c] ->
  section sep 0 0 s = a /\ section sep 1 (-1) s = b ++ sep ++ c.
Proof. intros H. unfold section. rewrite H. split; reflexivity. Qed.

Lemma remove_lacking c0 sep' s :
  contains_char c0 s = false -> remove (String c0 sep') s = s.
Proof.
  intros Hs. unfold remove. rewrite (split_lacking c0 sep' s Hs). reflexivity.
Qed.

Lemma remove_char_lacking c s : contains_char c s = false -> remove_char c s = s.
Proof.
  induction s as [|d s IH]; [reflexivity|].
  cbn [contains_char remove_char]. intros H.
  apply orb_false_iff in H as [Hd Hs]. now rewrite Hd, (IH Hs).
Qed.

Lemma trimmed_plain s : plain s = true -> trimmed s = s.
Proof.
  intros Hs. unfold trimmed.
  assert (Hl : trim_left s = s).
  { destruct s as [|c s]; [reflexivity|].
    cbn [plain] in Hs. apply andb_true_iff in Hs as [Hc _].
    unfold plain_char in Hc. apply andb_true_iff in Hc as [Hc _].
    apply negb_true_iff in Hc. cbn [trim_left]. now rewrite Hc. }
  rewrite Hl.
  induction s as [|c s IH]; [reflexivity|].
  cbn [plain] in Hs. apply andb_true_iff in Hs as [Hc Hs].
  unfold plain_char in Hc. apply andb_true_iff in Hc as [Hc _].
  apply negb_true_iff in Hc. cbn [trim_right]. rewrite Hc. cbn [andb].
  rewrite IH; [reflexivity|exact Hs|].
  destruct s as [|d s]; [reflexivity|].
  cbn [plain] in Hs. apply andb_true_iff in Hs as [Hd _].
  unfold plain_char in Hd. apply andb_true_iff in Hd as [Hd _].
  apply negb_true_iff in Hd. cbn [trim_left]. now rewrite Hd.
Qed.

(** A plain field, a comparison operator and a plain, non-empty value,
    written one after the other, make a token that the comparison branch
    splits back into that field and that value. *)
Lemma comparison_token_of_parts field op value :
  plain field = true -> plain value = true -> value <> EmptyString ->
  In op comparison_operators ->
  comparison_token (field ++ op ++ value) field (captured_operator op) value.
Proof.
  intros Hf Hv Hne Hop.
  assert (Hlack : forall c, operator_char c = true ->
            contains_char c field = false /\ contains_char c value = false).
  { intros c Hc. split; now apply plain_lacks_operator_char. }
  pose proof (trimmed_plain field Hf) as Htf.
  pose proof (trimmed_plain value Hv) as Htv.
  destruct (Hlack ":"%char eq_refl) as [Hfc Hvc].
  destruct (Hlack "="%char eq_refl) as [Hfe Hve].
  destruct (Hlack "<"%char eq_refl) as [Hfl Hvl].
  destruct (Hlack ">"%char eq_refl) as [Hfg Hvg].
  destruct (Hlack "!"%char eq_refl) as [Hfb Hvb].
  assert (Hfirst : exists d value', value = String d value'
                     /\ Ascii.eqb d ">"%char = false /\ Ascii.eqb d "="%char = false).
  { destruct value as [|d value']; [now elim Hne|].
    exists d, value'. split; [reflexivity|].
    split; now apply (plain_first_char d value'). }
  destruct Hfirst as [d [value' [Hvalue [Hd1 Hd2]]]].
  assert (Hshape : forall foperator rest,
            contains_char ":"%char rest = false ->
            operator_regex_match (rest ++ value) = Some foperator ->
            (split foperator (field ++ rest ++ value) = [field; value]
             /\ remove foperator field = field /\ remove foperator value = value) ->
            comparison_token (field ++ rest ++ value) field foperator value).
  { intros foperator rest Hrc Hre [Hsplit [Hrf Hrv]]. unfold comparison_token.
    rewrite !contains_char_append, Hfc, Hvc, Hrc, (operator_regex_match_plain _ _ Hf).
    destruct (section_of_two _ _ _ _ Hsplit) as [-> ->].
    rewrite Hrf, Hrv, Htf, Htv. repeat split; try reflexivity; assumption. }
  unfold comparison_operators in Hop.
  destruct Hop as [<-|[<-|[<-|[<-|[<-|[<-|[<-|[<-|[]]]]]]]]];
    change (captured_operator "=") with "=";
    change (captured_operator "==") with "=";
    change (captured_operator "<>") with "<>";
    change (captured_operator "<") with "<";
    change (captured_operator "<=") with "<=";
    change (captured_operator ">") with ">";
    change (captured_operator ">=") with ">=";
    change (captured_operator "!=") with "!=".
  - apply Hshape; [reflexivity|reflexivity|].
    rewrite (split_field_first _ _ _ _ Hfe). cbn [append].
    rewrite split_aux_at_char, (split_aux_lacking_end _ _ _ _ Hve).
    rewrite !remove_lacking by assumption. repeat split; reflexivity.
  - unfold comparison_token.
    rewrite !contains_char_append, Hfc, Hvc, (operator_regex_match_plain _ _ Hf).
    assert (Hsplit : split "=" (field ++ "==" ++ value) = [field; EmptyString; value]).
    { rewrite (split_field_first _ _ _ _ Hfe). cbn [append].
      rewrite !split_aux_at_char, (split_aux_lacking_end _ _ _ _ Hve). reflexivity. }
    destruct (section_of_three _ _ _ _ _ Hsplit) as [-> ->].
    rewrite (remove_lacking _ _ _ Hfe), Htf.
    assert (Hrv : remove "=" (EmptyString ++ "=" ++ value) = value).
    { unfold remove, split. cbn [append isEmpty].
      rewrite split_aux_at_char, (split_aux_lacking_end _ _ _ _ Hve). reflexivity. }
    rewrite Hrv, Htv. repeat split; try reflexivity; assumption.
  - apply Hshape; [reflexivity|reflexivity|].
    rewrite (split_field_first _ _ _ _ Hfl). cbn [append].
    rewrite split_aux_at_pair, (split_aux_lacking_end _ _ _ _ Hvl).
    rewrite !remove_lacking by assumption. repeat split; reflexivity.
  - apply Hshape; [reflexivity| |].
    + rewrite Hvalue. cbn. now rewrite Hd1, Hd2.
    + rewrite (split_field_first _ _ _ _ Hfl). cbn [append].
      rewrite split_aux_at_char, (split_aux_lacking_end _ _ _ _ Hvl).
      rewrite !remove_lacking by assumption. repeat split; reflexivity.
  - apply Hshape; [reflexivity|reflexivity|].
    rewrite (split_field_first _ _ _ _ Hfl). cbn [append].
    rewrite split_aux_at_pair, (split_aux_lacking_end _ _ _ _ Hvl).
    rewrite !remove_lacking by assumption. repeat split; reflexivity.
  - apply Hshape; [reflexivity| |].
    + rewrite Hvalue. cbn. now rewrite Hd2.
    + rewrite (split_field_first _ _ _ _ Hfg). cbn [append].
      rewrite split_aux_at_char, (split_aux_lacking_end _ _ _ _ Hvg).
      rewrite !remove_lacking by assumption. repeat split; reflexivity.
  - apply Hshape; [reflexivity|reflexivity|].
    rewrite (split_field_first _ _ _ _ Hfg). cbn [append].
    rewrite split_aux_at_pair, (split_aux_lacking_end _ _ _ _ Hvg).
    rewrite !remove_lacking by assumption. repeat split; reflexivity.
  - apply Hshape; [reflexivity|reflexivity|].
    rewrite (split_field_first _ _ _ _ Hfb). cbn [append].
    rewrite split_aux_at_pair, (split_aux_lacking_end _ _ _ _ Hvb).
    rewrite !remove_lacking by assumption. repeat split; reflexivity.
Qed.

(** A known text field, a colon and a non-empty value without colon or
    surrounding white space make a token that the text branch splits back
    into that field and that value. *)
Lemma text_token_of_parts field value :
  list_contains_ci kTextSearchColumns field = true ->
  contains_char ":"%char value = false -> trimmed value = value ->
  value <> EmptyString ->
  text_token (field ++ ":" ++ value) field value.
Proof.
  intros Htext Hvc Htv Hne.
  assert (Hf : plain field = true)
    by (apply (known_column_plain kTextSearchColumns); [reflexivity|exact Htext]).
  pose proof (plain_lacks_operator_char ":"%char field Hf eq_refl) as Hfc.
  assert (Hsplit : split ":" (field ++ ":" ++ value) = [field; value]).
  { rewrite (split_field_first _ _ _ _ Hfc). cbn [append].
    rewrite split_aux_at_char, (split_aux_lacking_end _ _ _ _ Hvc). reflexivity. }
  unfold text_token.
  destruct (section_of_two _ _ _ _ Hsplit) as [-> ->].
  rewrite !contains_char_append, !remove_char_lacking by assumption.
  rewrite (trimmed_plain field Hf), Htv.
  repeat split; try reflexivity; try assumption.
  - cbn. now rewrite orb_true_r.
  - apply (list_contains_ci_nonempty kTextSearchColumns); [reflexivity|exact Htext].
Qed.

(* ================================================================= *)
(** ** Tokens that fall through to the free text *)

Lemma isEmpty_append_token (before token after : QString) :
  token <> EmptyString -> isEmpty (before ++ token ++ after) = false.
Proof.
  intros Hne. destruct before; simpl; [|reflexivity].
  destruct token; [now elim Hne|reflexivity].
Qed.

Lemma append_token_shape filter token :
  exists before, append_token filter token = before ++ token /\ before = filter
                 \/ append_token filter token = before ++ token
                    /\ before = filter ++ String " "%char EmptyString.
Proof.
  unfold append_token. destruct (negb (isEmpty filter)).
  - exists (filter ++ String " "%char EmptyString). now right.
  - exists filter. now left.
Qed.

Lemma operator_regex_match_nonempty token foperator :
  operator_regex_match token = Some foperator -> token <> EmptyString.
Proof. intros H E. subst. discriminate. Qed.

Section FreeText.

Variable ext : Externals.

(** The loop only ever appends to the free text. *)
Lemma parse_tokens_filter_extends tokens : forall skip filterdata_list filter,
  exists suffix,
    snd (parse_tokens ext tokens skip filterdata_list filter) = filter ++ suffix.
Proof.
  induction tokens as [|token next IH]; intros skip fdl filter; simpl.
  - exists EmptyString. now rewrite append_empty_r.
  - destruct skip as [|skip']; [|apply IH].
    destruct (token_body ext token next fdl) as [fdl' taken|fdl']; [apply IH|].
    destruct (IH 0 fdl' (append_token filter token)) as [suffix Hs].
    rewrite Hs.
    destruct (append_token_shape filter token) as [before [[E Hb]|[E Hb]]];
      rewrite E; subst before.
    + exists (token ++ suffix). now rewrite append_assoc.
    + exists (String " "%char EmptyString ++ token ++ suffix). now rewrite !append_assoc.
Qed.

(** A token that the body sends to lines 153-154 stays in the free text to
    the end, and a node that matches shows it in its display text. *)
Lemma appended_token_shows (token : QString) (next_tokens : list QString)
    filterdata_list filterdata_list' filter model item :
  token <> EmptyString ->
  token_body ext token next_tokens filterdata_list = exit_append filterdata_list' ->
  ItemMatchesFilter ext model item
    (fst (parse_tokens ext (token :: next_tokens) 0 filterdata_list filter))
    (snd (parse_tokens ext (token :: next_tokens) 0 filterdata_list filter)) = true ->
  contains_ci token (DisplayText item) = true.
Proof.
  intros Hne Hbody. cbn [parse_tokens]. rewrite Hbody.
  destruct (parse_tokens_filter_extends next_tokens 0 filterdata_list'
              (append_token filter token)) as [suffix Hs].
  rewrite Hs. unfold ItemMatchesFilter.
  destruct (append_token_shape filter token) as [before [[E _]|[E _]]];
    rewrite E, append_assoc, (isEmpty_append_token _ _ _ Hne); cbn [orb];
    intros H; apply andb_true_iff in H as [H _];
    now apply contains_ci_part in H.
Qed.

Lemma numeric_column_of_int field :
  list_contains_ci kIntSearchColumns field = true ->
  list_contains_ci kNumericalSearchColumns field = true.
Proof.
  unfold kNumericalSearchColumns, list_contains_ci.
  rewrite existsb_app. intros ->. reflexivity.
Qed.

Lemma numeric_column_of_uint field :
  list_contains_ci kUIntSearchColumns field = true ->
  list_contains_ci kNumericalSearchColumns field = true
  /\ list_contains_ci kIntSearchColumns field = false.
Proof.
  intros H. split.
  - unfold kNumericalSearchColumns, list_contains_ci in *.
    rewrite !existsb_app, H. now rewrite orb_true_r.
  - apply list_contains_ci_In in H.
    rewrite list_contains_ci_folded.
    destruct H as [H|[H|[]]]; rewrite <- H; reflexivity.
Qed.

(** A comparison token whose field is a known int or unsigned field and
    whose value fails the conversion gives no predicate: the body leaves
    the predicate set as it is and reaches the lines that append the token
    to the free text, which a matching node must then show. *)
Lemma token_body_failed_conversion token next_tokens filterdata_list filter
    field foperator value :
  comparison_token token field foperator value ->
  (list_contains_ci kIntSearchColumns field = true /\ Qt.toInt value = None)
  \/ (list_contains_ci kUIntSearchColumns field = true /\ Qt.toUInt value = None) ->
  token_body ext token next_tokens filterdata_list = exit_append filterdata_list
  /\ parse_tokens ext (token :: next_tokens) 0 filterdata_list filter
     = parse_tokens ext next_tokens 0 filterdata_list (append_token filter token)
  /\ forall model item,
       ItemMatchesFilter ext model item
         (fst (parse_tokens ext (token :: next_tokens) 0 filterdata_list filter))
         (snd (parse_tokens ext (token :: next_tokens) 0 filterdata_list filter)) = true ->
       contains_ci token (DisplayText item) = true.
Proof.
  intros [Hcolon [Hop [Hfield [Hvalue Hne]]]] Hfail.
  assert (Hbody : token_body ext token next_tokens filterdata_list
                  = exit_append filterdata_list).
  { unfold token_body. rewrite Hcolon, Hop, <- Hfield, <- Hvalue.
    apply isEmpty_false in Hne. rewrite Hne.
    destruct Hfail as [[Hint Hconv]|[Huint Hconv]].
    - now rewrite (numeric_column_of_int _ Hint), Hint, Hconv.
    - destruct (numeric_column_of_uint _ Huint) as [Hnum Hnot].
      now rewrite Hnum, Hnot, Huint, Hconv. }
  split; [exact Hbody|].
  split.
  - cbn [parse_tokens]. now rewrite Hbody.
  - intros model item.
    apply (appended_token_shows token next_tokens filterdata_list filterdata_list);
      [|exact Hbody].
    now apply operator_regex_match_nonempty with (foperator := foperator).
Qed.

(** C8.  A token written as a known int or unsigned field (in any letter
    case), a comparison operator and a plain value that fails the
    conversion to the field's type gives no predicate: the predicate set
    stays as it is and the whole token is appended to the free text, so
    that a node matches only if its display text holds the token, letter
    case apart.  The parse is a total function: there is no error to
    raise. *)
Theorem failed_conversion_is_free_text (field op value : QString)
    (next_tokens : list QString) filterdata_list filter :
  In op comparison_operators ->
  plain value = true -> value <> EmptyString ->
  (list_contains_ci kIntSearchColumns field = true /\ Qt.toInt value = None)
  \/ (list_contains_ci kUIntSearchColumns field = true /\ Qt.toUInt value = None) ->
  token_body ext (field ++ op ++ value) next_tokens filterdata_list
  = exit_append filterdata_list
  /\ parse_tokens ext ((field ++ op ++ value) :: next_tokens) 0 filterdata_list filter
     = parse_tokens ext next_tokens 0 filterdata_list
         (append_token filter (field ++ op ++ value))
  /\ forall model item,
       ItemMatchesFilter ext model item
         (fst (parse_tokens ext ((field ++ op ++ value) :: next_tokens) 0
                 filterdata_list filter))
         (snd (parse_tokens ext ((field ++ op ++ value) :: next_tokens) 0
                 filterdata_list filter)) = true ->
       contains_ci (field ++ op ++ value) (DisplayText item) = true.
Proof.
  intros Hop Hv Hne Hfail.
  assert (Hf : plain field = true).
  { destruct Hfail as [[H _]|[H _]].
    - apply (known_column_plain kIntSearchColumns); [reflexivity|exact H].
    - apply (known_column_plain kUIntSearchColumns); [reflexivity|exact H]. }
  apply (token_body_failed_conversion _ next_tokens filterdata_list filter
           field (captured_operator op) value);
    [now apply comparison_token_of_parts|exact Hfail].
Qed.

End FreeText.

Lemma failed_conversion_is_free_text_witness :
  token_body sample_externals ("year" ++ ">" ++ "soon") ["title:help"] [] = exit_append []
  /\ parse_tokens sample_externals (("year" ++ ">" ++ "soon") :: ["title:help"]) 0 []
       EmptyString
     = parse_tokens sample_externals ["title:help"] 0 []
         (append_token EmptyString ("year" ++ ">" ++ "soon"))
  /\ forall model item,
       ItemMatchesFilter sample_externals model item
         (fst (parse_tokens sample_externals (("year" ++ ">" ++ "soon") :: ["title:help"])
                 0 [] EmptyString))
         (snd (parse_tokens sample_externals (("year" ++ ">" ++ "soon") :: ["title:help"])
                 0 [] EmptyString))
       = true ->
       contains_ci ("year" ++ ">" ++ "soon") (DisplayText item) = true.
Proof.
  apply (failed_conversion_is_free_text sample_externals "year" ">" "soon" ["title:help"]
           [] EmptyString).
  - right; right; right; right; right; left; reflexivity.
  - reflexivity.
  - discriminate.
  - left. split; reflexivity.
Defined.

(** The same on whole filter strings: a value that is no number, and a
    negative value for an unsigned field. *)
Example failed_conversion_evaluated :
  ParseFilter sample_externals "year>soon title:help" =
    ([("title", mkFilterData "title" (QVariant_QString "help") EmptyString)], "year>soon")
  /\ ParseFilter sample_externals "playcount=-1" = ([], "playcount=-1").
Proof. split; reflexivity. Qed.

(* ================================================================= *)
(** ** Rating tokens *)

Section Rating.

Variable ext : Externals.

Lemma ParentsMatch_In model chain filterdata_list filter :
  ParentsMatch ext model chain filterdata_list filter = true ->
  exists n, In n chain /\ ItemMatchesFilter ext model n filterdata_list filter = true.
Proof.
  induction chain as [|p up IH]; simpl; [discriminate|].
  destruct (ItemType_eqb (type p) Type_Root); [discriminate|].
  destruct (ItemMatchesFilter ext model p filterdata_list filter) eqn:Hp.
  - intros _. exists p. split; [now left|exact Hp].
  - intros H. destruct (IH H) as [n [Hn Hm]]. exists n. split; [now right|exact Hm].
Qed.

Lemma rating_token_body token next_tokens filterdata_list field foperator value :
  comparison_token token field foperator value ->
  equals_ci field "rating" = true ->
  token_body ext token next_tokens filterdata_list
  = exit_append
      (insert field
         (mkFilterData field (QVariant_Float (ParseSearchRating ext value)) foperator)
         filterdata_list).
Proof.
  intros [Hcolon [Hop [Hfield [Hvalue Hne]]]] Hrating.
  unfold token_body. rewrite Hcolon, Hop, <- Hfield, <- Hvalue.
  apply isEmpty_false in Hne. rewrite Hne.
  assert (Hfold : toCaseFolded field = "rating")
    by (apply String.eqb_eq in Hrating; exact Hrating).
  rewrite !list_contains_ci_folded. unfold equals_ci. rewrite Hfold.
  reflexivity.
Qed.

(** A comparison token on [rating]: the predicate goes into the set, the
    token into the free text, and an accepted row that is no
    LoadingIndicator shows the token. *)
Lemma rating_token_rows token next_tokens filterdata_list filter
    field foperator value :
  comparison_token token field foperator value ->
  equals_ci field "rating" = true ->
  token_body ext token next_tokens filterdata_list
  = exit_append
      (insert field
         (mkFilterData field (QVariant_Float (ParseSearchRating ext value)) foperator)
         filterdata_list)
  /\ forall model filter_pattern source_row source_parent item parents before,
       split_ws (normalize_operators (remove_char backslash filter_pattern))
       = (before ++ token :: next_tokens)%list ->
       parse_tokens ext (before ++ token :: next_tokens)%list 0 [] EmptyString
       = parse_tokens ext (token :: next_tokens) 0 filterdata_list filter ->
       IndexToChain (root model) [] (source_parent ++ [Z.to_nat source_row])%list
       = Some (item :: parents) ->
       type item <> Type_LoadingIndicator ->
       filterAcceptsRow ext (Some model) filter_pattern source_row source_parent = true ->
       exists n, (n = item \/ In n parents \/ Descendant n item)
                 /\ ItemMatchesFilter ext model n
                      (fst (ParseFilter ext (remove_char backslash filter_pattern)))
                      (snd (ParseFilter ext (remove_char backslash filter_pattern)))
                    = true
                 /\ contains_ci token (DisplayText n) = true.
Proof.
  intros Htoken Hrating.
  pose proof (rating_token_body token next_tokens filterdata_list field foperator value
                Htoken Hrating) as Hbody.
  split; [exact Hbody|].
  intros model filter_pattern source_row source_parent item parents before
         Htokens Hreach Hchain Hnot.
  assert (Hne : token <> EmptyString).
  { destruct Htoken as [_ [Hop _]].
    now apply operator_regex_match_nonempty with (foperator := foperator). }
  unfold filterAcceptsRow.
  destruct (source_row <? 0)%Z; [discriminate|].
  rewrite Hchain.
  destruct (ItemType_eqb (type item) Type_LoadingIndicator) eqn:Hload.
  { apply ItemType_eqb_eq in Hload. now elim Hnot. }
  destruct (isEmpty (remove_char backslash filter_pattern)) eqn:Hempty.
  { apply isEmpty_true in Hempty. rewrite Hempty in Htokens.
    destruct before; discriminate. }
  assert (Hparse : ParseFilter ext (remove_char backslash filter_pattern)
                   = parse_tokens ext (token :: next_tokens) 0 filterdata_list filter)
    by (unfold ParseFilter; now rewrite Htokens, Hreach).
  rewrite Hparse.
  pose proof (fun i => appended_token_shows ext token next_tokens filterdata_list _ filter
                         model i Hne Hbody) as Hshow.
  destruct (parse_tokens ext (token :: next_tokens) 0 filterdata_list filter)
    as [fdl' filter'].
  cbn [fst snd] in Hshow |- *.
  destruct (ItemMatchesFilter ext model item fdl' filter') eqn:Hitem.
  { intros _. exists item. split; [now left|]. split; [exact Hitem|now apply Hshow]. }
  destruct (ParentsMatch ext model (item :: parents) fdl' filter') eqn:Hparents.
  { intros _. apply ParentsMatch_In in Hparents as [n [[<-|Hn] Hm]].
    - congruence.
    - exists n. split; [right; now left|]. split; [exact Hm|now apply Hshow]. }
  intros Hchildren.
  apply ChildrenMatches_Descendant in Hchildren as [d [Hd Hm]].
  exists d. split; [right; now right|]. split; [exact Hm|now apply Hshow].
Qed.


(** C9 (amended).  A token written as the field [rating] (in any letter
    case), a comparison operator and a plain value puts a rating predicate
    into the predicate set and, the body having no [continue] there, is
    appended as it stands to the free text as well.  Hence, when the loop
    reaches such a token, a row other than a LoadingIndicator row is
    accepted only if the node, an ancestor or a descendant matches the
    parsed filter and holds the token in its display text, letter case
    apart. *)
Theorem rating_token_is_also_free_text (field op value : QString)
    (next_tokens : list QString) filterdata_list filter :
  equals_ci field "rating" = true ->
  In op comparison_operators ->
  plain value = true -> value <> EmptyString ->
  token_body ext (field ++ op ++ value) next_tokens filterdata_list
  = exit_append
      (insert field
         (mkFilterData field (QVariant_Float (ParseSearchRating ext value))
                       (captured_operator op))
         filterdata_list)
  /\ forall model filter_pattern source_row source_parent item parents before,
       split_ws (normalize_operators (remove_char backslash filter_pattern))
       = (before ++ (field ++ op ++ value)%string :: next_tokens)%list ->
       parse_tokens ext (before ++ (field ++ op ++ value)%string :: next_tokens)%list 0 []
         EmptyString
       = parse_tokens ext ((field ++ op ++ value) :: next_tokens) 0 filterdata_list filter ->
       IndexToChain (root model) [] (source_parent ++ [Z.to_nat source_row])%list
       = Some (item :: parents) ->
       type item <> Type_LoadingIndicator ->
       filterAcceptsRow ext (Some model) filter_pattern source_row source_parent = true ->
       exists n, (n = item \/ In n parents \/ Descendant n item)
                 /\ ItemMatchesFilter ext model n
                      (fst (ParseFilter ext (remove_char backslash filter_pattern)))
                      (snd (ParseFilter ext (remove_char backslash filter_pattern)))
                    = true
                 /\ contains_ci (field ++ op ++ value) (DisplayText n) = true.
Proof.
  intros Hrating Hop Hv Hne.
  assert (Hf : plain field = true).
  { apply plain_of_letters. apply String.eqb_eq in Hrating.
    change (toCaseFolded "rating") with "rating" in Hrating.
    now rewrite Hrating. }
  apply (rating_token_rows _ next_tokens filterdata_list filter
           field (captured_operator op) value);
    [now apply comparison_token_of_parts|exact Hrating].
Qed.

End Rating.

Lemma rating_token_is_also_free_text_witness :
  token_body sample_externals ("rating" ++ ">=" ++ "3") [] []
  = exit_append
      (insert "rating"
         (mkFilterData "rating"
            (QVariant_Float (ParseSearchRating sample_externals "3"))
            (captured_operator ">=")) [])
  /\ forall model filter_pattern source_row source_parent item parents before,
       split_ws (normalize_operators (remove_char backslash filter_pattern))
       = (before ++ [("rating" ++ ">=" ++ "3")%string])%list ->
       parse_tokens sample_externals (before ++ [("rating" ++ ">=" ++ "3")%string])%list 0 []
         EmptyString
       = parse_tokens sample_externals ["rating" ++ ">=" ++ "3"] 0 [] EmptyString ->
       IndexToChain (root model) [] (source_parent ++ [Z.to_nat source_row])%list
       = Some (item :: parents) ->
       type item <> Type_LoadingIndicator ->
       filterAcceptsRow sample_externals (Some model) filter_pattern source_row source_parent
       = true ->
       exists n, (n = item \/ In n parents \/ Descendant n item)
                 /\ ItemMatchesFilter sample_externals model n
                      (fst (ParseFilter sample_externals
                              (remove_char backslash filter_pattern)))
                      (snd (ParseFilter sample_externals
                              (remove_char backslash filter_pattern)))
                    = true
                 /\ contains_ci ("rating" ++ ">=" ++ "3") (DisplayText n) = true.
Proof.
  apply (rating_token_is_also_free_text sample_externals "rating" ">=" "3" [] []
           EmptyString).
  - reflexivity.
  - do 6 right; left; reflexivity.
  - reflexivity.
  - discriminate.
Defined.

(** The rating token on a tree: a song whose title does not hold the token
    is refused whatever its rating, and a song whose title holds it is
    accepted when the rating predicate holds too. *)
Example rating_token_on_songs :
  ParseFilter sample_externals "rating>=0"
  = ([("rating", mkFilterData "rating" (QVariant_Float (S754_zero false)) ">=")],
     "rating>=0")
  /\ filterAcceptsRow sample_externals
       (Some (beatles_model (sample_song "Come Together" 1969 259))) "rating>=0" 0 [0]
     = false
  /\ filterAcceptsRow sample_externals
       (Some (beatles_model (sample_song "My rating>=0 song" 1969 259))) "rating>=0" 0 [0]
     = true.
Proof. repeat split; reflexivity. Qed.

(** C9 as stated fails on a LoadingIndicator row: it is accepted under
    [rating>3] although no display text holds the token. *)
Lemma rating_token_LoadingIndicator_counterexample :
  filterAcceptsRow sample_externals (Some (sample_model [loading_item])) "rating>3" 0 []
  = true
  /\ ~ exists n, (n = loading_item \/ In n [root_item [loading_item]]
                  \/ Descendant n loading_item)
                 /\ contains_ci "rating>3" (DisplayText n) = true.
Proof.
  split; [reflexivity|].
  intros [n [[->|[[<-|[]]|Hd]] H]].
  - vm_compute in H. discriminate.
  - vm_compute in H. discriminate.
  - inversion Hd as [i c Hin|i c e Hin _]; subst; exact Hin.
Qed.

(* ================================================================= *)
(** ** Text values without quotation marks *)

Lemma contains_one_char (c : ascii) (s : QString) :
  contains (String c EmptyString) s = contains_char c s.
Proof.
  induction s as [|d s IH]; [reflexivity|].
  cbn [contains contains_char prefix]. rewrite IH.
  destruct (ascii_dec c d) as [->|Hne].
  - rewrite Ascii.eqb_refl. now destruct s.
  - apply Ascii.eqb_neq in Hne. now rewrite Hne.
Qed.

Lemma contains_longer (a b hay : QString) :
  contains (a ++ b) hay = true -> contains a hay = true.
Proof.
  rewrite !contains_append. intros [before [after H]].
  exists before, (b ++ after). now rewrite H, append_assoc.
Qed.

Lemma contains_char_folded (c : ascii) (s : QString) :
  In c [":"; "="; "<"; ">"]%char ->
  contains_char c (toCaseFolded s) = contains_char c s.
Proof.
  intros Hc. induction s as [|d s IH]; [reflexivity|].
  cbn [toCaseFolded contains_char]. rewrite IH. f_equal.
  destruct Hc as [<-|[<-|[<-|[<-|[]]]]];
    destruct d as [[] [] [] [] [] [] [] []]; reflexivity.
Qed.

(** [ContainsOperators]: the token holds one of the characters [:], [=],
    [<] and [>]. *)
Lemma ContainsOperators_chars (token : QString) :
  ContainsOperators token = true
  <-> exists c, In c [":"; "="; "<"; ">"]%char /\ contains_char c token = true.
Proof.
  unfold ContainsOperators, Operators, contains_ci.
  cbn [existsb].
  change (toCaseFolded ":") with ":".
  change (toCaseFolded "=") with "=".
  change (toCaseFolded "==") with ("=" ++ "=").
  change (toCaseFolded "<>") with ("<" ++ ">").
  change (toCaseFolded "<") with "<".
  change (toCaseFolded "<=") with ("<" ++ "=").
  change (toCaseFolded ">") with ">".
  change (toCaseFolded ">=") with (">" ++ "=").
  rewrite !orb_true_iff.
  assert (Hone : forall c, In c [":"; "="; "<"; ">"]%char ->
            contains (String c EmptyString) (toCaseFolded token) = contains_char c token).
  { intros c Hc. now rewrite contains_one_char, contains_char_folded. }
  split.
  - intros H.
    assert (Hany : contains ":" (toCaseFolded token) = true
                   \/ contains "=" (toCaseFolded token) = true
                   \/ contains "<" (toCaseFolded token) = true
                   \/ contains ">" (toCaseFolded token) = true).
    { repeat match goal with
             | H : _ \/ _ |- _ => destruct H as [H|H]
             | H : contains (_ ++ _) _ = true |- _ => apply contains_longer in H
             end; try discriminate; tauto. }
    destruct Hany as [Hc|[Hc|[Hc|Hc]]]; rewrite Hone in Hc by (simpl; tauto).
    + exists ":"%char. simpl; tauto.
    + exists "="%char. simpl; tauto.
    + exists "<"%char. simpl; tauto.
    + exists ">"%char. simpl; tauto.
  - intros [c [Hin Hc]]. rewrite <- (Hone c Hin) in Hc.
    destruct Hin as [<-|[<-|[<-|[<-|[]]]]]; tauto.
Qed.

Lemma opening_quotation_mark_none (value : QString) :
  left1 value <> String dquote EmptyString ->
  opening_quotation_mark value = (value, false, false).
Proof.
  intros Hne. unfold opening_quotation_mark.
  apply String.eqb_neq in Hne. now rewrite Hne.
Qed.

Lemma accumulate_value_unquoted next_tokens : forall value,
  accumulate_value next_tokens false false value
  = (space_joined value (tokens_before_operator next_tokens),
     List.length (tokens_before_operator next_tokens)).
Proof.
  induction next_tokens as [|t next IH]; intros value; [reflexivity|].
  cbn [accumulate_value tokens_before_operator negb andb].
  destruct (ContainsOperators t); [reflexivity|].
  rewrite IH. reflexivity.
Qed.

Lemma skipn_tokens_before_operator tokens :
  skipn (List.length (tokens_before_operator tokens)) tokens = tokens_from_operator tokens.
Proof.
  induction tokens as [|t tokens IH]; [reflexivity|].
  cbn [tokens_before_operator tokens_from_operator].
  destruct (ContainsOperators t); [reflexivity|exact IH].
Qed.

Lemma space_joined_nonempty tokens : forall value,
  value <> EmptyString -> space_joined value tokens <> EmptyString.
Proof.
  induction tokens as [|t tokens IH]; intros value Hne; [exact Hne|].
  apply IH. destruct value; [now elim Hne|discriminate].
Qed.

Section TextValues.

Variable ext : Externals.

(** Tokens that a text value has taken are passed without a look. *)
Lemma parse_tokens_skip tokens : forall skip filterdata_list filter,
  parse_tokens ext tokens skip filterdata_list filter
  = parse_tokens ext (skipn skip tokens) 0 filterdata_list filter.
Proof.
  induction tokens as [|t tokens IH]; intros skip fdl filter.
  - now destruct skip.
  - destruct skip as [|skip']; [reflexivity|].
    cbn [parse_tokens skipn]. apply IH.
Qed.

(** A token of the text branch whose value does not start with a
    quotation mark and holds at most two takes the tokens before the
    first one with an operator into its value. *)
Lemma text_token_takes_tokens token next_tokens filterdata_list filter
    field value :
  text_token token field value ->
  left1 value <> String dquote EmptyString ->
  (count_char dquote value <= 2)%nat ->
  parse_tokens ext (token :: next_tokens) 0 filterdata_list filter
  = parse_tokens ext (tokens_from_operator next_tokens) 0
      (insert field
         (mkFilterData field
            (QVariant_QString (space_joined value (tokens_before_operator next_tokens)))
            EmptyString)
         filterdata_list)
      filter
  /\ forall t, ContainsOperators t = true
               <-> exists c, In c [":"; "="; "<"; ">"]%char /\ contains_char c t = true.
Proof.
  intros [Hcolon [Hfield [Hvalue [Hf [Hv Htext]]]]] Hquote Hcount.
  split; [|exact ContainsOperators_chars].
  cbn [parse_tokens]. unfold token_body.
  rewrite Hcolon, <- Hfield, <- Hvalue.
  pose proof Hf as Hf'. pose proof Hv as Hv'.
  apply isEmpty_false in Hf', Hv'. rewrite Hf', Hv', Htext.
  apply Nat.leb_le in Hcount. rewrite Hcount.
  cbn [orb andb negb].
  rewrite (opening_quotation_mark_none value Hquote).
  rewrite accumulate_value_unquoted.
  assert (Hjoined : isEmpty (space_joined value (tokens_before_operator next_tokens)) = false)
    by (apply isEmpty_false; now apply space_joined_nonempty).
  rewrite Hjoined. cbn [negb].
  rewrite parse_tokens_skip, skipn_tokens_before_operator.
  reflexivity.
Qed.


(** C10 (amended).  A token written as a known text field (in any letter
    case), a colon and a value that does not start with a quotation mark
    and holds at most two of them takes every following token into the
    value of its predicate, each after a space, up to the first token that
    holds an operator character ([:], [=], [<] or [>]), which the loop
    handles next; the tokens taken add nothing to the free text. *)
Theorem unquoted_text_value_takes_tokens (field value : QString)
    (next_tokens : list QString) filterdata_list filter :
  list_contains_ci kTextSearchColumns field = true ->
  contains_char ":"%char value = false -> trimmed value = value ->
  value <> EmptyString ->
  left1 value <> String dquote EmptyString ->
  (count_char dquote value <= 2)%nat ->
  parse_tokens ext ((field ++ ":" ++ value) :: next_tokens) 0 filterdata_list filter
  = parse_tokens ext (tokens_from_operator next_tokens) 0
      (insert field
         (mkFilterData field
            (QVariant_QString (space_joined value (tokens_before_operator next_tokens)))
            EmptyString)
         filterdata_list)
      filter
  /\ forall t, ContainsOperators t = true
               <-> exists c, In c [":"; "="; "<"; ">"]%char /\ contains_char c t = true.
Proof.
  intros Htext Hvc Htv Hne Hquote Hcount.
  apply text_token_takes_tokens; [|exact Hquote|exact Hcount].
  now apply text_token_of_parts.
Qed.

End TextValues.

Lemma unquoted_text_value_takes_tokens_witness :
  parse_tokens sample_externals
    (("title" ++ ":" ++ "let") :: ["it"; "be"; "year>1969"; "live"]) 0 [] EmptyString
  = parse_tokens sample_externals (tokens_from_operator ["it"; "be"; "year>1969"; "live"]) 0
      (insert "title"
         (mkFilterData "title"
            (QVariant_QString
               (space_joined "let" (tokens_before_operator ["it"; "be"; "year>1969"; "live"])))
            EmptyString)
         [])
      EmptyString
  /\ forall t, ContainsOperators t = true
               <-> exists c, In c [":"; "="; "<"; ">"]%char /\ contains_char c t = true.
Proof.
  apply (unquoted_text_value_takes_tokens sample_externals "title" "let"
           ["it"; "be"; "year>1969"; "live"] [] EmptyString).
  - reflexivity.
  - reflexivity.
  - reflexivity.
  - discriminate.
  - discriminate.
  - vm_compute. lia.
Defined.

(** The same filter, evaluated: the value is [let it be], the free text
    is the token after the comparison. *)
Example unquoted_text_value_evaluated :
  ParseFilter sample_externals "title:let it be year>1969 live"
  = ([("title", mkFilterData "title" (QVariant_QString "let it be") EmptyString);
      ("year", mkFilterData "year" (QVariant_Int 1969) ">")],
     "live").
Proof. reflexivity. Qed.

(** C10 as stated fails on a text value with three quotation marks: it
    does not start with one, yet the token gives no predicate, and it goes
    to the free text together with the token after it. *)
Lemma many_quotation_marks_counterexample :
  split_ws (normalize_operators many_quotes_filter) = ["title" ++ ":" ++ many_quotes_value; "xyz"]
  /\ list_contains_ci kTextSearchColumns "title" = true
  /\ contains_char ":"%char many_quotes_value = false
  /\ trimmed many_quotes_value = many_quotes_value
  /\ left1 many_quotes_value <> String dquote EmptyString
  /\ ParseFilter sample_externals many_quotes_filter = ([], many_quotes_filter).
Proof.
  repeat split; try reflexivity. discriminate.
Qed.

(* ================================================================= *)
(** * Further properties of the filter *)

(** ** Rows that are no rows, and filters that ask nothing *)

Lemma IndexToChain_last path : forall item up row,
  IndexToChain item up (path ++ [row])%list
  = match IndexToChain item up path with
    | Some (node :: above) =>
        match nth_error (children node) row with
        | Some child => Some (child :: node :: above)
        | None => None
        end
    | _ => None
    end.
Proof.
  induction path as [|r path IH]; intros i up row; simpl.
  - reflexivity.
  - destruct (nth_error (children i) r) as [c|]; [apply IH|reflexivity].
Qed.

Section Edges.

Variable ext : Externals.


Lemma skip_spaces_blank s :
  forallb regex_space (list_ascii_of_string s) = true -> skip_spaces s = EmptyString.
Proof.
  induction s as [|c s IH]; [reflexivity|]. simpl.
  intros H. apply andb_true_iff in H as [Hc Hs]. rewrite Hc. now apply IH.
Qed.

Lemma replace_around_spaces op0 op' s :
  forallb regex_space (list_ascii_of_string s) = true ->
  replace_around (String op0 op') s 0 = s.
Proof.
  induction s as [|c s IH]; [reflexivity|].
  intros H. pose proof H as H'. simpl in H'. apply andb_true_iff in H' as [Hc Hs].
  cbn [replace_around]. unfold match_op_at.
  rewrite (skip_spaces_blank _ H). cbn [prefix].
  now rewrite (IH Hs).
Qed.

Lemma split_ws_aux_spaces s :
  forallb regex_space (list_ascii_of_string s) = true ->
  split_ws_aux s EmptyString = [].
Proof.
  induction s as [|c s IH]; [reflexivity|]. simpl.
  intros H. apply andb_true_iff in H as [Hc Hs]. rewrite Hc. now apply IH.
Qed.

Lemma remove_char_backslash_blank s :
  blank s = true ->
  forallb regex_space (list_ascii_of_string (remove_char backslash s)) = true.
Proof.
  induction s as [|c s IH]; [reflexivity|].
  cbn [blank remove_char]. intros H. apply andb_true_iff in H as [Hc Hs].
  rewrite Ascii.eqb_sym.
  destruct (Ascii.eqb c backslash) eqn:E; [now apply IH|].
  rewrite orb_false_r in Hc. simpl. now rewrite Hc, (IH Hs).
Qed.

Lemma ParseFilter_spaces s :
  forallb regex_space (list_ascii_of_string s) = true ->
  ParseFilter ext s = ([], EmptyString).
Proof.
  intros H. unfold ParseFilter, normalize_operators. cbn [fold_left].
  do 8 rewrite (replace_around_spaces _ _ s H).
  unfold split_ws. now rewrite split_ws_aux_spaces.
Qed.

(** X2.  A filter that holds nothing but white space (and backslashes,
    which are removed first) asks nothing: every row of the model is
    accepted, as for the empty filter, although the test for an empty
    filter does not catch it. *)
Theorem blank_filter_accepts_every_row
    (model : CollectionModel) (filter_pattern : QString)
    (source_row : Z) (source_parent : list nat) :
  blank filter_pattern = true ->
  (0 <= source_row)%Z ->
  IndexToChain (root model) [] (source_parent ++ [Z.to_nat source_row])%list <> None ->
  filterAcceptsRow ext (Some model) filter_pattern source_row source_parent = true.
Proof.
  intros Hblank Hrow Hchain.
  assert (Hneg : (source_row <? 0)%Z = false) by (apply Z.ltb_ge; exact Hrow).
  unfold filterAcceptsRow. rewrite Hneg.
  destruct (IndexToChain (root model) [] (source_parent ++ [Z.to_nat source_row])%list)
    as [[|item parents]|] eqn:E.
  - now apply IndexToChain_nonempty in E.
  - destruct (ItemType_eqb (type item) Type_LoadingIndicator); [reflexivity|].
    destruct (isEmpty (remove_char backslash filter_pattern)); [reflexivity|].
    rewrite (ParseFilter_spaces _ (remove_char_backslash_blank _ Hblank)).
    reflexivity.
  - now elim Hchain.
Qed.

End Edges.


Lemma blank_filter_accepts_every_row_witness :
  filterAcceptsRow sample_externals (Some c1_model) "   " 0 [0] = true.
Proof.
  apply (blank_filter_accepts_every_row sample_externals c1_model "   " 0 [0]).
  - reflexivity.
  - lia.
  - discriminate.
Defined.

(* ================================================================= *)
(** ** The shape of the accepted rows *)

Section Shape.

Variable ext : Externals.

(** X3.  When a node below the root matches the parsed filter, its own row
    and the row of every node under it, at any depth, are accepted: a
    matching container shows its whole subtree. *)
Theorem rows_under_a_match_are_accepted
    (model : CollectionModel) (filter_pattern : QString)
    (source_row : Z) (source_parent : list nat)
    (under : list CollectionItem) (node : CollectionItem) (above : list CollectionItem) :
  (0 <= source_row)%Z ->
  IndexToChain (root model) [] (source_parent ++ [Z.to_nat source_row])%list
  = Some ((under ++ node :: above) ++ [root model])%list ->
  type (root model) = Type_Root ->
  below_root (under ++ node :: above)%list ->
  ItemMatchesFilter ext model node
    (fst (ParseFilter ext (remove_char backslash filter_pattern)))
    (snd (ParseFilter ext (remove_char backslash filter_pattern))) = true ->
  filterAcceptsRow ext (Some model) filter_pattern source_row source_parent = true.
Proof.
  intros Hrow Hchain Hroot Hbelow Hmatch.
  destruct under as [|item under].
  - apply (filterAcceptsRow_cases ext model filter_pattern source_row source_parent
             node above Hrow Hchain Hroot Hbelow).
    right. left. exact Hmatch.
  - apply (filterAcceptsRow_cases ext model filter_pattern source_row source_parent
             item (under ++ node :: above)%list Hrow Hchain Hroot Hbelow).
    right. right. left. exists node. split; [|exact Hmatch].
    apply in_or_app. right. now left.
Qed.

(** X4.  The accepted rows are closed upwards: when the row of a node that
    is no LoadingIndicator is accepted, the row of its parent is accepted
    too, so that an accepted row is never hidden behind a refused
    parent. *)
Theorem parent_of_accepted_row_is_accepted
    (model : CollectionModel) (filter_pattern : QString)
    (source_row parent_row : Z) (grandparent : list nat)
    (item parent : CollectionItem) (above : list CollectionItem) :
  (0 <= source_row)%Z -> (0 <= parent_row)%Z ->
  IndexToChain (root model) []
    ((grandparent ++ [Z.to_nat parent_row]) ++ [Z.to_nat source_row])%list
  = Some (item :: (parent :: above) ++ [root model])%list ->
  type (root model) = Type_Root ->
  below_root (item :: parent :: above) ->
  type item <> Type_LoadingIndicator ->
  filterAcceptsRow ext (Some model) filter_pattern source_row
    (grandparent ++ [Z.to_nat parent_row])%list = true ->
  filterAcceptsRow ext (Some model) filter_pattern parent_row grandparent = true.
Proof.
  intros Hrow Hprow Hchain Hroot Hbelow Hnot Haccepted.
  assert (Hparent :
    IndexToChain (root model) [] (grandparent ++ [Z.to_nat parent_row])%list
    = Some (parent :: above ++ [root model])%list
    /\ In item (children parent)).
  { rewrite IndexToChain_last in Hchain.
    destruct (IndexToChain (root model) [] (grandparent ++ [Z.to_nat parent_row])%list)
      as [[|node up]|]; try discriminate.
    destruct (nth_error (children node) (Z.to_nat source_row)) as [c|] eqn:Hnth;
      [|discriminate].
    injection Hchain as -> -> ->.
    split; [reflexivity|]. now apply nth_error_In in Hnth. }
  destruct Hparent as [Hparent Hchild].
  apply (filterAcceptsRow_cases ext model filter_pattern source_row _ item
           (parent :: above) Hrow Hchain Hroot Hbelow) in Haccepted.
  apply (filterAcceptsRow_cases ext model filter_pattern parent_row grandparent
           parent above Hprow Hparent Hroot).
  { intros a Ha. apply Hbelow. now right. }
  right.
  destruct Haccepted as [Hload|[Hitem|[[a [[<-|Ha] Hm]]|[d [Hd Hm]]]]].
  - now elim Hnot.
  - right; right. exists item. split; [now apply Descendant_child|exact Hitem].
  - left. exact Hm.
  - right; left. now exists a.
  - right; right. exists d. split; [|exact Hm].
    now apply Descendant_deeper with (child := item).
Qed.

End Shape.

Lemma rows_under_a_match_are_accepted_witness :
  filterAcceptsRow sample_externals (Some c1_model) "artist:beatles" 0 [0] = true.
Proof.
  apply (rows_under_a_match_are_accepted sample_externals c1_model "artist:beatles" 0 [0]
           [song_item (sample_song "Come Together" 1969 259)]
           (artist_item [song_item (sample_song "Come Together" 1969 259)]) []).
  - lia.
  - reflexivity.
  - reflexivity.
  - intros a [<-|[<-|[]]]; discriminate.
  - reflexivity.
Defined.

Lemma parent_of_accepted_row_is_accepted_witness :
  filterAcceptsRow sample_externals (Some c1_model) "title:come" 0 [] = true.
Proof.
  apply (parent_of_accepted_row_is_accepted sample_externals c1_model "title:come" 0 0 []
           (song_item (sample_song "Come Together" 1969 259))
           (artist_item [song_item (sample_song "Come Together" 1969 259)]) []).
  - lia.
  - lia.
  - reflexivity.
  - reflexivity.
  - intros a [<-|[<-|[]]]; discriminate.
  - discriminate.
  - reflexivity.
Defined.

(* ================================================================= *)
(** ** What the tokenizer keeps *)

Lemma string_length_append (a b : QString) :
  String.length (a ++ b) = String.length a + String.length b.
Proof. induction a as [|x a IH]; simpl; [reflexivity|now rewrite IH]. Qed.

Lemma drop_append (a b : QString) : drop (String.length a) (a ++ b) = b.
Proof. induction a as [|x a IH]; simpl; [now destruct b|exact IH]. Qed.

Lemma without_spaces_append (a b : QString) :
  without_spaces (a ++ b) = without_spaces a ++ without_spaces b.
Proof.
  induction a as [|x a IH]; simpl; [reflexivity|].
  rewrite IH. now destruct (regex_space x).
Qed.

(** The white space that [skip_spaces] passes. *)
Lemma skip_spaces_split s :
  exists spaces, s = spaces ++ skip_spaces s /\ without_spaces spaces = EmptyString.
Proof.
  induction s as [|c s [spaces [Hs Hw]]]; simpl.
  - now exists EmptyString.
  - destruct (regex_space c) eqn:Hc.
    + exists (String c spaces). simpl. rewrite Hc. split; [now rewrite <- Hs|exact Hw].
    + now exists EmptyString.
Qed.

Lemma without_spaces_skip_spaces s : without_spaces (skip_spaces s) = without_spaces s.
Proof.
  induction s as [|c s IH]; simpl; [reflexivity|].
  destruct (regex_space c) eqn:Hc; [exact IH|]. simpl. now rewrite Hc.
Qed.

(** A match of [\s*OP\s*] covers white space and the operator, nothing
    else. *)
Lemma match_op_at_covers op s n :
  without_spaces op = op ->
  match_op_at op s = Some n ->
  without_spaces s = op ++ without_spaces (drop n s)
  /\ (String.length op <= n)%nat.
Proof.
  intros Hop. unfold match_op_at.
  destruct (prefix op (skip_spaces s)) eqn:Hprefix; [|discriminate].
  intros H. injection H as <-.
  apply prefix_append in Hprefix as [rest Hrest].
  destruct (skip_spaces_split s) as [w1 [Hs Hw1]].
  destruct (skip_spaces_split rest) as [w2 [Hr Hw2]].
  rewrite Hrest, drop_append.
  set (tail := skip_spaces rest) in *.
  assert (Hwhole : s = (w1 ++ op ++ w2) ++ tail).
  { rewrite Hs at 1. rewrite Hrest, Hr at 1. now rewrite !append_assoc. }
  assert (Hn : String.length s - String.length tail = String.length (w1 ++ op ++ w2)).
  { rewrite Hwhole at 1. rewrite string_length_append. lia. }
  rewrite Hn. split.
  - rewrite Hwhole at 2. rewrite drop_append.
    rewrite Hwhole at 1. rewrite !without_spaces_append, Hw1, Hw2, Hop.
    simpl. now rewrite append_empty_r.
  - rewrite !string_length_append. lia.
Qed.

(** A pass of the normalization removes white space only. *)
Lemma without_spaces_replace_around op0 op' s : forall skip,
  without_spaces (String op0 op') = String op0 op' ->
  without_spaces (replace_around (String op0 op') s skip) = without_spaces (drop skip s).
Proof.
  induction s as [|c s IH]; intros skip Hop.
  - now destruct skip.
  - destruct skip as [|k]; [|exact (IH k Hop)].
    cbn [replace_around drop].
    destruct (match_op_at (String op0 op') (String c s)) as [n|] eqn:Hmatch.
    + destruct (match_op_at_covers _ _ _ Hop Hmatch) as [Hcover Hlen].
      rewrite without_spaces_append, Hop, (IH (n - 1) Hop), Hcover.
      destruct n as [|n]; [simpl in Hlen; lia|].
      simpl. now rewrite Nat.sub_0_r.
    + cbn [without_spaces]. rewrite (IH 0 Hop). reflexivity.
Qed.

Lemma without_spaces_normalize_operators s :
  without_spaces (normalize_operators s) = without_spaces s.
Proof.
  unfold normalize_operators. cbn [fold_left].
  repeat (rewrite without_spaces_replace_around by reflexivity; cbn [drop]).
  reflexivity.
Qed.

Lemma concat_cons (x : QString) (l : list QString) :
  String.concat EmptyString (x :: l) = x ++ String.concat EmptyString l.
Proof. destruct l; simpl; [now rewrite append_empty_r|reflexivity]. Qed.

Lemma without_spaces_snoc s c :
  regex_space c = false ->
  without_spaces (s ++ String c EmptyString) = without_spaces s ++ String c EmptyString.
Proof. intros Hc. rewrite without_spaces_append. simpl. now rewrite Hc. Qed.

Lemma split_ws_aux_content s : forall cur,
  String.concat EmptyString (split_ws_aux s cur) = cur ++ without_spaces s.
Proof.
  induction s as [|c s IH]; intros cur; cbn [split_ws_aux without_spaces].
  - destruct cur; simpl; [reflexivity|now rewrite append_empty_r].
  - destruct (regex_space c).
    + destruct cur as [|x cur]; cbn [isEmpty].
      * apply IH.
      * rewrite concat_cons, IH. reflexivity.
    + rewrite IH, append_assoc. reflexivity.
Qed.

Lemma split_ws_aux_tokens s : forall cur,
  without_spaces cur = cur ->
  Forall (fun token => token <> EmptyString /\ without_spaces token = token)
         (split_ws_aux s cur).
Proof.
  induction s as [|c s IH]; intros cur Hcur; cbn [split_ws_aux].
  - destruct cur; cbn [isEmpty]; constructor; [split; [discriminate|exact Hcur]|constructor].
  - destruct (regex_space c) eqn:Hc.
    + destruct cur as [|x cur]; cbn [isEmpty].
      * now apply IH.
      * constructor; [split; [discriminate|exact Hcur]|now apply IH].
    + apply IH. now rewrite without_spaces_snoc, Hcur.
Qed.

(** X5.  Normalizing the operators and cutting the filter into tokens
    loses nothing but white space: the tokens, put end to end, are the
    filter without its white space, and every token is non-empty and free
    of white space. *)
Theorem tokens_keep_all_but_spaces (filter : QString) :
  String.concat EmptyString (split_ws (normalize_operators filter)) = without_spaces filter
  /\ Forall (fun token => token <> EmptyString /\ without_spaces token = token)
            (split_ws (normalize_operators filter)).
Proof.
  split.
  - unfold split_ws. rewrite split_ws_aux_content. cbn [append].
    apply without_spaces_normalize_operators.
  - apply split_ws_aux_tokens. reflexivity.
Qed.

(* ================================================================= *)
(** ** The shape of the parse *)

Lemma fold_append_token_join (kept : list QString) : forall filter : QString,
  filter <> EmptyString ->
  Forall (fun token : QString => token <> EmptyString) kept ->
  fold_left append_token kept filter = join " " (filter :: kept).
Proof.
  induction kept as [|k kept IH]; intros filter Hf Hk; [reflexivity|].
  inversion Hk as [|? ? Hk1 Hk2]; subst.
  cbn [fold_left].
  assert (Happ : append_token filter k = filter ++ " " ++ k).
  { unfold append_token. destruct filter; [now elim Hf|].
    cbn [isEmpty negb]. now rewrite append_assoc. }
  rewrite Happ, IH; [|destruct filter; [now elim Hf|discriminate]|exact Hk2].
  destruct kept as [|x kept]; [reflexivity|].
  change (join " " ((filter ++ " " ++ k) :: x :: kept))
    with ((filter ++ " " ++ k) ++ " " ++ join " " (x :: kept)).
  change (join " " (filter :: k :: x :: kept))
    with (filter ++ " " ++ k ++ " " ++ join " " (x :: kept)).
  now rewrite !append_assoc.
Qed.

Lemma subsequence_Forall {A : Type} (P : A -> Prop) (kept l : list A) :
  subsequence kept l -> Forall P l -> Forall P kept.
Proof.
  induction 1 as [|x kept l _ IH|x kept l _ IH]; intros Hl.
  - constructor.
  - inversion Hl; subst. now apply IH.
  - inversion Hl; subst. constructor; [assumption|now apply IH].
Qed.

Lemma operator_regex_match_captured token foperator :
  operator_regex_match token = Some foperator -> In foperator captured_operators.
Proof.
  induction token as [|c token IH]; [discriminate|].
  cbn [operator_regex_match].
  destruct (Ascii.eqb c "=").
  { intros H. injection H as <-. simpl; tauto. }
  destruct (Ascii.eqb c "<") eqn:Hlt.
  { apply Ascii.eqb_eq in Hlt. subst c.
    destruct token as [|d token]; [intros H; injection H as <-; simpl; tauto|].
    destruct (Ascii.eqb d ">") eqn:Hd.
    { apply Ascii.eqb_eq in Hd. subst d. intros H. injection H as <-. simpl; tauto. }
    destruct (Ascii.eqb d "=") eqn:He.
    { apply Ascii.eqb_eq in He. subst d. intros H. injection H as <-. simpl; tauto. }
    intros H. injection H as <-. simpl; tauto. }
  destruct (Ascii.eqb c ">").
  { destruct token as [|d token]; [intros H; injection H as <-; simpl; tauto|].
    destruct (Ascii.eqb d "="); intros H; injection H as <-; simpl; tauto. }
  destruct (Ascii.eqb c "!"); [|exact IH].
  destruct token as [|d token]; [discriminate|].
  destruct (Ascii.eqb d "="); [|exact IH].
  intros H. injection H as <-. simpl; tauto.
Qed.

Lemma insert_parsed key data filterdata_list :
  parsed_predicate (key, data) ->
  Forall parsed_predicate filterdata_list ->
  Forall parsed_predicate (insert key data filterdata_list).
Proof.
  intros Hnew Hall.
  induction filterdata_list as [|[k d] m IH]; cbn [insert].
  - constructor; [exact Hnew|constructor].
  - inversion Hall as [|x xs Hx Hm]; subst.
    destruct (String.eqb key k).
    + constructor; assumption.
    + destruct (String.ltb key k).
      * constructor; assumption.
      * constructor; [exact Hx|now apply IH].
Qed.

Section ParseShape.

Variable ext : Externals.

Lemma parse_tokens_kept tokens : forall skip filterdata_list filter,
  exists kept,
    subsequence kept tokens
    /\ snd (parse_tokens ext tokens skip filterdata_list filter)
       = fold_left append_token kept filter.
Proof.
  induction tokens as [|token next IH]; intros skip fdl filter; cbn [parse_tokens].
  - exists []. split; [constructor|reflexivity].
  - destruct skip as [|skip'].
    + destruct (token_body ext token next fdl) as [fdl' taken|fdl'].
      * destruct (IH taken fdl' filter) as [kept [Hsub Hsnd]].
        exists kept. split; [now constructor|exact Hsnd].
      * destruct (IH 0 fdl' (append_token filter token)) as [kept [Hsub Hsnd]].
        exists (token :: kept). split; [now constructor|exact Hsnd].
    + destruct (IH skip' fdl filter) as [kept [Hsub Hsnd]].
      exists kept. split; [now constructor|exact Hsnd].
Qed.

(** X6.  The residual free text is made of whole tokens of the filter, in
    their order, with one space between them: tokens are dropped or kept,
    never altered or reordered. *)
Theorem free_text_is_kept_tokens (filter : QString) :
  exists kept,
    subsequence kept (split_ws (normalize_operators filter))
    /\ snd (ParseFilter ext filter) = join " " kept.
Proof.
  unfold ParseFilter.
  destruct (parse_tokens_kept (split_ws (normalize_operators filter)) 0 [] EmptyString)
    as [kept [Hsub Hsnd]].
  exists kept. split; [exact Hsub|]. rewrite Hsnd.
  assert (Hkept : Forall (fun token : QString => token <> EmptyString) kept).
  { apply (subsequence_Forall _ _ _ Hsub).
    eapply Forall_impl; [|apply (split_ws_aux_tokens (normalize_operators filter) EmptyString)].
    - intros token [Hne _]. exact Hne.
    - reflexivity. }
  destruct kept as [|k kept]; [reflexivity|].
  inversion Hkept as [|? ? Hk Hrest]; subst.
  cbn [fold_left]. change (append_token EmptyString k) with k.
  now apply fold_append_token_join.
Qed.

Lemma token_body_parsed token next_tokens filterdata_list :
  Forall parsed_predicate filterdata_list ->
  Forall parsed_predicate
         (exit_filterdata_list (token_body ext token next_tokens filterdata_list)).
Proof.
  intros Hall. unfold token_body.
  destruct (contains_char ":" token).
  - set (field := trimmed (remove_char ":" (section ":" 0 0 token))).
    set (value := trimmed (remove_char ":" (section ":" 1 (-1) token))).
    destruct (isEmpty field || isEmpty value); [exact Hall|].
    destruct (list_contains_ci kTextSearchColumns field
              && (count_char dquote value <=? 2)%nat) eqn:Htext; [|exact Hall].
    apply andb_true_iff in Htext as [Htext _].
    destruct (opening_quotation_mark value) as [[v qs] qe].
    destruct (accumulate_value next_tokens qs qe v) as [v' taken].
    destruct (negb (isEmpty field) && negb (isEmpty v')) eqn:Hne; [|exact Hall].
    apply andb_true_iff in Hne as [_ Hv]. apply negb_true_iff, isEmpty_false in Hv.
    cbn [exit_filterdata_list]. apply insert_parsed; [|exact Hall].
    split; [reflexivity|]. cbn. repeat split; assumption.
  - destruct (operator_regex_match token) as [op|] eqn:Hop; [|exact Hall].
    apply operator_regex_match_captured in Hop.
    set (field := trimmed (remove op (section op 0 0 token))).
    set (value := trimmed (remove op (section op 1 (-1) token))).
    destruct (isEmpty value); [exact Hall|].
    destruct (list_contains_ci kNumericalSearchColumns field); [|exact Hall].
    destruct (list_contains_ci kIntSearchColumns field) eqn:Hint.
    { destruct (Qt.toInt value); [|exact Hall].
      cbn [exit_filterdata_list]. apply insert_parsed; [|exact Hall].
      split; [reflexivity|]. cbn. split; assumption. }
    destruct (list_contains_ci kUIntSearchColumns field) eqn:Huint.
    { destruct (Qt.toUInt value); [|exact Hall].
      cbn [exit_filterdata_list]. apply insert_parsed; [|exact Hall].
      split; [reflexivity|]. cbn. split; assumption. }
    destruct (equals_ci field "length") eqn:Hlength.
    { cbn [exit_filterdata_list]. apply insert_parsed; [|exact Hall].
      split; [reflexivity|]. cbn. split; assumption. }
    destruct (equals_ci field "rating") eqn:Hrating; [|exact Hall].
    cbn [exit_filterdata_list]. apply insert_parsed; [|exact Hall].
    split; [reflexivity|]. cbn. split; assumption.
Qed.

Lemma parse_tokens_parsed tokens : forall skip filterdata_list filter,
  Forall parsed_predicate filterdata_list ->
  Forall parsed_predicate (fst (parse_tokens ext tokens skip filterdata_list filter)).
Proof.
  induction tokens as [|token next IH]; intros skip fdl filter Hall; cbn [parse_tokens].
  - exact Hall.
  - destruct skip as [|skip']; [|now apply IH].
    pose proof (token_body_parsed token next fdl Hall) as Hbody.
    destruct (token_body ext token next fdl); cbn [exit_filterdata_list] in Hbody;
      now apply IH.
Qed.

(** X7.  Every predicate of a parsed filter is stored under its own field
    name; a text predicate has a non-empty value, no operator and a text
    column as field; a numerical predicate has one of the operators [=],
    [<>], [<=], [<], [>=], [>], [!=] (never [==]) and a column of its
    type as field; no predicate holds an invalid value. *)
Theorem parsed_predicates_shape (filter : QString) :
  Forall parsed_predicate (fst (ParseFilter ext filter)).
Proof. unfold ParseFilter. apply parse_tokens_parsed. constructor. Qed.

End ParseShape.

(* ================================================================= *)
(** ** Operators: captured, compared, looked for *)

(** X8.  Every operator the regular expression of the comparison branch
    can capture is one that [FieldNumericalValueMatchesData] compares
    with, and the comparison has the arithmetic meaning of the operator
    ([data] is the field of the record, [value] the number of the token):
    no captured operator reaches the final [return false]. *)
Theorem captured_operator_is_compared token foperator (value data : Z) :
  operator_regex_match token = Some foperator ->
  (foperator = "="
   /\ (FieldNumericalValueMatchesData value foperator data = true <-> data = value))
  \/ ((foperator = "<>" \/ foperator = "!=")
      /\ (FieldNumericalValueMatchesData value foperator data = true <-> data <> value))
  \/ (foperator = "<"
      /\ (FieldNumericalValueMatchesData value foperator data = true <-> (data < value)%Z))
  \/ (foperator = "<="
      /\ (FieldNumericalValueMatchesData value foperator data = true <-> (data <= value)%Z))
  \/ (foperator = ">"
      /\ (FieldNumericalValueMatchesData value foperator data = true <-> (data > value)%Z))
  \/ (foperator = ">="
      /\ (FieldNumericalValueMatchesData value foperator data = true <-> (data >= value)%Z)).
Proof.
  intros Hop. apply operator_regex_match_captured in Hop.
  unfold captured_operators in Hop.
  destruct Hop as [<-|[<-|[<-|[<-|[<-|[<-|[<-|[]]]]]]]];
    unfold FieldNumericalValueMatchesData; cbn [String.eqb Ascii.eqb Bool.eqb orb cmp_eq cmp_lt cmp_le Comparable_Z].
  - left. split; [reflexivity|apply Z.eqb_eq].
  - right; left. split; [now left|].
    rewrite negb_true_iff. apply Z.eqb_neq.
  - do 3 right. left. split; [reflexivity|apply Z.leb_le].
  - do 2 right. left. split; [reflexivity|apply Z.ltb_lt].
  - do 5 right. split; [reflexivity|]. rewrite Z.leb_le. lia.
  - do 4 right. left. split; [reflexivity|]. rewrite Z.ltb_lt. lia.
  - right; left. split; [now right|].
    rewrite negb_true_iff. apply Z.eqb_neq.
Qed.

Lemma captured_operator_is_compared_witness :
  ((">=" : QString) = "="
   /\ (FieldNumericalValueMatchesData 1970%Z ">=" 1975%Z = true <-> 1975%Z = 1970%Z))
  \/ (((">=" : QString) = "<>" \/ (">=" : QString) = "!=")
      /\ (FieldNumericalValueMatchesData 1970%Z ">=" 1975%Z = true <-> 1975%Z <> 1970%Z))
  \/ ((">=" : QString) = "<"
      /\ (FieldNumericalValueMatchesData 1970%Z ">=" 1975%Z = true <-> (1975 < 1970)%Z))
  \/ ((">=" : QString) = "<="
      /\ (FieldNumericalValueMatchesData 1970%Z ">=" 1975%Z = true <-> (1975 <= 1970)%Z))
  \/ ((">=" : QString) = ">"
      /\ (FieldNumericalValueMatchesData 1970%Z ">=" 1975%Z = true <-> (1975 > 1970)%Z))
  \/ ((">=" : QString) = ">="
      /\ (FieldNumericalValueMatchesData 1970%Z ">=" 1975%Z = true <-> (1975 >= 1970)%Z)).
Proof.
  apply (captured_operator_is_compared "year>=1970" ">=" 1970%Z 1975%Z).
  reflexivity.
Defined.

Lemma operator_regex_match_chars token :
  match operator_regex_match token with Some _ => true | None => false end
  = contains_char "="%char token || contains_char "<"%char token
    || contains_char ">"%char token.
Proof.
  induction token as [|c token IH]; [reflexivity|].
  cbn [operator_regex_match contains_char].
  rewrite (Ascii.eqb_sym "="%char c), (Ascii.eqb_sym "<"%char c), (Ascii.eqb_sym ">"%char c).
  destruct (Ascii.eqb c "=") eqn:Eeq; [reflexivity|].
  destruct (Ascii.eqb c "<") eqn:Elt.
  { cbn [orb]. rewrite orb_true_r.
    destruct token as [|d token]; [reflexivity|].
    destruct (Ascii.eqb d ">" || Ascii.eqb d "="); reflexivity. }
  destruct (Ascii.eqb c ">") eqn:Egt.
  { cbn [orb]. rewrite orb_true_r.
    destruct token as [|d token]; [reflexivity|].
    destruct (Ascii.eqb d "="); reflexivity. }
  cbn [orb].
  destruct (Ascii.eqb c "!"); [|exact IH].
  destruct token as [|d token]; [reflexivity|].
  destruct (Ascii.eqb d "=") eqn:Ed; [|exact IH].
  cbn [contains_char]. rewrite (Ascii.eqb_sym "="%char d), Ed. reflexivity.
Qed.

(** X9.  [ContainsOperators], which ends a text value without quotation
    marks, answers yes exactly on the tokens that the loop body takes into
    its colon branch or its comparison branch. *)
Theorem ContainsOperators_is_branch_test (token : QString) :
  ContainsOperators token
  = contains_char ":"%char token
    || match operator_regex_match token with Some _ => true | None => false end.
Proof.
  rewrite operator_regex_match_chars.
  apply eq_true_iff_eq. rewrite ContainsOperators_chars, !orb_true_iff.
  split.
  - intros [c [Hin Hc]]. destruct Hin as [<-|[<-|[<-|[<-|[]]]]]; tauto.
  - intros [H|[[H|H]|H]].
    + exists ":"%char. simpl; tauto.
    + exists "="%char. simpl; tauto.
    + exists "<"%char. simpl; tauto.
    + exists ">"%char. simpl; tauto.
Qed.

(* ================================================================= *)
(** ** Tokens without a field or a value *)

Lemma section_first sep s a l :
  split sep s = (a :: l)%list -> section sep 0 0 s = a.
Proof.
  intros H. unfold section. rewrite H.
  assert (Hn : (0 >=? Z.of_nat (List.length (a :: l)))%Z = false).
  { rewrite Z.geb_leb. apply Z.leb_gt. cbn [List.length]. lia. }
  cbn [Z.ltb Z.compare]. rewrite Hn. reflexivity.
Qed.

(** A plain field followed by a comparison operator and nothing else: the
    comparison branch finds an empty value. *)
Lemma comparison_token_without_value field op :
  plain field = true -> In op comparison_operators ->
  contains_char ":"%char (field ++ op) = false
  /\ exists foperator,
       operator_regex_match (field ++ op) = Some foperator
       /\ trimmed (remove foperator (section foperator 1 (-1) (field ++ op))) = EmptyString.
Proof.
  intros Hf Hop.
  pose proof (plain_lacks_operator_char ":"%char field Hf eq_refl) as Hfc.
  pose proof (plain_lacks_operator_char "="%char field Hf eq_refl) as Hfe.
  pose proof (plain_lacks_operator_char "<"%char field Hf eq_refl) as Hfl.
  pose proof (plain_lacks_operator_char ">"%char field Hf eq_refl) as Hfg.
  pose proof (plain_lacks_operator_char "!"%char field Hf eq_refl) as Hfb.
  assert (Hshape : forall foperator,
            contains_char ":"%char op = false ->
            operator_regex_match op = Some foperator ->
            split foperator (field ++ op) = [field; EmptyString] ->
            remove foperator EmptyString = EmptyString ->
            contains_char ":"%char (field ++ op) = false
            /\ exists foperator,
                 operator_regex_match (field ++ op) = Some foperator
                 /\ trimmed (remove foperator (section foperator 1 (-1) (field ++ op)))
                    = EmptyString).
  { intros foperator Hoc Hre Hsplit Hrm. split.
    - now rewrite contains_char_append, Hfc, Hoc.
    - exists foperator. rewrite (operator_regex_match_plain _ _ Hf). split; [exact Hre|].
      destruct (section_of_two _ _ _ _ Hsplit) as [_ ->]. now rewrite Hrm. }
  unfold comparison_operators in Hop.
  destruct Hop as [<-|[<-|[<-|[<-|[<-|[<-|[<-|[<-|[]]]]]]]]].
  - apply (Hshape "="); try reflexivity.
    rewrite (split_field_first _ _ _ _ Hfe). cbn [append].
    now rewrite split_aux_at_char.
  - split; [now rewrite contains_char_append, Hfc|].
    exists "=". rewrite (operator_regex_match_plain _ _ Hf). split; [reflexivity|].
    assert (Hsplit : split "=" (field ++ "==") = [field; EmptyString; EmptyString]).
    { rewrite (split_field_first _ _ _ _ Hfe). cbn [append].
      now rewrite !split_aux_at_char. }
    destruct (section_of_three _ _ _ _ _ Hsplit) as [_ ->]. reflexivity.
  - apply (Hshape "<>"); try reflexivity.
    rewrite (split_field_first _ _ _ _ Hfl). cbn [append].
    now rewrite split_aux_at_pair.
  - apply (Hshape "<"); try reflexivity.
    rewrite (split_field_first _ _ _ _ Hfl). cbn [append].
    now rewrite split_aux_at_char.
  - apply (Hshape "<="); try reflexivity.
    rewrite (split_field_first _ _ _ _ Hfl). cbn [append].
    now rewrite split_aux_at_pair.
  - apply (Hshape ">"); try reflexivity.
    rewrite (split_field_first _ _ _ _ Hfg). cbn [append].
    now rewrite split_aux_at_char.
  - apply (Hshape ">="); try reflexivity.
    rewrite (split_field_first _ _ _ _ Hfg). cbn [append].
    now rewrite split_aux_at_pair.
  - apply (Hshape "!="); try reflexivity.
    rewrite (split_field_first _ _ _ _ Hfb). cbn [append].
    now rewrite split_aux_at_pair.
Qed.

Section Incomplete.

Variable ext : Externals.

(** X10.  A token that starts with a colon, a token that ends with its
    only colon, and a plain field followed by a comparison operator and
    nothing else are dropped: the loop goes on with the same predicate set
    and the same free text, as if the token had not been typed. *)
Theorem incomplete_token_is_dropped (token : QString) (next_tokens : list QString)
    filterdata_list filter :
  (exists rest : QString, token = ":" ++ rest)
  \/ (exists field : QString, contains_char ":"%char field = false /\ token = field ++ ":")
  \/ (exists field op : QString,
        plain field = true /\ In op comparison_operators /\ token = field ++ op) ->
  parse_tokens ext (token :: next_tokens) 0 filterdata_list filter
  = parse_tokens ext next_tokens 0 filterdata_list filter.
Proof.
  intros [[rest ->]|[[field [Hfc ->]]|[field [op [Hf [Hop ->]]]]]];
    cbn [parse_tokens]; unfold token_body.
  - cbn [append contains_char Ascii.eqb Bool.eqb orb].
    assert (Hsplit : split ":" (String ":" rest)
                     = (EmptyString :: split_aux ":" rest 0 EmptyString)%list).
    { unfold split. cbn [isEmpty]. apply split_aux_at_char. }
    rewrite (section_first _ _ _ _ Hsplit). reflexivity.
  - assert (Hsplit : split ":" (field ++ ":") = [field; EmptyString]).
    { rewrite (split_field_first _ _ _ _ Hfc). now rewrite split_aux_at_char. }
    destruct (section_of_two _ _ _ _ Hsplit) as [_ ->].
    rewrite contains_char_append, Hfc.
    cbn [contains_char Ascii.eqb Bool.eqb orb remove_char trimmed trim_left trim_right isEmpty].
    rewrite orb_true_r. reflexivity.
  - destruct (comparison_token_without_value field op Hf Hop)
      as [Hcolon [foperator [Hre Hvalue]]].
    rewrite Hcolon, Hre, Hvalue. reflexivity.
Qed.

(** A comparison token on [length] always gives a predicate. *)
Lemma length_token_body token next_tokens filterdata_list field foperator value :
  comparison_token token field foperator value ->
  equals_ci field "length" = true ->
  token_body ext token next_tokens filterdata_list
  = exit_continue
      (insert field
         (mkFilterData field
            (QVariant_LongLong (ParseSearchTime ext value * kNsecPerSec)%Z) foperator)
         filterdata_list) 0.
Proof.
  intros [Hcolon [Hop [Hfield [Hvalue Hne]]]] Hlength.
  unfold token_body. rewrite Hcolon, Hop, <- Hfield, <- Hvalue.
  apply isEmpty_false in Hne. rewrite Hne.
  assert (Hfold : toCaseFolded field = "length")
    by (apply String.eqb_eq in Hlength; exact Hlength).
  rewrite !list_contains_ci_folded. unfold equals_ci. rewrite Hfold.
  reflexivity.
Qed.

(** X11.  A token written as the field [length] (in any letter case), a
    comparison operator and a plain value always gives a predicate,
    whatever the value: the result of [ParseSearchTime] is stored
    unchecked, times the nanoseconds of a second, and the token never
    reaches the free text (an int or unsigned field, whose conversion is
    checked, differs). *)
Theorem length_token_is_always_a_predicate (field op value : QString)
    (next_tokens : list QString) filterdata_list filter :
  equals_ci field "length" = true ->
  In op comparison_operators ->
  plain value = true -> value <> EmptyString ->
  parse_tokens ext ((field ++ op ++ value) :: next_tokens) 0 filterdata_list filter
  = parse_tokens ext next_tokens 0
      (insert field
         (mkFilterData field
            (QVariant_LongLong (ParseSearchTime ext value * kNsecPerSec)%Z)
            (captured_operator op))
         filterdata_list)
      filter.
Proof.
  intros Hlength Hop Hv Hne.
  assert (Hf : plain field = true).
  { apply plain_of_letters. apply String.eqb_eq in Hlength.
    change (toCaseFolded "length") with "length" in Hlength.
    now rewrite Hlength. }
  cbn [parse_tokens].
  rewrite (length_token_body _ next_tokens filterdata_list field (captured_operator op) value);
    [reflexivity|now apply comparison_token_of_parts|exact Hlength].
Qed.

End Incomplete.

Lemma incomplete_token_is_dropped_witness :
  parse_tokens sample_externals ["year>"; "abbey"] 0 [] EmptyString
  = parse_tokens sample_externals ["abbey"] 0 [] EmptyString.
Proof.
  apply (incomplete_token_is_dropped sample_externals "year>" ["abbey"] [] EmptyString).
  right; right. exists "year", ">".
  split; [reflexivity|]. split; [simpl; tauto|reflexivity].
Defined.

Lemma length_token_is_always_a_predicate_witness :
  parse_tokens sample_externals [("Length" ++ ">" ++ "abc")%string; "abbey"] 0 [] EmptyString
  = parse_tokens sample_externals ["abbey"] 0
      (insert "Length"
         (mkFilterData "Length"
            (QVariant_LongLong (ParseSearchTime sample_externals "abc" * kNsecPerSec)%Z)
            (captured_operator ">"))
         [])
      EmptyString.
Proof.
  apply (length_token_is_always_a_predicate sample_externals "Length" ">" "abc" ["abbey"]
           [] EmptyString).
  - reflexivity.
  - simpl; tauto.
  - reflexivity.
  - discriminate.
Defined.

(* ================================================================= *)
(** ** Text values in quotation marks *)

Lemma count_char_lacking c s : contains_char c s = false -> count_char c s = 0.
Proof.
  induction s as [|d s IH]; [reflexivity|].
  cbn [contains_char count_char]. intros H.
  apply orb_false_iff in H as [Hd Hs]. now rewrite Hd, (IH Hs).
Qed.

Lemma opening_quotation_mark_open (v : QString) :
  contains_char dquote v = false ->
  opening_quotation_mark (String dquote v) = (v, true, false).
Proof.
  intros Hv. unfold opening_quotation_mark. cbn [left1 remove_first].
  rewrite String.eqb_refl, (count_char_lacking _ _ Hv).
  cbn [Nat.eqb]. now rewrite andb_false_r.
Qed.

(** After an opening quotation mark, tokens without a quotation mark are
    taken one and all. *)
Lemma accumulate_value_open next_tokens : forall value,
  Forall (fun token : QString => contains_char dquote token = false) next_tokens ->
  accumulate_value next_tokens true false value
  = (space_joined value next_tokens, List.length next_tokens).
Proof.
  induction next_tokens as [|t next IH]; intros value Hall; [reflexivity|].
  inversion Hall as [|? ? Ht Hnext]; subst.
  cbn [accumulate_value negb andb space_joined List.length]. rewrite Ht.
  cbv beta iota zeta. rewrite (IH _ Hnext). reflexivity.
Qed.

(** The token with the closing quotation mark is cut at the mark and ends
    the value. *)
Lemma accumulate_value_closed mids (w tail : QString) rest : forall value,
  Forall (fun token : QString => contains_char dquote token = false) mids ->
  contains_char dquote w = false ->
  accumulate_value (mids ++ (w ++ String dquote tail)%string :: rest)%list true false value
  = (space_joined value (mids ++ [trimmed w])%list, S (List.length mids)).
Proof.
  induction mids as [|t mids IH]; intros value Hall Hw.
  - assert (Hq : contains_char dquote (w ++ String dquote tail) = true).
    { rewrite contains_char_append. cbn [contains_char].
      now rewrite Ascii.eqb_refl, orb_true_r. }
    assert (Hsplit : split (String dquote EmptyString) (w ++ String dquote tail)
                     = (w :: split_aux (String dquote EmptyString) tail 0 EmptyString)%list).
    { rewrite (split_field_first _ _ _ _ Hw). apply split_aux_at_char. }
    cbn [app accumulate_value negb andb]. rewrite Hq.
    rewrite (section_first _ _ _ _ Hsplit), (remove_char_lacking _ _ Hw).
    cbv beta iota zeta.
    destruct rest; reflexivity.
  - inversion Hall as [|? ? Ht Hmids]; subst.
    cbn [app accumulate_value negb andb space_joined List.length]. rewrite Ht.
    cbv beta iota zeta. rewrite (IH _ Hmids Hw). reflexivity.
Qed.

Lemma space_joined_taken (tokens : list QString) (value : QString) :
  tokens <> [] -> space_joined value tokens <> EmptyString.
Proof.
  destruct tokens as [|t tokens]; [intros H; now elim H|intros _].
  cbn [space_joined]. apply space_joined_nonempty.
  destruct value; discriminate.
Qed.

Lemma skipn_past {A : Type} (mids : list A) (x : A) (rest : list A) :
  skipn (S (List.length mids)) (mids ++ x :: rest)%list = rest.
Proof. induction mids as [|m mids IH]; [reflexivity|exact IH]. Qed.

Section Quoted.

Variable ext : Externals.

Lemma quoted_token_enters_text_branch token field (v : QString) :
  text_token token field (String dquote v) ->
  contains_char dquote v = false ->
  contains_char ":"%char token = true
  /\ trimmed (remove_char ":"%char (section ":" 0 0 token)) = field
  /\ trimmed (remove_char ":"%char (section ":" 1 (-1) token)) = String dquote v
  /\ isEmpty field = false
  /\ list_contains_ci kTextSearchColumns field
     && (count_char dquote (String dquote v) <=? 2)%nat = true.
Proof.
  intros [Hcolon [Hfield [Hvalue [Hf [_ Htext]]]]] Hv.
  repeat split; try (symmetry; assumption); try assumption.
  - now apply isEmpty_false.
  - rewrite Htext. cbn [count_char]. rewrite Ascii.eqb_refl, (count_char_lacking _ _ Hv).
    reflexivity.
Qed.

Lemma open_quotation_body token (next_tokens : list QString) filterdata_list field
    (v : QString) :
  text_token token field (String dquote v) ->
  contains_char dquote v = false ->
  Forall (fun t : QString => contains_char dquote t = false) next_tokens ->
  token_body ext token next_tokens filterdata_list
  = exit_continue
      (if isEmpty (space_joined v next_tokens) then filterdata_list
       else insert field
              (mkFilterData field (QVariant_QString (space_joined v next_tokens))
                            EmptyString)
              filterdata_list)
      (List.length next_tokens).
Proof.
  intros Htok Hv Hall.
  destruct (quoted_token_enters_text_branch _ _ _ Htok Hv)
    as [Hcolon [Hfield [Hvalue [Hf Hgate]]]].
  unfold token_body. rewrite Hcolon, Hfield, Hvalue, Hf, Hgate.
  cbn [isEmpty orb].
  rewrite (opening_quotation_mark_open v Hv), (accumulate_value_open _ _ Hall).
  destruct (isEmpty (space_joined v next_tokens)); reflexivity.
Qed.

Lemma closed_quotation_body token mids (w tail : QString) rest filterdata_list field
    (v : QString) :
  text_token token field (String dquote v) ->
  contains_char dquote v = false ->
  Forall (fun t : QString => contains_char dquote t = false) mids ->
  contains_char dquote w = false ->
  token_body ext token (mids ++ (w ++ String dquote tail)%string :: rest)%list filterdata_list
  = exit_continue
      (insert field
         (mkFilterData field
            (QVariant_QString (space_joined v (mids ++ [trimmed w])%list)) EmptyString)
         filterdata_list)
      (S (List.length mids)).
Proof.
  intros Htok Hv Hall Hw.
  destruct (quoted_token_enters_text_branch _ _ _ Htok Hv)
    as [Hcolon [Hfield [Hvalue [Hf Hgate]]]].
  unfold token_body. rewrite Hcolon, Hfield, Hvalue, Hf, Hgate.
  cbn [isEmpty orb].
  rewrite (opening_quotation_mark_open v Hv), (accumulate_value_closed _ _ _ _ _ Hall Hw).
  assert (Hjoined : isEmpty (space_joined v (mids ++ [trimmed w])%list) = false).
  { apply isEmpty_false, space_joined_taken. destruct mids; discriminate. }
  rewrite Hjoined. reflexivity.
Qed.

Lemma quoted_token_of_parts field (v : QString) :
  list_contains_ci kTextSearchColumns field = true ->
  contains_char ":"%char v = false ->
  trimmed (String dquote v) = String dquote v ->
  text_token (field ++ ":" ++ String dquote v) field (String dquote v).
Proof.
  intros Htext Hvc Htv.
  apply text_token_of_parts; [exact Htext| |exact Htv|discriminate].
  cbn [contains_char]. rewrite Hvc. reflexivity.
Qed.

(** X12.  A text value that opens with a quotation mark which is never
    closed takes every token after it, operators or not, each after a
    space: the loop ends there, and nothing of these tokens reaches the
    free text. *)
Theorem open_quotation_takes_every_token (field v : QString)
    (next_tokens : list QString) filterdata_list filter :
  list_contains_ci kTextSearchColumns field = true ->
  contains_char ":"%char v = false ->
  contains_char dquote v = false ->
  trimmed (String dquote v) = String dquote v ->
  Forall (fun t : QString => contains_char dquote t = false) next_tokens ->
  parse_tokens ext ((field ++ ":" ++ String dquote v) :: next_tokens) 0 filterdata_list filter
  = (if isEmpty (space_joined v next_tokens) then filterdata_list
     else insert field
            (mkFilterData field (QVariant_QString (space_joined v next_tokens)) EmptyString)
            filterdata_list,
     filter).
Proof.
  intros Htext Hvc Hv Htv Hall.
  cbn [parse_tokens].
  rewrite (open_quotation_body _ next_tokens filterdata_list field v
             (quoted_token_of_parts field v Htext Hvc Htv) Hv Hall).
  rewrite parse_tokens_skip, skipn_all. reflexivity.
Qed.

(** X13.  A text value that opens with a quotation mark runs to the first
    later token that holds a quotation mark: the tokens between are taken
    whole, operators or not, the closing token is taken up to its
    quotation mark, and what follows the mark in that token is lost; the
    loop goes on with the token after it. *)
Theorem quoted_value_ends_at_closing_mark (field v w tail : QString)
    (mids rest : list QString) filterdata_list filter :
  list_contains_ci kTextSearchColumns field = true ->
  contains_char ":"%char v = false ->
  contains_char dquote v = false ->
  trimmed (String dquote v) = String dquote v ->
  Forall (fun t : QString => contains_char dquote t = false) mids ->
  contains_char dquote w = false ->
  parse_tokens ext
    ((field ++ ":" ++ String dquote v)%string
       :: mids ++ (w ++ String dquote tail)%string :: rest)%list
    0 filterdata_list filter
  = parse_tokens ext rest 0
      (insert field
         (mkFilterData field
            (QVariant_QString (space_joined v (mids ++ [trimmed w])%list)) EmptyString)
         filterdata_list)
      filter.
Proof.
  intros Htext Hvc Hv Htv Hall Hw.
  cbn [parse_tokens].
  rewrite (closed_quotation_body _ mids w tail rest filterdata_list field v
             (quoted_token_of_parts field v Htext Hvc Htv) Hv Hall Hw).
  rewrite parse_tokens_skip, skipn_past. reflexivity.
Qed.

End Quoted.

Lemma open_quotation_takes_every_token_witness :
  parse_tokens sample_externals
    [("title" ++ ":" ++ String dquote "come")%string; "year>1970"; "abbey"] 0 [] EmptyString
  = (if isEmpty (space_joined "come" ["year>1970"; "abbey"]) then []
     else insert "title"
            (mkFilterData "title"
               (QVariant_QString (space_joined "come" ["year>1970"; "abbey"])) EmptyString)
            [],
     EmptyString).
Proof.
  apply (open_quotation_takes_every_token sample_externals "title" "come"
           ["year>1970"; "abbey"] [] EmptyString).
  - reflexivity.
  - reflexivity.
  - reflexivity.
  - reflexivity.
  - repeat constructor.
Defined.

Lemma quoted_value_ends_at_closing_mark_witness :
  parse_tokens sample_externals
    (("title" ++ ":" ++ String dquote "come")%string
       :: ["a=b"] ++ ("together" ++ String dquote "now")%string :: ["abbey"])%list
    0 [] EmptyString
  = parse_tokens sample_externals ["abbey"] 0
      (insert "title"
         (mkFilterData "title"
            (QVariant_QString (space_joined "come" (["a=b"] ++ [trimmed "together"])%list))
            EmptyString)
         [])
      EmptyString.
Proof.
  apply (quoted_value_ends_at_closing_mark sample_externals "title" "come" "together" "now"
           ["a=b"] ["abbey"] [] EmptyString).
  - reflexivity.
  - reflexivity.
  - reflexivity.
  - reflexivity.
  - repeat constructor.
  - reflexivity.
Defined.

(* ================================================================= *)
(** ** Fields without data *)

(** A predicate on a field that [DataFromField] does not know refuses
    every record. *)
Lemma unknown_field_refuses ext metadata filterdata_list fields key filter_data :
  FilterDataList_wf filterdata_list ->
  In (key, filter_data) filterdata_list ->
  DataFromField key metadata = QVariant_Invalid ->
  ItemMetadataMatches ext metadata filterdata_list fields = false.
Proof.
  intros Hwf Hin Hunknown.
  destruct (ItemMetadataMatches ext metadata filterdata_list fields) eqn:E;
    [|reflexivity].
  pose proof (proj1 (ItemMetadataMatches_all ext metadata filterdata_list fields Hwf) E) as H.
  destruct (H _ Hin) as [_ [Hty _]]. cbn [fst snd] in Hty.
  rewrite Hunknown in Hty.
  unfold FilterDataList_wf in Hwf. rewrite Forall_forall in Hwf.
  destruct (Hwf _ Hin) as [_ Hvalid]. cbn [snd] in Hvalid.
  destruct (value filter_data); discriminate.
Qed.

Section Unknown.

Variable ext : Externals.

Lemma unknown_field_matches_no_node model item filterdata_list filter key filter_data :
  FilterDataList_wf filterdata_list ->
  In (key, filter_data) filterdata_list ->
  DataFromField key (metadata item) = QVariant_Invalid ->
  ItemMatchesFilter ext model item filterdata_list filter = false.
Proof.
  intros Hwf Hin Hunknown. unfold ItemMatchesFilter.
  rewrite !(unknown_field_refuses ext _ _ _ _ _ Hwf Hin Hunknown).
  destruct filterdata_list; [now elim Hin|].
  now rewrite !andb_false_r.
Qed.

(** X14.  A Container node of a level grouped by disc, original year,
    file type or format matches no filter with a predicate: the field
    gate lets only the field of the dimension through, and
    [DataFromField] has no data for that field. *)
Theorem container_of_field_without_data_never_matches model item filterdata_list filter :
  FilterDataList_wf filterdata_list ->
  filterdata_list <> [] ->
  type item = Type_Container ->
  In (Grouping_at (GetGroupBy model) (container_level item))
     [GroupBy_Disc; GroupBy_OriginalYear; GroupBy_FileType; GroupBy_Format] ->
  ItemMatchesFilter ext model item filterdata_list filter = false.
Proof.
  intros Hwf Hne Htype Hdim.
  destruct filterdata_list as [|[k d] rest]; [now elim Hne|].
  inversion Hwf as [|? ? [Hk Hvalid] _]; subst. cbn [fst snd] in Hk, Hvalid.
  apply isEmpty_false in Hk.
  assert (Hrefused : ItemMetadataMatches ext (metadata item) ((k, d) :: rest)
                       (FieldsFromGroupBy
                          (Grouping_at (GetGroupBy model) (container_level item)))
                     = false).
  { assert (Hone : forall name : QString,
              DataFromField name (metadata item) = QVariant_Invalid ->
              ItemMetadataMatches ext (metadata item) ((k, d) :: rest) [name] = false).
    { intros name Hunknown. cbn [ItemMetadataMatches].
      rewrite Hk, Hvalid. cbn [negb orb andb list_contains existsb].
      destruct (String.eqb name k) eqn:E; [|reflexivity].
      apply String.eqb_eq in E. subst k. rewrite Hunknown.
      cbn [orb negb]. destruct (value d); try discriminate; reflexivity. }
    destruct Hdim as [<-|[<-|[<-|[<-|[]]]]]; apply Hone; reflexivity. }
  unfold ItemMatchesFilter. rewrite Hrefused, Htype.
  cbn [ItemType_eqb andb orb]. now rewrite !andb_false_r.
Qed.

(** X15.  A filter with a predicate on a field that [DataFromField] does
    not know (a name with a capital letter, or a name such as [disc] that
    is a search column without a case in [DataFromField]) accepts no row
    but the LoadingIndicator rows. *)
Theorem unknown_field_hides_every_row model filter_pattern source_row source_parent
    item parents key filter_data :
  IndexToChain (root model) [] (source_parent ++ [Z.to_nat source_row])%list
  = Some (item :: parents) ->
  type item <> Type_LoadingIndicator ->
  In (key, filter_data) (fst (ParseFilter ext (remove_char backslash filter_pattern))) ->
  (forall metadata, DataFromField key metadata = QVariant_Invalid) ->
  filterAcceptsRow ext (Some model) filter_pattern source_row source_parent = false.
Proof.
  intros Hchain Hload Hin Hunknown.
  unfold filterAcceptsRow.
  destruct (source_row <? 0)%Z; [reflexivity|].
  rewrite Hchain.
  destruct (ItemType_eqb (type item) Type_LoadingIndicator) eqn:Htype.
  { apply ItemType_eqb_eq in Htype. now elim Hload. }
  destruct (isEmpty (remove_char backslash filter_pattern)) eqn:Hempty.
  { apply isEmpty_true in Hempty. rewrite Hempty in Hin. now elim Hin. }
  pose proof (ParseFilter_wf ext (remove_char backslash filter_pattern)) as Hwf.
  destruct (ParseFilter ext (remove_char backslash filter_pattern)) as [fdl filter].
  cbn [fst] in Hin, Hwf.
  assert (Hnone : forall n, ItemMatchesFilter ext model n fdl filter = false).
  { intros n. apply (unknown_field_matches_no_node _ _ _ _ key filter_data Hwf Hin).
    apply Hunknown. }
  rewrite Hnone.
  destruct (ParentsMatch ext model (item :: parents) fdl filter) eqn:Hparents.
  { apply ParentsMatch_In in Hparents as [n [_ Hn]]. rewrite Hnone in Hn. discriminate. }
  destruct (ChildrenMatches ext model item fdl filter) eqn:Hchildren; [|reflexivity].
  apply ChildrenMatches_Descendant in Hchildren as [n [_ Hn]].
  rewrite Hnone in Hn. discriminate.
Qed.

End Unknown.

Lemma container_of_field_without_data_never_matches_witness :
  ItemMatchesFilter sample_externals
    (mkModel (root_item []) (mkGrouping GroupBy_Disc GroupBy_None GroupBy_None))
    (mkItem Type_Container 0 "1" Song_default [])
    [("disc", mkFilterData "disc" (QVariant_Int 1) "=")] EmptyString = false.
Proof.
  apply (container_of_field_without_data_never_matches sample_externals
           (mkModel (root_item []) (mkGrouping GroupBy_Disc GroupBy_None GroupBy_None))
           (mkItem Type_Container 0 "1" Song_default [])
           [("disc", mkFilterData "disc" (QVariant_Int 1) "=")] EmptyString).
  - repeat constructor. discriminate.
  - discriminate.
  - reflexivity.
  - left. reflexivity.
Defined.

Lemma unknown_field_hides_every_row_witness :
  filterAcceptsRow sample_externals (Some c1_model) "disc=1" 0 [0] = false.
Proof.
  apply (unknown_field_hides_every_row sample_externals c1_model "disc=1" 0 [0]
           (song_item (sample_song "Come Together" 1969 259))
           [artist_item [song_item (sample_song "Come Together" 1969 259)];
            root c1_model]
           "disc" (mkFilterData "disc" (QVariant_Int 1) "=")).
  - reflexivity.
  - discriminate.
  - left. reflexivity.
  - intros metadata. reflexivity.
Defined.

(* ================================================================= *)
(** ** Grouping dimensions *)

(** X16.  The classification of the grouping dimensions in
    collectionmodel.h agrees with the field sets the filter gives them: a
    dimension is an album dimension exactly when its fields hold [album],
    an artist dimension exactly when they hold [artist] or [albumartist],
    and no dimension is both. *)
Theorem group_by_classes_agree_with_fields (group_by : GroupBy) :
  IsAlbumGroupBy group_by = list_contains (FieldsFromGroupBy group_by) "album"
  /\ IsArtistGroupBy group_by
     = (list_contains (FieldsFromGroupBy group_by) "artist"
        || list_contains (FieldsFromGroupBy group_by) "albumartist")
  /\ IsArtistGroupBy group_by && IsAlbumGroupBy group_by = false.
Proof. destruct group_by; repeat split; reflexivity. Qed.

(* ================================================================= *)
(** ** The predicates as a conjunction *)

Section Conjunction.

Variable ext : Externals.

Lemma ItemMetadataMatches_app metadata (l1 l2 : FilterDataList) fields :
  ItemMetadataMatches ext metadata (l1 ++ l2)%list fields
  = ItemMetadataMatches ext metadata l1 fields
    && ItemMetadataMatches ext metadata l2 fields.
Proof.
  induction l1 as [|[k d] l1 IH]; [reflexivity|].
  cbn [app ItemMetadataMatches].
  destruct (isEmpty k || negb (isValid (value d))); [exact IH|].
  destruct (negb match fields with [] => true | _ :: _ => false end
            && negb (list_contains fields k)); [reflexivity|].
  destruct (negb (QMetaType_eqb (metaType (value d)) (metaType (DataFromField k metadata)))
            || negb (FieldValueMatchesData ext (value d) (DataFromField k metadata)
                                           (foperator d))); [reflexivity|exact IH].
Qed.

(** X17.  The predicates are a conjunction: the answer of
    [ItemMetadataMatches] does not depend on the order in which the
    predicate set is walked. *)
Theorem ItemMetadataMatches_any_order metadata (l l' : FilterDataList) fields :
  Permutation l l' ->
  ItemMetadataMatches ext metadata l fields = ItemMetadataMatches ext metadata l' fields.
Proof.
  induction 1 as [|x l l' _ IH|x y l|l l' l'' _ IH1 _ IH2].
  - reflexivity.
  - change (x :: l)%list with ([x] ++ l)%list.
    change (x :: l')%list with ([x] ++ l')%list.
    now rewrite !ItemMetadataMatches_app, IH.
  - change (y :: x :: l)%list with ([y] ++ [x] ++ l)%list.
    change (x :: y :: l)%list with ([x] ++ [y] ++ l)%list.
    rewrite !ItemMetadataMatches_app, !andb_assoc.
    f_equal. apply andb_comm.
  - now rewrite IH1.
Qed.

End Conjunction.

Lemma ItemMetadataMatches_any_order_witness :
  ItemMetadataMatches sample_externals (sample_song "Come Together" 1969 259)
    [("year", mkFilterData "year" (QVariant_Int 1970) "<");
     ("title", mkFilterData "title" (QVariant_QString "come") EmptyString)] []
  = ItemMetadataMatches sample_externals (sample_song "Come Together" 1969 259)
      [("title", mkFilterData "title" (QVariant_QString "come") EmptyString);
       ("year", mkFilterData "year" (QVariant_Int 1970) "<")] [].
Proof.
  apply (ItemMetadataMatches_any_order sample_externals).
  apply perm_swap.
Defined.

(* ================================================================= *)
(** ** White space beside the operators *)

Lemma replace_around_drop op s : forall skip,
  replace_around op s skip = replace_around op (drop skip s) 0.
Proof.
  induction s as [|x s IH]; intros skip.
  - now destruct skip.
  - destruct skip as [|k]; [reflexivity|]. cbn [replace_around drop]. apply IH.
Qed.

Lemma starts_with_space_skip_spaces s : starts_with_space (skip_spaces s) = false.
Proof.
  induction s as [|x s IH]; [reflexivity|].
  cbn [skip_spaces]. destruct (regex_space x) eqn:Hx; [exact IH|].
  cbn [starts_with_space]. exact Hx.
Qed.

(** The parts of a match of [\s*OP\s*]: white space, the operator, white
    space, and a rest that does not start with white space. *)
Lemma match_op_at_parts op s n :
  match_op_at op s = Some n ->
  exists w1 w2 tail,
    without_spaces w1 = EmptyString /\ without_spaces w2 = EmptyString
    /\ s = w1 ++ op ++ w2 ++ tail
    /\ skip_spaces s = op ++ w2 ++ tail
    /\ drop n s = tail
    /\ starts_with_space tail = false
    /\ n = String.length w1 + String.length op + String.length w2.
Proof.
  unfold match_op_at.
  destruct (prefix op (skip_spaces s)) eqn:Hprefix; [|discriminate].
  intros H. injection H as <-.
  apply prefix_append in Hprefix as [rest Hrest].
  destruct (skip_spaces_split s) as [w1 [Hs Hw1]].
  destruct (skip_spaces_split rest) as [w2 [Hr Hw2]].
  rewrite Hrest, drop_append.
  exists w1, w2, (skip_spaces rest).
  assert (Hwhole : s = (w1 ++ op ++ w2) ++ skip_spaces rest).
  { rewrite Hs at 1. rewrite Hrest, Hr at 1. now rewrite !append_assoc. }
  assert (Hn : String.length s - String.length (skip_spaces rest)
               = String.length (w1 ++ op ++ w2)).
  { rewrite Hwhole at 1. rewrite string_length_append. lia. }
  repeat split; try assumption.
  - rewrite Hwhole at 1. now rewrite !append_assoc.
  - now rewrite <- Hr.
  - rewrite Hn. rewrite Hwhole at 1. apply drop_append.
  - apply starts_with_space_skip_spaces.
  - rewrite Hn, !string_length_append. lia.
Qed.

Lemma despaced_refl s : despaced s s.
Proof. induction s; constructor; assumption. Qed.

Lemma despaced_spaces w : forall s t,
  without_spaces w = EmptyString -> despaced s t -> despaced (w ++ s) t.
Proof.
  induction w as [|x w IH]; intros s t Hw H; [exact H|].
  cbn [without_spaces] in Hw. destruct (regex_space x) eqn:Hx; [|discriminate].
  cbn [append]. apply despaced_drop; [exact Hx|now apply IH].
Qed.

Lemma despaced_kept a : forall s t, despaced s t -> despaced (a ++ s) (a ++ t).
Proof.
  induction a as [|x a IH]; intros s t H; [exact H|].
  cbn [append]. apply despaced_keep. now apply IH.
Qed.

(** A pass of the normalization deletes white space, nothing else. *)
Lemma replace_around_despaced op0 op' s : forall skip,
  despaced (drop skip s) (replace_around (String op0 op') s skip).
Proof.
  induction s as [|x s IH]; intros skip.
  - destruct skip; constructor.
  - destruct skip as [|k]; [|exact (IH k)].
    cbn [replace_around drop].
    destruct (match_op_at (String op0 op') (String x s)) as [n|] eqn:Hmatch.
    + destruct (match_op_at_parts _ _ _ Hmatch)
        as [w1 [w2 [tail [Hw1 [Hw2 [Hs [_ [Hdrop [_ Hn]]]]]]]]].
      destruct n as [|n]; [simpl in Hn; lia|].
      cbn [drop] in Hdrop. cbn [Nat.sub]. rewrite Nat.sub_0_r.
      rewrite Hs.
      apply despaced_spaces; [exact Hw1|].
      apply despaced_kept.
      apply despaced_spaces; [exact Hw2|].
      rewrite <- Hdrop. apply IH.
    + apply despaced_keep. exact (IH 0).
Qed.

Lemma despaced_starts_with d s t :
  despaced s t -> no_space_beside d s = true ->
  starts_with d t = true -> starts_with d s = true.
Proof.
  induction 1 as [|c s t _ _|c s t Hc _ IH]; intros Hs Ht.
  - discriminate.
  - exact Ht.
  - cbn [no_space_beside] in Hs.
    apply andb_true_iff in Hs as [Hs Hrest].
    apply andb_true_iff in Hs as [_ Hs].
    rewrite Hc, (IH Hrest Ht) in Hs. discriminate.
Qed.

Lemma despaced_starts_with_space s t :
  despaced s t -> starts_with_space t = true -> starts_with_space s = true.
Proof. induction 1 as [|c s t _ _|c s t Hc _ _]; intros Ht; assumption. Qed.

(** Deleting white space puts no white space beside [d]. *)
Lemma despaced_no_space_beside d s t :
  despaced s t -> no_space_beside d s = true -> no_space_beside d t = true.
Proof.
  induction 1 as [|c s t Hst IH|c s t Hc Hst IH]; intros Hs.
  - reflexivity.
  - cbn [no_space_beside] in *.
    apply andb_true_iff in Hs as [Hs Hrest].
    apply andb_true_iff in Hs as [Hafter Hbefore].
    rewrite (IH Hrest), andb_true_r.
    apply andb_true_iff. split.
    + destruct (starts_with_space t) eqn:Ht; [|now rewrite andb_false_r].
      now rewrite (despaced_starts_with_space _ _ Hst Ht) in Hafter.
    + destruct (starts_with d t) eqn:Ht; [|now rewrite andb_false_r].
      now rewrite (despaced_starts_with _ _ _ Hst Hrest Ht) in Hbefore.
  - cbn [no_space_beside] in Hs.
    apply andb_true_iff in Hs as [_ Hrest]. now apply IH.
Qed.

(** A later pass keeps what an earlier pass has cleared. *)
Lemma pass_keeps_no_space_beside d op0 op' s :
  no_space_beside d s = true ->
  no_space_beside d (replace_around (String op0 op') s 0) = true.
Proof.
  apply despaced_no_space_beside.
  exact (replace_around_despaced op0 op' s 0).
Qed.

Lemma prefix_one_char c t : prefix (String c EmptyString) t = starts_with c t.
Proof.
  destruct t as [|y t]; [reflexivity|].
  cbn [prefix starts_with].
  destruct (ascii_dec c y) as [->|Hne].
  - rewrite Ascii.eqb_refl. apply prefix_empty.
  - symmetry. apply Ascii.eqb_neq. congruence.
Qed.

Section OnePass.

Variable c : ascii.
Hypothesis c_no_space : regex_space c = false.

Lemma match_one_char_None s :
  match_op_at (String c EmptyString) s = None -> starts_with c (skip_spaces s) = false.
Proof.
  unfold match_op_at. rewrite prefix_one_char.
  now destruct (starts_with c (skip_spaces s)).
Qed.

Lemma replace_one_char_starts_with_space s :
  starts_with_space (replace_around (String c EmptyString) s 0) = true ->
  starts_with_space s = true.
Proof.
  destruct s as [|x s]; [discriminate|].
  cbn [replace_around].
  destruct (match_op_at (String c EmptyString) (String x s)).
  - cbn [append starts_with_space]. now rewrite c_no_space.
  - intros H. exact H.
Qed.

Lemma replace_one_char_starts_with s :
  starts_with c (replace_around (String c EmptyString) s 0) = true ->
  starts_with c (skip_spaces s) = true.
Proof.
  destruct s as [|x s]; [discriminate|].
  cbn [replace_around].
  destruct (match_op_at (String c EmptyString) (String x s)) as [n|] eqn:Hmatch.
  - intros _. unfold match_op_at in Hmatch. rewrite prefix_one_char in Hmatch.
    now destruct (starts_with c (skip_spaces (String x s))).
  - cbn [starts_with]. intros Hx. apply Ascii.eqb_eq in Hx. subst x.
    cbn [skip_spaces]. rewrite c_no_space. cbn [starts_with]. apply Ascii.eqb_refl.
Qed.

(** The pass of a one-character operator leaves no white space beside
    it. *)
Lemma pass_makes_no_space_beside s : forall skip,
  no_space_beside c (replace_around (String c EmptyString) s skip) = true.
Proof.
  induction s as [|x s IH]; intros skip; [reflexivity|].
  destruct skip as [|k]; [|exact (IH k)].
  cbn [replace_around].
  destruct (match_op_at (String c EmptyString) (String x s)) as [n|] eqn:Hmatch.
  - destruct (match_op_at_parts _ _ _ Hmatch)
      as [w1 [w2 [tail [_ [_ [_ [_ [Hdrop [Htail Hn]]]]]]]]].
    destruct n as [|n]; [simpl in Hn; lia|].
    cbn [drop] in Hdrop. cbn [Nat.sub]. rewrite Nat.sub_0_r.
    cbn [append no_space_beside].
    rewrite (IH n), c_no_space, andb_true_r. cbn [andb negb]. rewrite andb_true_r.
    destruct (starts_with_space (replace_around (String c EmptyString) s n)) eqn:Hnext;
      [|now rewrite andb_false_r].
    rewrite replace_around_drop, Hdrop in Hnext.
    apply replace_one_char_starts_with_space in Hnext. congruence.
  - apply match_one_char_None in Hmatch.
    cbn [no_space_beside]. rewrite (IH 0), andb_true_r.
    apply andb_true_iff. split.
    + destruct (Ascii.eqb x c) eqn:Hx; [|reflexivity].
      apply Ascii.eqb_eq in Hx. subst x.
      cbn [skip_spaces] in Hmatch. rewrite c_no_space in Hmatch.
      cbn [starts_with] in Hmatch. now rewrite Ascii.eqb_refl in Hmatch.
    + destruct (regex_space x) eqn:Hx; [|reflexivity].
      destruct (starts_with c (replace_around (String c EmptyString) s 0)) eqn:Hnext;
        [|reflexivity].
      apply replace_one_char_starts_with in Hnext.
      cbn [skip_spaces] in Hmatch. rewrite Hx in Hmatch. congruence.
Qed.

End OnePass.

(** X18.  After the normalization of lines 65-72 no white space is left
    right before or right after a [:], [=], [<] or [>]: white space never
    cuts one of these operators from its operands, whatever the filter. *)
Theorem no_space_beside_operators (filter : QString) :
  no_space_beside ":" (normalize_operators filter) = true
  /\ no_space_beside "=" (normalize_operators filter) = true
  /\ no_space_beside "<" (normalize_operators filter) = true
  /\ no_space_beside ">" (normalize_operators filter) = true.
Proof.
  unfold normalize_operators. cbn [fold_left].
  repeat split.
  - do 7 apply pass_keeps_no_space_beside. now apply pass_makes_no_space_beside.
  - do 6 apply pass_keeps_no_space_beside. now apply pass_makes_no_space_beside.
  - do 3 apply pass_keeps_no_space_beside. now apply pass_makes_no_space_beside.
  - do 2 apply pass_keeps_no_space_beside. now apply pass_makes_no_space_beside.
Qed.

(* ================================================================= *)
(** ** Filters without operators *)

Lemma skip_spaces_lacking c s :
  contains_char c s = false -> contains_char c (skip_spaces s) = false.
Proof.
  induction s as [|x s IH]; [reflexivity|]. intros H.
  cbn [skip_spaces]. destruct (regex_space x); [|exact H].
  cbn [contains_char] in H. apply orb_false_iff in H as [_ H]. now apply IH.
Qed.

Lemma prefix_lacking c0 op' t :
  contains_char c0 t = false -> prefix (String c0 op') t = false.
Proof.
  destruct t as [|y t]; [reflexivity|]. cbn [contains_char prefix]. intros H.
  apply orb_false_iff in H as [Hy _].
  destruct (ascii_dec c0 y) as [->|Hne]; [|reflexivity].
  now rewrite Ascii.eqb_refl in Hy.
Qed.

Lemma replace_around_lacking c0 op' s :
  contains_char c0 s = false -> replace_around (String c0 op') s 0 = s.
Proof.
  induction s as [|x s IH]; [reflexivity|]. intros H.
  cbn [replace_around]. unfold match_op_at.
  rewrite (prefix_lacking _ _ _ (skip_spaces_lacking _ _ H)).
  cbn [contains_char] in H. apply orb_false_iff in H as [_ H].
  now rewrite (IH H).
Qed.

Lemma split_ws_aux_lacking c s : forall cur,
  contains_char c s = false -> contains_char c cur = false ->
  Forall (fun token : QString => contains_char c token = false) (split_ws_aux s cur).
Proof.
  induction s as [|x s IH]; intros cur Hs Hcur; cbn [split_ws_aux].
  - destruct (isEmpty cur); repeat constructor. exact Hcur.
  - cbn [contains_char] in Hs. apply orb_false_iff in Hs as [Hx Hs].
    destruct (regex_space x).
    + destruct (isEmpty cur); [now apply IH|].
      constructor; [exact Hcur|now apply IH].
    + apply IH; [exact Hs|].
      rewrite contains_char_append, Hcur. cbn [contains_char]. now rewrite Hx.
Qed.

Section PlainFilter.

Variable ext : Externals.

Lemma token_body_without_operator (token : QString) (next_tokens : list QString)
    filterdata_list :
  contains_char ":"%char token = false ->
  contains_char "="%char token = false ->
  contains_char "<"%char token = false ->
  contains_char ">"%char token = false ->
  token_body ext token next_tokens filterdata_list = exit_append filterdata_list.
Proof.
  intros Hc He Hl Hg. unfold token_body. rewrite Hc.
  pose proof (operator_regex_match_chars token) as Hre.
  rewrite He, Hl, Hg in Hre.
  destruct (operator_regex_match token); [discriminate|reflexivity].
Qed.

Lemma parse_tokens_without_operator (tokens : list QString) : forall filterdata_list filter,
  Forall (fun token : QString =>
            contains_char ":"%char token = false /\ contains_char "="%char token = false
            /\ contains_char "<"%char token = false /\ contains_char ">"%char token = false)
         tokens ->
  parse_tokens ext tokens 0 filterdata_list filter
  = (filterdata_list, fold_left append_token tokens filter).
Proof.
  induction tokens as [|token next IH]; intros fdl filter Hall; [reflexivity|].
  inversion Hall as [|? ? [Hc [He [Hl Hg]]] Hnext]; subst.
  cbn [parse_tokens fold_left].
  rewrite (token_body_without_operator token next fdl Hc He Hl Hg).
  now apply IH.
Qed.

(** X19.  A filter without [:], [=], [<] and [>] is all free text: it
    gives no predicate, and the free text is its words with one space
    between them, whatever white space was typed around them. *)
Theorem filter_without_operator_is_free_text (filter : QString) :
  contains_char ":"%char filter = false ->
  contains_char "="%char filter = false ->
  contains_char "<"%char filter = false ->
  contains_char ">"%char filter = false ->
  ParseFilter ext filter = ([], join " " (split_ws filter)).
Proof.
  intros Hc He Hl Hg.
  assert (Hsame : normalize_operators filter = filter).
  { unfold normalize_operators. cbn [fold_left].
    now rewrite (replace_around_lacking _ _ _ Hc), !(replace_around_lacking _ _ _ He),
      !(replace_around_lacking _ _ _ Hl), !(replace_around_lacking _ _ _ Hg),
      !(replace_around_lacking _ _ _ Hl), !(replace_around_lacking _ _ _ Hg). }
  unfold ParseFilter. rewrite Hsame.
  rewrite parse_tokens_without_operator.
  - f_equal.
    pose proof (split_ws_aux_tokens filter EmptyString eq_refl) as Htokens.
    fold (split_ws filter) in Htokens.
    destruct (split_ws filter) as [|k kept]; [reflexivity|].
    inversion Htokens as [|? ? [Hk _] Hrest]; subst.
    cbn [fold_left]. change (append_token EmptyString k) with k.
    apply fold_append_token_join; [exact Hk|].
    eapply Forall_impl; [|exact Hrest]. intros token [Hne _]. exact Hne.
  - unfold split_ws.
    pose proof (split_ws_aux_lacking ":"%char filter EmptyString Hc eq_refl) as H1.
    pose proof (split_ws_aux_lacking "="%char filter EmptyString He eq_refl) as H2.
    pose proof (split_ws_aux_lacking "<"%char filter EmptyString Hl eq_refl) as H3.
    pose proof (split_ws_aux_lacking ">"%char filter EmptyString Hg eq_refl) as H4.
    rewrite Forall_forall in *. intros token Hin.
    repeat split; [apply H1|apply H2|apply H3|apply H4]; exact Hin.
Qed.

End PlainFilter.

Lemma filter_without_operator_is_free_text_witness :
  ParseFilter sample_externals "  come   together "
  = ([], join " " (split_ws "  come   together ")).
Proof.
  apply (filter_without_operator_is_free_text sample_externals "  come   together ");
    reflexivity.
Defined.
